(** * autodiff: forward-mode dual numbers and reverse-mode graph nodes

    A shallow embedding of the [autodiff] package (dualnumber.py, rNode.py,
    operators.py, func.py).

    - Python numbers (int, float and the numpy scalars the package produces)
      are an abstract type [F] with the arithmetic the code uses, collected
      in the class [PyNum]; the exact real numbers are an instance.
    - [rNode] objects live in a store indexed by object identity; the class
      attribute [rNode.increment] is a second component of the state.
    - Python exceptions are the [Raise] results of a small state-and-error
      monad. *)

From Stdlib Require Import ZArith Reals Lra Lia String.
From stdpp Require Import base decidable option list strings gmap sets.

(* ================================================================= *)
(** ** Numbers *)

(** The arithmetic of Python numbers as the package uses it.  [lit] is an
    integer literal, [fpow] is [**] (and the builtin [pow]), the [np_]
    operations are the numpy functions of the same name. *)
Class PyNum (F : Type) := {
  lit : Z -> F;
  fadd : F -> F -> F;
  fsub : F -> F -> F;
  fmul : F -> F -> F;
  fdiv : F -> F -> F;
  fpow : F -> F -> F;
  fneg : F -> F;
  fle : F -> F -> Prop;
  flt : F -> F -> Prop;
  fle_dec :: RelDecision fle;
  flt_dec :: RelDecision flt;
  np_sin : F -> F;
  np_cos : F -> F;
  np_tan : F -> F;
  np_exp : F -> F;
  np_log : F -> F;
  np_arcsin : F -> F;
  np_arccos : F -> F;
  np_arctan : F -> F;
  np_sinh : F -> F;
  np_cosh : F -> F;
  np_tanh : F -> F;
  np_sqrt : F -> F
}.

Declare Scope num_scope.
Delimit Scope num_scope with num.
Notation "x + y" := (fadd x y) : num_scope.
Notation "x - y" := (fsub x y) : num_scope.
Notation "x * y" := (fmul x y) : num_scope.
Notation "x / y" := (fdiv x y) : num_scope.
Notation "x ** y" := (fpow x y) (at level 30, right associativity) : num_scope.
Notation "- x" := (fneg x) : num_scope.
Notation "x <= y" := (fle x y) : num_scope.
Notation "x < y" := (flt x y) : num_scope.
Notation "x > y" := (flt y x) (only parsing) : num_scope.

(** Laws of exact arithmetic, used only where a claim speaks of the numeric
    value of a sum of partial derivatives. *)
Class PyNumExact (F : Type) `{PyNum F} := {
  fadd_0_l : forall x : F, (lit 0 + x)%num = x;
  fmul_1_l : forall x : F, (lit 1 * x)%num = x;
  fmul_1_r : forall x : F, (x * lit 1)%num = x;
  fadd_diag : forall x : F, (x + x)%num = (lit 2 * x)%num
}.

(** Python exceptions raised by the package; a [ValueError] carries its
    message, which is what tells a domain error from a dimension error. *)
Inductive exn :=
| TypeError
| ValueError (msg : string)
| AssertionError
| AttributeError
| NameError
| IndexError
| RecursionError.

#[global] Instance exn_eq_dec : EqDecision exn.
Proof. solve_decision. Defined.

Definition log_domain_msg : string := "Logarithm undefined on input".
Definition arc_domain_msg : string := "Invalid domain of operator".
Definition sqrt_domain_msg : string := "Invalid square root argument (must be >= 0)".
Definition point_dimension_msg : string :=
  "Dimension mismatch between inputted point and function number of input".
Definition seed_dimension_msg : string :=
  "Dimension mismatch between inputted point and seed vector".

Inductive result (A : Type) :=
| Ok (a : A)
| Raise (e : exn).
Arguments Ok {A} a.
Arguments Raise {A} e.

Definition result_bind {A B} (r : result A) (k : A -> result B) : result B :=
  match r with
  | Ok a => k a
  | Raise e => Raise e
  end.

(* ================================================================= *)
(** ** dualnumber.py *)

Section DualNumber.
Context {F : Type} `{PyNum F}.
Local Open Scope num_scope.

Record DualNumber := mkDual { real : F; dual : F }.

(** The second operand of an overloaded operator of [DualNumber]: a
    supported scalar, another dual number, or an object of any other type. *)
Inductive dual_operand :=
| DScalar (c : F)
| DDual (w : DualNumber)
| DUnsupported.

Definition Dual_neg (z : DualNumber) : DualNumber :=
  mkDual (- real z) (- dual z).

Definition Dual_add (z : DualNumber) (other : dual_operand) : result DualNumber :=
  match other with
  | DUnsupported => Raise TypeError
  | DScalar c => Ok (mkDual (c + real z) (dual z))
  | DDual w => Ok (mkDual (real z + real w) (dual z + dual w))
  end.

Definition Dual_mul (z : DualNumber) (other : dual_operand) : result DualNumber :=
  match other with
  | DUnsupported => Raise TypeError
  | DScalar c => Ok (mkDual (c * real z) (c * dual z))
  | DDual w => Ok (mkDual (real z * real w) (real z * dual w + dual z * real w))
  end.

(** [other * (-1)] as Python evaluates it for each kind of operand; for an
    unsupported operand the product is left to that type and [__add__]
    then rejects the result. *)
Definition times_minus_one (other : dual_operand) : result dual_operand :=
  match other with
  | DScalar c => Ok (DScalar (c * lit (-1)))
  | DDual w => result_bind (Dual_mul w (DScalar (lit (-1)))) (fun r => Ok (DDual r))
  | DUnsupported => Ok DUnsupported
  end.

Definition Dual_sub (z : DualNumber) (other : dual_operand) : result DualNumber :=
  result_bind (times_minus_one other) (Dual_add z).

Definition Dual_truediv (z : DualNumber) (other : dual_operand) : result DualNumber :=
  match other with
  | DUnsupported => Raise TypeError
  | DScalar c => Ok (mkDual (real z / c) (dual z / c))
  | DDual w =>
      Ok (mkDual (real z / real w)
                 ((dual z * real w - real z * dual w) / real w ** lit 2))
  end.

Definition Dual_pow (z : DualNumber) (other : dual_operand) : result DualNumber :=
  match other with
  | DUnsupported => Raise TypeError
  | DScalar p => Ok (mkDual (real z ** p) (p * real z ** (p - lit 1) * dual z))
  | DDual w =>
      Ok (mkDual (real z ** real w)
                 (real z ** real w
                  * (dual w * np_log (real z) + dual z * real w / real z)))
  end.

Definition Dual_radd (z : DualNumber) (other : dual_operand) : result DualNumber :=
  Dual_add z other.

Definition Dual_rsub (z : DualNumber) (other : dual_operand) : result DualNumber :=
  result_bind (Dual_mul z (DScalar (lit (-1)))) (fun m => Dual_add m other).

Definition Dual_rmul (z : DualNumber) (other : dual_operand) : result DualNumber :=
  Dual_mul z other.

Definition Dual_rtruediv (z : DualNumber) (other : dual_operand) : result DualNumber :=
  match other with
  | DScalar c => Ok (mkDual (c / real z) (- c * dual z / real z ** lit 2))
  | _ => Raise TypeError
  end.

Definition Dual_rpow (z : DualNumber) (other : dual_operand) : result DualNumber :=
  match other with
  | DScalar c => Ok (mkDual (c ** real z) (c ** real z * dual z * np_log c))
  | _ => Raise TypeError
  end.

End DualNumber.
Arguments DualNumber F : clear implicits.
Arguments dual_operand F : clear implicits.

(** [__eq__] and [__ne__]; the comparison of two Python numbers is a
    decidable equality of [F]. *)
Section DualComparison.
Context {F : Type} `{PyNum F} `{EqDecision F}.

#[global] Instance DualNumber_eq_dec : EqDecision (DualNumber F).
Proof. solve_decision. Defined.

Definition Dual_eq (z : DualNumber F) (other : dual_operand F) : result bool :=
  match other with
  | DDual w => Ok (bool_decide (real z = real w) && bool_decide (dual z = dual w))
  | _ => Raise TypeError
  end.

Definition Dual_ne (z : DualNumber F) (other : dual_operand F) : result bool :=
  result_bind (Dual_eq z other) (fun b => Ok (negb b)).

End DualComparison.

(* ================================================================= *)
(** ** rNode.py *)

(** The operators of [rNode] that build a node with two operands. *)
Inductive binop := Add | Sub | RSub | Mul | Pow | TrueDiv | RTrueDiv.

(** The elementary functions of operators.py with one argument. *)
Inductive unop :=
| Sin | Cos | Tan | Exp | Log | Arcsin | Arccos | Arctan
| Sinh | Cosh | Tanh | Logistic | Sqrt.

#[global] Instance binop_eq_dec : EqDecision binop.
Proof. solve_decision. Defined.
#[global] Instance unop_eq_dec : EqDecision unop.
Proof. solve_decision. Defined.

Section rNode.
Context {F : Type} `{PyNum F}.
Local Open Scope num_scope.

(** The [oper] attribute: a fixed string, or one of the two formatted
    strings [f'{other}^'] and [f'log_{base}']. *)
Inductive oper_tag :=
| OpStr (s : string)
| OpRPow (other : F)
| OpLogBase (base : F).

(** The closures stored in [backward_func].  Each closure captures the
    objects it mutates; an object is captured by identity. *)
Inductive closure :=
| no_op
| bw_binary (op : binop) (self other res : nat)
| bw_rpow (other : F) (self res : nat)
| bw_unary (f : unop) (x res : nat)
| bw_log_base (base : F) (x res : nat).

(** An [rNode] object.  [name] holds the [k] of the string ['v' + str(k)],
    which is what [int(node.name[1:])] reads back. *)
Record rNode := mk_rNode {
  val : F;
  der : F;
  backward_func : closure;
  oper : oper_tag;
  parents : gset nat;
  name : nat
}.

(** The objects created so far, by identity, and the class attribute
    [rNode.increment]. *)
Record rstate := mk_rstate {
  heap : list rNode;
  increment : nat
}.

Definition set_der (d : F) (n : rNode) : rNode :=
  mk_rNode (val n) d (backward_func n) (oper n) (parents n) (name n).

Definition set_backward_func (c : closure) (n : rNode) : rNode :=
  mk_rNode (val n) (der n) c (oper n) (parents n) (name n).

(** Attribute reads and writes through a reference. *)
Definition val_of (h : list rNode) (x : nat) : F :=
  from_option val (lit 0) (h !! x).
Definition der_of (h : list rNode) (x : nat) : F :=
  from_option der (lit 0) (h !! x).
Definition name_of (h : list rNode) (x : nat) : nat :=
  from_option name 0%nat (h !! x).
Definition parents_of (h : list rNode) (x : nat) : gset nat :=
  from_option parents ∅ (h !! x).
Definition backward_func_of (h : list rNode) (x : nat) : closure :=
  from_option backward_func no_op (h !! x).

Definition write_der (x : nat) (d : F) (h : list rNode) : list rNode :=
  alter (set_der d) x h.

(** [x.der += d] *)
Definition accumulate (x : nat) (d : F) (h : list rNode) : list rNode :=
  write_der x (der_of h x + d) h.

(** [rNode.__init__]: returns the new object's identity. *)
Definition rNode_init (v : F) (ps : list nat) (op : oper_tag) (st : rstate)
  : nat * rstate :=
  (length (heap st),
   mk_rstate
     (heap st ++ [mk_rNode v (lit 0) no_op op (list_to_set ps) (increment st)])
     (S (increment st))).

Definition assign_backward_func (x : nat) (c : closure) (st : rstate) : rstate :=
  mk_rstate (alter (set_backward_func c) x (heap st)) (increment st).

(** The local partial derivatives that the [_backward_fn] of each binary
    operator multiplies with [res.der]: first the factor for [self], then
    the factor for [other]. *)
Definition d_self (op : binop) (s o : F) : F :=
  match op with
  | Add => lit 1
  | Sub => lit 1
  | RSub => lit (-1)
  | Mul => o
  | Pow => o * s ** (o - lit 1)
  | TrueDiv => lit 1 / o
  | RTrueDiv => - o / s ** lit 2
  end.

Definition d_other (op : binop) (s o : F) : F :=
  match op with
  | Add => lit 1
  | Sub => lit (-1)
  | RSub => lit 1
  | Mul => s
  | Pow => s ** o * np_log s
  | TrueDiv => - s / o ** lit 2
  | RTrueDiv => lit 1 / s
  end.

(** The derivative factor in the [_backward_fn] of each elementary
    function, at [x.val]. *)
Definition d_unary (f : unop) (a : F) : F :=
  match f with
  | Sin => np_cos a
  | Cos => - np_sin a
  | Tan => lit 1 / np_cos a ** lit 2
  | Exp => np_exp a
  | Log => lit 1 / a
  | Arcsin => lit 1 / np_sqrt (lit 1 - a ** lit 2)
  | Arccos => lit (-1) / np_sqrt (lit 1 - a ** lit 2)
  | Arctan => lit 1 / (lit 1 + a ** lit 2)
  | Sinh => np_cosh a
  | Cosh => np_sinh a
  | Tanh => lit 1 / np_cosh a ** lit 2
  | Logistic => np_exp a / (np_exp a + lit 1) ** lit 2
  | Sqrt => lit 1 / (lit 2 * np_sqrt a)
  end.

(** Calling a stored [backward_func].  The two statements of a binary
    rule run one after the other on the same store, so the second sees the
    first's write when [self] and [other] are one object. *)
Definition call_backward_func (c : closure) (h : list rNode) : list rNode :=
  match c with
  | no_op => h
  | bw_binary op self other res =>
      let h1 :=
        accumulate self (d_self op (val_of h self) (val_of h other) * der_of h res) h in
      accumulate other
        (d_other op (val_of h1 self) (val_of h1 other) * der_of h1 res) h1
  | bw_rpow other self res =>
      accumulate self (other ** val_of h self * np_log other * der_of h res) h
  | bw_unary f x res =>
      accumulate x (d_unary f (val_of h x) * der_of h res) h
  | bw_log_base base x res =>
      accumulate x (lit 1 / (val_of h x * np_log base) * der_of h res) h
  end.

End rNode.
Arguments rNode F : clear implicits.
Arguments rstate F : clear implicits.
Arguments closure F : clear implicits.
Arguments oper_tag F : clear implicits.

(* ================================================================= *)
(** ** State and exceptions *)

Section Monad.
Context {F : Type} `{PyNum F}.

(** A computation that may create nodes, bump [rNode.increment] and raise.
    The state survives an exception, as the interpreter's does. *)
Definition M (A : Type) : Type := rstate F -> result A * rstate F.

Definition ret {A} (a : A) : M A := fun st => (Ok a, st).
Definition raise {A} (e : exn) : M A := fun st => (Raise e, st).
Definition bind {A B} (m : M A) (k : A -> M B) : M B :=
  fun st =>
    match m st with
    | (Ok a, st') => k a st'
    | (Raise e, st') => (Raise e, st')
    end.
Definition lift {A} (r : result A) : M A := fun st => (r, st).
Definition get_heap : M (list (rNode F)) := fun st => (Ok (heap st), st).
Definition new_rNode (v : F) (ps : list nat) (op : oper_tag F) : M nat :=
  fun st => let '(x, st') := rNode_init v ps op st in (Ok x, st').
Definition set_rule (x : nat) (c : closure F) : M unit :=
  fun st => (Ok tt, assign_backward_func x c st).
Definition reset_increment : M unit :=
  fun st => (Ok tt, mk_rstate (heap st) 0).

End Monad.
Arguments M F A : clear implicits.

Notation "'let*' x ':=' c 'in' k" := (bind c (fun x => k))
  (at level 10, x name, c at level 100, k at level 200).
Notation "'run' c 'in' k" := (bind c (fun _ => k))
  (at level 10, c at level 100, k at level 200).

(* ================================================================= *)
(** ** rNode.py: the overloaded operators *)

Section rNodeOperators.
Context {F : Type} `{PyNum F}.
Local Open Scope num_scope.

(** The second operand of an overloaded operator of [rNode]. *)
Inductive node_operand :=
| NScalar (c : F)
| NNode (x : nat)
| NUnsupported.

(** The value of the result node of each binary operator. *)
Definition binop_val (op : binop) (s o : F) : F :=
  match op with
  | Add => s + o
  | Sub => s - o
  | RSub => o - s
  | Mul => s * o
  | Pow => s ** o
  | TrueDiv => s / o
  | RTrueDiv => o / s
  end.

Definition binop_tag (op : binop) : oper_tag F :=
  match op with
  | Add => OpStr "+"
  | Sub | RSub => OpStr "-"
  | Mul => OpStr "x"
  | Pow => OpStr "^"
  | TrueDiv | RTrueDiv => OpStr "/"
  end.

(** The common tail of the binary operators once [other] is a node:
    [res = rNode(..., (self, other), tag)], then the closure is stored. *)
Definition make_binary (op : binop) (self other : nat) : M F nat :=
  let* h := get_heap in
  let* res := new_rNode (binop_val op (val_of h self) (val_of h other))
                        [self; other] (binop_tag op) in
  run set_rule res (bw_binary op self other res) in
  ret res.

(** Operators that accept a scalar or a node:
    [if isinstance(other, (int, float)): other = rNode(other)]. *)
Definition coercing_binary (op : binop) (self : nat) (other : node_operand) : M F nat :=
  match other with
  | NUnsupported => raise TypeError
  | NScalar c =>
      let* o := new_rNode c [] (OpStr "") in
      make_binary op self o
  | NNode o => make_binary op self o
  end.

(** Reflected operators that accept a scalar only and always wrap it. *)
Definition scalar_only_binary (op : binop) (self : nat) (other : node_operand) : M F nat :=
  match other with
  | NScalar c =>
      let* o := new_rNode c [] (OpStr "") in
      make_binary op self o
  | _ => raise TypeError
  end.

Definition rNode_add := coercing_binary Add.
Definition rNode_radd (self : nat) (other : node_operand) : M F nat :=
  rNode_add self other.
Definition rNode_sub := coercing_binary Sub.
Definition rNode_rsub := scalar_only_binary RSub.
Definition rNode_mul := coercing_binary Mul.
Definition rNode_rmul (self : nat) (other : node_operand) : M F nat :=
  rNode_mul self other.
Definition rNode_neg (self : nat) : M F nat :=
  rNode_mul self (NScalar (lit (-1))).
Definition rNode_pow := coercing_binary Pow.
Definition rNode_truediv := coercing_binary TrueDiv.
Definition rNode_rtruediv := scalar_only_binary RTrueDiv.

(** [__rpow__] does not wrap the base: the result has [self] as its only
    parent and the base is captured by the closure as a number. *)
Definition rNode_rpow (self : nat) (other : node_operand) : M F nat :=
  match other with
  | NScalar c =>
      let* h := get_heap in
      let* res := new_rNode (c ** val_of h self) [self] (OpRPow c) in
      run set_rule res (bw_rpow c self res) in
      ret res
  | _ => raise TypeError
  end.

(** The operators that wrap a bare number in a node of its own, with the
    rule each one stores. *)
Definition scalar_wrapping_operators : list (binop * (nat -> node_operand -> M F nat)) :=
  [(Add, rNode_add); (Add, rNode_radd); (Sub, rNode_sub); (RSub, rNode_rsub);
   (Mul, rNode_mul); (Mul, rNode_rmul); (TrueDiv, rNode_truediv);
   (RTrueDiv, rNode_rtruediv); (Pow, rNode_pow)].

(* ----------------------------------------------------------------- *)
(** *** Traversals *)

(** A [for] loop whose body may run out of recursion depth. *)
Fixpoint for_each {S : Type} (body : nat -> S -> option S) (xs : list nat) (s : S)
  : option S :=
  match xs with
  | [] => Some s
  | x :: xs' =>
      match body x s with
      | Some s' => for_each body xs' s'
      | None => None
      end
  end.

(** The inner function [toposort] of [_sort_nodes].  The pair is
    [(visited_nodes, topo_sorted)]; [depth] bounds the recursion depth.
    A set is iterated in the order of [elements]. *)
Fixpoint toposort (depth : nat) (h : list (rNode F)) (node : nat)
    (s : gset nat * list nat) : option (gset nat * list nat) :=
  match depth with
  | O => None
  | S depth' =>
      if decide (node ∈ s.1) then Some s
      else
        match for_each (toposort depth' h) (elements (parents_of h node))
                       ({[node]} ∪ s.1, s.2) with
        | Some s' => Some (s'.1, s'.2 ++ [node])
        | None => None
        end
  end.

Definition _sort_nodes (h : list (rNode F)) (self : nat) : option (list nat) :=
  snd <$> toposort (S (length h)) h self (∅, []).

(** The inner function [build] of [graph_object]; the pair is
    [(nodes, edges)]. *)
Fixpoint build (depth : nat) (h : list (rNode F)) (node : nat)
    (s : gset nat * gset (nat * nat)) : option (gset nat * gset (nat * nat)) :=
  match depth with
  | O => None
  | S depth' =>
      if decide (node ∈ s.1) then Some s
      else
        for_each (fun parent s => build depth' h parent (s.1, {[(parent, node)]} ∪ s.2))
                 (elements (parents_of h node))
                 ({[node]} ∪ s.1, s.2)
  end.

Definition graph_object (h : list (rNode F)) (self : nat)
  : option (gset nat * gset (nat * nat)) :=
  build (S (length h)) h self (∅, ∅).

(* ----------------------------------------------------------------- *)
(** *** The backward pass *)

(** [for node in topo_order: node.der = 0] *)
Definition zero_adjoints (topo_order : list nat) (h : list (rNode F)) : list (rNode F) :=
  foldl (fun h node => write_der node (lit 0) h) h topo_order.

(** One iteration of the loop over [reversed(topo_order)]. *)
Definition backward_step (num_inputs : nat) (s : list F * list (rNode F)) (node : nat)
  : list F * list (rNode F) :=
  let '(jacobian_row, h) := s in
  let jacobian_row' :=
    if decide (name_of h node < num_inputs)%nat
    then <[name_of h node := der_of h node]> jacobian_row
    else jacobian_row in
  (jacobian_row', call_backward_func (backward_func_of h node) h).

Definition backward (self : nat) (num_inputs : nat) (h : list (rNode F))
  : option (list F * list (rNode F)) :=
  match _sort_nodes h self with
  | None => None
  | Some topo_order =>
      let h1 := zero_adjoints topo_order h in
      let h2 := write_der self (lit 1) h1 in
      let jacobian_row := replicate num_inputs (lit 0) in
      Some (foldl (backward_step num_inputs) (jacobian_row, h2) (reverse topo_order))
  end.

End rNodeOperators.
Arguments node_operand F : clear implicits.

(* ================================================================= *)
(** ** operators.py *)

(** A value a user function computes with: a plain number, a dual number,
    a reference to a graph node, or an object of some other type. *)
Inductive pyval (F : Type) :=
| VNum (c : F)
| VDual (z : DualNumber F)
| VNode (x : nat)
| VOther.
Arguments VNum {F} c.
Arguments VDual {F} z.
Arguments VNode {F} x.
Arguments VOther {F}.

Module operators.
Section operators.
Context {F : Type} `{PyNum F}.
Local Open Scope num_scope.

(** The guard in front of [raise ValueError(...)] in each function; the
    same test is applied to [x], [x.val] and [x.real]. *)
Definition domain_guard (f : unop) (a : F) : bool :=
  match f with
  | Log => bool_decide (a <= lit 0)
  | Arcsin | Arccos => bool_decide (a < lit (-1)) || bool_decide (a > lit 1)
  | Sqrt => bool_decide (a < lit 0)
  | _ => false
  end.

(** The value each function computes from the real part. *)
Definition np_value (f : unop) (a : F) : F :=
  match f with
  | Sin => np_sin a
  | Cos => np_cos a
  | Tan => np_tan a
  | Exp => np_exp a
  | Log => np_log a
  | Arcsin => np_arcsin a
  | Arccos => np_arccos a
  | Arctan => np_arctan a
  | Sinh => np_sinh a
  | Cosh => np_cosh a
  | Tanh => np_tanh a
  | Logistic => lit 1 / (lit 1 + np_exp (- a))
  | Sqrt => np_sqrt a
  end.

(** The dual part of the [DualNumber] branch of each function. *)
Definition dual_part (f : unop) (z : DualNumber F) : F :=
  match f with
  | Sin => dual z * np_cos (real z)
  | Cos => - dual z * np_sin (real z)
  | Tan => dual z / np_cos (real z) ** lit 2
  | Exp => dual z * np_exp (real z)
  | Log => dual z / real z
  | Arcsin => dual z / np_sqrt (lit 1 - real z ** lit 2)
  | Arccos => - dual z / np_sqrt (lit 1 - real z ** lit 2)
  | Arctan => dual z / (lit 1 + real z ** lit 2)
  | Sinh => dual z * np_cosh (real z)
  | Cosh => dual z * np_sinh (real z)
  | Tanh => dual z / np_cosh (real z) ** lit 2
  | Logistic => dual z * np_exp (real z) / (np_exp (real z) + lit 1) ** lit 2
  | Sqrt => dual z / (lit 2 * np_sqrt (real z))
  end.

Definition unop_name (f : unop) : string :=
  match f with
  | Sin => "sin" | Cos => "cos" | Tan => "tan" | Exp => "exp" | Log => "log"
  | Arcsin => "arcsin" | Arccos => "arccos" | Arctan => "arctan"
  | Sinh => "sinh" | Cosh => "cosh" | Tanh => "tanh"
  | Logistic => "logistic" | Sqrt => "sqrt"
  end.

Definition domain_msg (f : unop) : string :=
  match f with
  | Log => log_domain_msg
  | Sqrt => sqrt_domain_msg
  | _ => arc_domain_msg
  end.

(** The body shared by the thirteen functions of one argument: reject
    other types, then dispatch on the representation of [x]. *)
Definition elementary (f : unop) (x : pyval F) : M F (pyval F) :=
  match x with
  | VOther => raise TypeError
  | VNum c =>
      if domain_guard f c then raise (ValueError (domain_msg f))
      else ret (VNum (np_value f c))
  | VNode n =>
      let* h := get_heap in
      if domain_guard f (val_of h n) then raise (ValueError (domain_msg f))
      else
        let* res := new_rNode (np_value f (val_of h n)) [n] (OpStr (unop_name f)) in
        run set_rule res (bw_unary f n res) in
        ret (VNode res)
  | VDual z =>
      if domain_guard f (real z) then raise (ValueError (domain_msg f))
      else ret (VDual (mkDual (np_value f (real z)) (dual_part f z)))
  end.

Definition sin := elementary Sin.
Definition cos := elementary Cos.
Definition tan := elementary Tan.
Definition exp := elementary Exp.
Definition log := elementary Log.
Definition arcsin := elementary Arcsin.
Definition arccos := elementary Arccos.
Definition arctan := elementary Arctan.
Definition sinh := elementary Sinh.
Definition cosh := elementary Cosh.
Definition tanh := elementary Tanh.
Definition logistic := elementary Logistic.
Definition sqrt := elementary Sqrt.

(** [log_base(x, base)]; [base] is a number or an object of another type
    ([None] here). *)
Definition log_base (x : pyval F) (base : option F) : M F (pyval F) :=
  match x with
  | VOther => raise TypeError
  | _ =>
    match base with
    | None => raise TypeError
    | Some b =>
      match x with
      | VOther => raise TypeError
      | VNum c =>
          if bool_decide (c <= lit 0) then raise (ValueError log_domain_msg)
          else ret (VNum (np_log c / np_log b))
      | VNode n =>
          let* h := get_heap in
          if bool_decide (val_of h n <= lit 0) then raise (ValueError log_domain_msg)
          else
            let* res := new_rNode (np_log (val_of h n) / np_log b) [n] (OpLogBase b) in
            run set_rule res (bw_log_base b n res) in
            ret (VNode res)
      | VDual z =>
          if bool_decide (real z <= lit 0) then raise (ValueError log_domain_msg)
          else ret (VDual (mkDual (np_log (real z) / np_log b)
                                  (dual z / (np_log b * real z))))
      end
    end
  end.

End operators.
End operators.

(* ================================================================= *)
(** ** User functions *)

(** The functions handed to [Func] are Python callables written with the
    overloaded arithmetic operators and the functions of operators.py.
    They are represented by their syntax; running one on numbers, dual
    numbers or nodes goes through the operators modelled above, with
    Python's dispatch rules. *)

Inductive arith := OpAdd | OpSub | OpMul | OpDiv | OpPow.

#[global] Instance arith_eq_dec : EqDecision arith.
Proof. solve_decision. Defined.

Inductive expr (F : Type) :=
| Var (i : nat)
| Lit (c : F)
| Neg (e : expr F)
| Bin (op : arith) (e1 e2 : expr F)
| App (f : unop) (e : expr F)
| AppLogBase (e : expr F) (base : F).
Arguments Var {F} i.
Arguments Lit {F} c.
Arguments Neg {F} e.
Arguments Bin {F} op e1 e2.
Arguments App {F} f e.
Arguments AppLogBase {F} e base.

(** A function body: local assignments, then one returned expression or a
    tuple of them.  The parameters are variables [0 .. nparams-1]; every
    assignment introduces the next variable. *)
Inductive stmt (F : Type) :=
| Assign (e : expr F) (rest : stmt F)
| Return (e : expr F)
| ReturnTuple (es : list (expr F)).
Arguments Assign {F} e rest.
Arguments Return {F} e.
Arguments ReturnTuple {F} es.

Record pyfunc (F : Type) := mk_pyfunc {
  nparams : nat;
  body : stmt F
}.
Arguments mk_pyfunc {F} nparams body.
Arguments nparams {F} p.
Arguments body {F} p.

(** What a call returns: one value or a tuple. *)
Inductive pyobj (F : Type) :=
| Single (v : pyval F)
| Tuple (vs : list (pyval F)).
Arguments Single {F} v.
Arguments Tuple {F} vs.

Section Interp.
Context {F : Type} `{PyNum F}.
Local Open Scope num_scope.

Definition arith_num (op : arith) (a b : F) : F :=
  match op with
  | OpAdd => a + b
  | OpSub => a - b
  | OpMul => a * b
  | OpDiv => a / b
  | OpPow => a ** b
  end.

Definition as_dual_operand (v : pyval F) : dual_operand F :=
  match v with
  | VNum c => DScalar c
  | VDual w => DDual w
  | _ => DUnsupported
  end.

Definition as_node_operand (v : pyval F) : node_operand F :=
  match v with
  | VNum c => NScalar c
  | VNode x => NNode x
  | _ => NUnsupported
  end.

Definition Dual_method (op : arith) : DualNumber F -> dual_operand F -> result (DualNumber F) :=
  match op with
  | OpAdd => Dual_add
  | OpSub => Dual_sub
  | OpMul => Dual_mul
  | OpDiv => Dual_truediv
  | OpPow => Dual_pow
  end.

Definition Dual_rmethod (op : arith) : DualNumber F -> dual_operand F -> result (DualNumber F) :=
  match op with
  | OpAdd => Dual_radd
  | OpSub => Dual_rsub
  | OpMul => Dual_rmul
  | OpDiv => Dual_rtruediv
  | OpPow => Dual_rpow
  end.

Definition rNode_method (op : arith) : nat -> node_operand F -> M F nat :=
  match op with
  | OpAdd => rNode_add
  | OpSub => rNode_sub
  | OpMul => rNode_mul
  | OpDiv => rNode_truediv
  | OpPow => rNode_pow
  end.

Definition rNode_rmethod (op : arith) : nat -> node_operand F -> M F nat :=
  match op with
  | OpAdd => rNode_radd
  | OpSub => rNode_rsub
  | OpMul => rNode_rmul
  | OpDiv => rNode_rtruediv
  | OpPow => rNode_rpow
  end.

(** The node operator behind each arithmetic operator, for a node on the
    left and for a node on the right of a bare number. *)
Definition node_op (op : arith) : binop :=
  match op with
  | OpAdd => Add | OpSub => Sub | OpMul => Mul | OpDiv => TrueDiv | OpPow => Pow
  end.

Definition node_rop (op : arith) : binop :=
  match op with
  | OpAdd => Add | OpSub => RSub | OpMul => Mul | OpDiv => RTrueDiv | OpPow => Pow
  end.

(** [a op b]: the left operand's method runs first; a plain number on the
    left defers to the right operand's reflected method. *)
Definition apply_arith (op : arith) (a b : pyval F) : M F (pyval F) :=
  match a, b with
  | VNum x, VNum y => ret (VNum (arith_num op x y))
  | VDual z, VNode x =>
      match op with
      | OpSub => run rNode_mul x (NScalar (lit (-1))) in raise TypeError
      | _ => raise TypeError
      end
  | VDual z, _ =>
      let* r := lift (Dual_method op z (as_dual_operand b)) in ret (VDual r)
  | VNum x, VDual z =>
      let* r := lift (Dual_rmethod op z (DScalar x)) in ret (VDual r)
  | VNode x, _ =>
      let* r := rNode_method op x (as_node_operand b) in ret (VNode r)
  | VNum x, VNode y =>
      let* r := rNode_rmethod op y (NScalar x) in ret (VNode r)
  | _, _ => raise TypeError
  end.

Definition apply_neg (a : pyval F) : M F (pyval F) :=
  match a with
  | VNum x => ret (VNum (- x))
  | VDual z => ret (VDual (Dual_neg z))
  | VNode x => let* r := rNode_neg x in ret (VNode r)
  | VOther => raise TypeError
  end.

Fixpoint eval (e : expr F) (env : list (pyval F)) : M F (pyval F) :=
  match e with
  | Var i =>
      match env !! i with
      | Some v => ret v
      | None => raise NameError
      end
  | Lit c => ret (VNum c)
  | Neg e1 => let* a := eval e1 env in apply_neg a
  | Bin op e1 e2 =>
      let* a := eval e1 env in
      let* b := eval e2 env in
      apply_arith op a b
  | App f e1 => let* a := eval e1 env in operators.elementary f a
  | AppLogBase e1 base => let* a := eval e1 env in operators.log_base a (Some base)
  end.

Fixpoint eval_tuple (es : list (expr F)) (env : list (pyval F)) : M F (list (pyval F)) :=
  match es with
  | [] => ret []
  | e :: es' =>
      let* v := eval e env in
      let* vs := eval_tuple es' env in
      ret (v :: vs)
  end.

Fixpoint exec (s : stmt F) (env : list (pyval F)) : M F (pyobj F) :=
  match s with
  | Assign e rest => let* v := eval e env in exec rest (env ++ [v])
  | Return e => let* v := eval e env in ret (Single v)
  | ReturnTuple es => let* vs := eval_tuple es env in ret (Tuple vs)
  end.

(** Calling [f] with the unpacked argument list. *)
Definition call (f : pyfunc F) (args : list (pyval F)) : M F (pyobj F) :=
  if decide (length args = nparams f) then exec (body f) args
  else raise TypeError.

End Interp.

(* ================================================================= *)
(** ** func.py *)

(** The [point] and [seed_vector] arguments as the methods inspect them:
    a bare int or float, a list or numpy array, or anything else. *)
Inductive py_arg (F : Type) :=
| ArgScalar (c : F)
| ArgList (l : list (pyval F))
| ArgOther.
Arguments ArgScalar {F} c.
Arguments ArgList {F} l.
Arguments ArgOther {F}.

(** What [__call__] returns: the function's own result, or [np.array] of
    it. *)
Inductive call_result (F : Type) :=
| Unchanged (o : pyobj F)
| NpArray (o : pyobj F).
Arguments Unchanged {F} o.
Arguments NpArray {F} o.

(** The [val] that [_forward] and [_reverse] return: a numpy array, or the
    bare [res.val] of the scalar branch of [_reverse]. *)
Inductive np_val (F : Type) :=
| ValArray (l : list F)
| ValScalar (c : F).
Arguments ValArray {F} l.
Arguments ValScalar {F} c.

(** The four shapes [jacobian] returns. *)
Inductive jacobian_result (F : Type) :=
| JacScalar (j : F)
| JacMatrix (m : list (list F))
| ValJacScalar (v : np_val F) (j : F)
| ValJacMatrix (v : np_val F) (m : list (list F)).
Arguments JacScalar {F} j.
Arguments JacMatrix {F} m.
Arguments ValJacScalar {F} v j.
Arguments ValJacMatrix {F} v m.

Section Func.
Context {F : Type} `{PyNum F}.
Local Open Scope num_scope.

Record Func := mk_Func {
  func : pyfunc F;
  num_inputs : nat;
  num_outputs : nat
}.

(** [Func.__init__]; the asserted [isinstance(_, int)] is the type of the
    arguments here. *)
Definition Func_init (function : pyfunc F) (n_in n_out : Z) : result Func :=
  if decide (0 < n_in)%Z then
    if decide (0 < n_out)%Z then Ok (mk_Func function (Z.to_nat n_in) (Z.to_nat n_out))
    else Raise AssertionError
  else Raise AssertionError.

(** A monadic [for] loop. *)
Fixpoint for_loop {A S : Type} (body : A -> S -> M F S) (xs : list A) (s : S) : M F S :=
  match xs with
  | [] => ret s
  | x :: xs' => let* s' := body x s in for_loop body xs' s'
  end.

(** The start of every public method:
    [if isinstance(point, (int, float)): point = [point]], then the
    [assert isinstance(point, (list, np.ndarray))]. *)
Definition promote_point (point : py_arg F) : result (list (pyval F)) :=
  match point with
  | ArgScalar c => Ok [VNum c]
  | ArgList l => Ok l
  | ArgOther => Raise AssertionError
  end.

Definition Func_call (self : Func) (point : py_arg F) : M F (call_result F) :=
  let* point := lift (promote_point point) in
  if decide (length point ≠ num_inputs self) then raise (ValueError point_dimension_msg)
  else
    if decide (num_outputs self = 1%nat) then
      let* r := call (func self) point in ret (Unchanged r)
    else
      let* r := call (func self) point in ret (NpArray r).

(** [np.zeros((rows, cols))] and [np.identity(n)]. *)
Definition np_zeros (n : nat) : list F := replicate n (lit 0).
Definition np_zeros2 (rows cols : nat) : list (list F) := replicate rows (np_zeros cols).
Definition np_identity (n : nat) : list (list F) :=
  (fun i => <[i := lit 1]> (np_zeros n)) <$> seq 0 n.

(** [m[:, i]] read, [m[:, i] = d] and [m[:, i][k] = d]. *)
Definition column (m : list (list F)) (i : nat) : list F :=
  (fun row => default (lit 0) (row !! i)) <$> m.
Definition set_column (i : nat) (d : F) (m : list (list F)) : list (list F) :=
  (fun row => <[i := d]> row) <$> m.
Definition set_entry (k i : nat) (d : F) (m : list (list F)) : list (list F) :=
  alter (fun row => <[i := d]> row) k m.

(** The inner loop of [_forward] that builds [zs]. *)
Definition seed_duals (n : nat) (point : list (pyval F)) (seed_vector : list F)
  : M F (list (pyval F)) :=
  for_loop
    (fun j zs =>
       match point !! j with
       | Some (VNum c) =>
           ret (zs ++ [VDual (mkDual c (default (lit 0) (seed_vector !! j)))])
       | Some _ => raise AssertionError
       | None => raise IndexError
       end)
    (seq 0 n) [].

(** Reading [res[k].dual] and [res[k].real]. *)
Definition dual_at (res : list (pyval F)) (k : nat) : M F (DualNumber F) :=
  match res !! k with
  | Some (VDual d) => ret d
  | Some _ => raise AttributeError
  | None => raise IndexError
  end.

Definition _forward (self : Func) (point : list (pyval F))
  : M F (list F * list (list F)) :=
  let jacobian := np_zeros2 (num_outputs self) (num_inputs self) in
  let identity := np_identity (num_inputs self) in
  let val := np_zeros (num_outputs self) in
  for_loop
    (fun i '(val, jacobian) =>
       let seed_vector := column identity i in
       let* zs := seed_duals (num_inputs self) point seed_vector in
       let* res := call (func self) zs in
       match res with
       | Single (VDual d) =>
           if decide (num_outputs self = 1%nat)
           then ret (<[0%nat := real d]> val, set_column i (dual d) jacobian)
           else raise AssertionError
       | Single _ => raise TypeError
       | Tuple vs =>
           if decide (length vs = num_outputs self) then
             for_loop
               (fun k '(val, jacobian) =>
                  let* d := dual_at vs k in
                  ret (<[k := real d]> val, set_entry k i (dual d) jacobian))
               (seq 0 (num_outputs self)) (val, jacobian)
           else raise AssertionError
       end)
    (seq 0 (num_inputs self)) (val, jacobian).

(** [node.backward(num_inputs)] as a step of the computation; running out
    of recursion depth surfaces as Python's [RecursionError]. *)
Definition backward_m (node : nat) (n : nat) : M F (list F) :=
  fun st =>
    match backward node n (heap st) with
    | Some (row, h') => (Ok row, mk_rstate h' (increment st))
    | None => (Raise RecursionError, st)
    end.

(** The loop of [_reverse] that wraps the coordinates of [point]. *)
Definition wrap_input (p : pyval F) (zs : list (pyval F)) : M F (list (pyval F)) :=
  match p with
  | VNum c => let* z := new_rNode c [] (OpStr "") in ret (zs ++ [VNode z])
  | _ => raise AssertionError
  end.

Definition wrap_inputs (point : list (pyval F)) : M F (list (pyval F)) :=
  for_loop wrap_input point [].

(** The two branches of [_reverse] after the function has returned: one
    backward pass per output. *)
Definition backward_rows (self : Func) (res : pyobj F)
  : M F (np_val F * list (list F)) :=
  let jacobian := np_zeros2 (num_outputs self) (num_inputs self) in
  let val := np_zeros (num_outputs self) in
  match res with
  | Single (VNode r) =>
      if decide (num_outputs self = 1%nat) then
        let* row := backward_m r (num_inputs self) in
        let* h := get_heap in
        ret (ValScalar (val_of h r), <[0%nat := row]> jacobian)
      else raise AssertionError
  | Single _ => raise TypeError
  | Tuple vs =>
      if decide (length vs = num_outputs self) then
        let* r :=
          for_loop
            (fun '(i, node) '(val, jacobian) =>
               match node with
               | VNode x =>
                   let* row := backward_m x (num_inputs self) in
                   let* h := get_heap in
                   ret (<[i := val_of h x]> val, <[i := row]> jacobian)
               | _ => raise AttributeError
               end)
            (imap pair vs) (val, jacobian) in
        ret (ValArray r.1, r.2)
      else raise AssertionError
  end.

Definition _reverse (self : Func) (point : list (pyval F))
  : M F (np_val F * list (list F)) :=
  run reset_increment in
  let* zs := wrap_inputs point in
  let* res := call (func self) zs in
  backward_rows self res.

Definition Func_jacobian (self : Func) (point : py_arg F) (feval reverse : bool)
  : M F (jacobian_result F) :=
  let* point := lift (promote_point point) in
  if decide (length point ≠ num_inputs self) then raise (ValueError point_dimension_msg)
  else
    let* r :=
      if negb reverse
      then let* r := _forward self point in ret (ValArray r.1, r.2)
      else _reverse self point in
    let '(val, jacobian) := r in
    let is_1x1 := bool_decide (num_outputs self = 1%nat ∧ num_inputs self = 1%nat) in
    let j00 := default (lit 0) (jacobian !! 0%nat ≫= (.!! 0%nat)) in
    if feval then
      if is_1x1 then ret (ValJacScalar val j00) else ret (ValJacMatrix val jacobian)
    else
      if is_1x1 then ret (JacScalar j00) else ret (JacMatrix jacobian).

(** The [DualNumber(point[j], seed_vector[j])] of [trace], with the
    constructor's type checks. *)
Definition trace_dual (point seed_vector : list (pyval F)) (j : nat) : M F (pyval F) :=
  match point !! j, seed_vector !! j with
  | Some (VNum c), Some (VNum d) => ret (VDual (mkDual c d))
  | Some _, Some _ => raise TypeError
  | _, _ => raise IndexError
  end.

Definition Func_trace (self : Func) (point seed_vector : py_arg F)
  : M F (list F * list F) :=
  let* point := lift (promote_point point) in
  match seed_vector with
  | ArgList seed_vector =>
      if decide (length point ≠ num_inputs self)
      then raise (ValueError point_dimension_msg)
      else if decide (length point ≠ length seed_vector)
      then raise (ValueError seed_dimension_msg)
      else
        let* zs :=
          for_loop
            (fun j zs => let* z := trace_dual point seed_vector j in ret (zs ++ [z]))
            (seq 0 (num_inputs self)) [] in
        let* res := call (func self) zs in
        let val := np_zeros (num_outputs self) in
        let deriv := np_zeros (num_outputs self) in
        match res with
        | Single (VDual d) =>
            if decide (num_outputs self = 1%nat)
            then ret (<[0%nat := real d]> val, <[0%nat := dual d]> deriv)
            else raise AssertionError
        | Single _ => raise TypeError
        | Tuple vs =>
            if decide (length vs = num_outputs self) then
              for_loop
                (fun k '(val, deriv) =>
                   let* d := dual_at vs k in
                   ret (<[k := real d]> val, <[k := dual d]> deriv))
                (seq 0 (num_outputs self)) (val, deriv)
            else raise AssertionError
        end
  | _ => raise AssertionError
  end.

(** [graph] up to the hand-over to the renderer: the node and edge sets of
    [graph_object] and the requested direction. *)
Definition Func_graph (self : Func) (point : py_arg F) (graph_direction : string)
  : M F (gset nat * gset (nat * nat) * string) :=
  if decide (num_outputs self = 1%nat) then
    if decide (graph_direction = "LR"%string ∨ graph_direction = "TB"%string) then
      let* point := lift (promote_point point) in
      if decide (length point ≠ num_inputs self) then raise (ValueError point_dimension_msg)
      else
        let* zs := wrap_inputs point in
        let* res := call (func self) zs in
        match res with
        | Single (VNode r) =>
            let* h := get_heap in
            match graph_object h r with
            | Some g => ret (g, graph_direction)
            | None => raise RecursionError
            end
        | _ => raise AssertionError
        end
    else raise AssertionError
  else raise AssertionError.

End Func.
Arguments Func F : clear implicits.

(** The loops of [_forward] and [_reverse] by name, and what the code
    makes of the result of the function. *)
Section FuncLoops.
Context {F : Type} `{PyNum F}.

(** The body of the loop over [range(self.num_outputs)] in [_forward]. *)
Definition read_outputs (vs : list (pyval F)) (i k : nat) (s : list F * list (list F))
  : M F (list F * list (list F)) :=
  let '(val, jacobian) := s in
  let* d := dual_at vs k in
  ret (<[k := real d]> val, set_entry k i (dual d) jacobian).

(** The body of the loop over [range(self.num_inputs)] in [_forward]. *)
Definition forward_step (self : Func F) (point : list (pyval F)) (i : nat)
    (s : list F * list (list F)) : M F (list F * list (list F)) :=
  let '(val, jacobian) := s in
  let seed_vector := column (np_identity (num_inputs self)) i in
  let* zs := seed_duals (num_inputs self) point seed_vector in
  let* res := call (func self) zs in
  match res with
  | Single (VDual d) =>
      if decide (num_outputs self = 1%nat)
      then ret (<[0%nat := real d]> val, set_column i (dual d) jacobian)
      else raise AssertionError
  | Single _ => raise TypeError
  | Tuple vs =>
      if decide (length vs = num_outputs self) then
        for_loop (read_outputs vs i) (seq 0 (num_outputs self)) (val, jacobian)
      else raise AssertionError
  end.

(** The body of the loop over [enumerate(res)] in [_reverse]. *)
Definition reverse_step (self : Func F) (x : nat * pyval F)
  : list F * list (list F) -> M F (list F * list (list F)) :=
  let '(i, node) := x in
  fun '(val, jacobian) =>
  match node with
  | VNode x =>
      let* row := backward_m x (num_inputs self) in
      let* h := get_heap in
      ret (<[i := val_of h x]> val, <[i := row]> jacobian)
  | _ => raise AttributeError
  end.

(** The body of the loop over [range(self.num_outputs)] in [trace]. *)
Definition trace_outputs (vs : list (pyval F)) (k : nat) (s : list F * list F)
  : M F (list F * list F) :=
  let '(val, deriv) := s in
  let* d := dual_at vs k in
  ret (<[k := real d]> val, <[k := dual d]> deriv).

(** The entry of an array at a row and a column. *)
Definition entry_of (m : list (list F)) (r c : nat) : F :=
  default (lit 0) (m !! r ≫= (.!! c)).

(** The dual parts of the components of a result. *)
Definition dual_parts (res : pyobj F) : list F :=
  match res with
  | Single (VDual d) => [dual d]
  | Single _ => []
  | Tuple vs => (fun v => match v with VDual d => dual d | _ => lit 0 end) <$> vs
  end.

(** The real parts of the components of a result. *)
Definition real_parts (res : pyobj F) : list F :=
  match res with
  | Single (VDual d) => [real d]
  | Single _ => []
  | Tuple vs => (fun v => match v with VDual d => real d | _ => lit 0 end) <$> vs
  end.

(** A value of a run on plain numbers against the value of a run on
    dual numbers at the same place: the same number, or a dual number
    with that real part. *)
Definition same_real (vn vd : pyval F) : Prop :=
  match vn, vd with
  | VNum c, VNum c' => c = c'
  | VNum c, VDual z => c = real z
  | _, _ => False
  end.

Definition same_real_obj (on od : pyobj F) : Prop :=
  match on, od with
  | Single a, Single b => same_real a b
  | Tuple vn, Tuple vd => Forall2 same_real vn vd
  | _, _ => False
  end.

Definition is_dualb (v : pyval F) : bool :=
  match v with VDual _ => true | _ => false end.

Definition is_nodeb (v : pyval F) : bool :=
  match v with VNode _ => true | _ => false end.

(** The exception with which [_forward], [_reverse] and [trace] answer a
    result of the function they cannot use, for a function declared with
    [m] outputs; [accepts] tells the representation the mode works
    with. *)
Definition result_error (m : nat) (accepts : pyval F -> bool) (res : pyobj F)
  : option exn :=
  match res with
  | Single v =>
      if accepts v then (if decide (m = 1%nat) then None else Some AssertionError)
      else Some TypeError
  | Tuple vs =>
      if decide (length vs = m) then
        (if forallb accepts vs then None else Some AttributeError)
      else Some AssertionError
  end.

End FuncLoops.

(* ================================================================= *)
(** ** The real numbers as Python numbers *)

Module RealNum.

(** [a ** b] on the reals: the usual power for a positive base, the
    integer power for an integer exponent.  A negative base with a
    fractional exponent has no real value (Python answers with a complex
    number); the instance returns 0 there. *)
Definition Rpow (a b : R) : R :=
  if Rlt_dec 0 a then Rpower a b
  else if Req_dec_T b (IZR (Int_part b)) then powerRZ a (Int_part b)
  else 0%R.

#[global] Instance R_le_dec : RelDecision Rle := Rle_dec.
#[global] Instance R_lt_dec : RelDecision Rlt := Rlt_dec.

#[global] Instance R_PyNum : PyNum R := {|
  lit := IZR;
  fadd := Rplus;
  fsub := Rminus;
  fmul := Rmult;
  fdiv := Rdiv;
  fpow := Rpow;
  fneg := Ropp;
  fle := Rle;
  flt := Rlt;
  np_sin := Rtrigo_def.sin;
  np_cos := Rtrigo_def.cos;
  np_tan := Rtrigo1.tan;
  np_exp := Rtrigo_def.exp;
  np_log := Rpower.ln;
  np_arcsin := Ratan.asin;
  np_arccos := Ratan.acos;
  np_arctan := Ratan.atan;
  np_sinh := Rtrigo_def.sinh;
  np_cosh := Rtrigo_def.cosh;
  np_tanh := Rtrigo_def.tanh;
  np_sqrt := R_sqrt.sqrt
|}.

#[global] Instance R_PyNumExact : PyNumExact R.
Proof.
  split; intros x; simpl; lra.
Qed.

End RealNum.

(** The points at which an elementary function has a derivative: the
    interior of the set its guard lets through, and for [tan] the points
    where the cosine is not 0. *)
Definition open_domain (f : unop) (a : R) : Prop :=
  match f with
  | Log | Sqrt => (0 < a)%R
  | Arcsin | Arccos => (-1 < a < 1)%R
  | Tan => Rtrigo_def.cos a ≠ 0%R
  | _ => True
  end.

(** The points at which a binary operator of [rNode] has both partial
    derivatives: a divisor is not 0 and the base of a power is
    positive. *)
Definition smooth_at (op : binop) (s o : R) : Prop :=
  match op with
  | TrueDiv => o ≠ 0%R
  | RTrueDiv => s ≠ 0%R
  | Pow => (0 < s)%R
  | _ => True
  end.

(** The real function that an expression in one variable denotes, and
    the points at which the operations it is built from have their
    derivatives: the variable is the parameter, every elementary function
    is applied inside its domain, every divisor is not 0 and every base
    of [**] is positive. *)
Fixpoint den (e : expr R) (x : R) : R :=
  match e with
  | Var _ => x
  | Lit c => c
  | Neg e1 => (- den e1 x)%R
  | Bin op e1 e2 => arith_num op (den e1 x) (den e2 x)
  | App f e1 => operators.np_value f (den e1 x)
  | AppLogBase e1 b => (ln (den e1 x) / ln b)%R
  end.

Fixpoint smooth (e : expr R) (x : R) : Prop :=
  match e with
  | Var i => i = 0%nat
  | Lit _ => True
  | Neg e1 => smooth e1 x
  | Bin op e1 e2 =>
      smooth e1 x ∧ smooth e2 x ∧ smooth_at (node_op op) (den e1 x) (den e2 x)
  | App f e1 => smooth e1 x ∧ open_domain f (den e1 x)
  | AppLogBase e1 b => smooth e1 x ∧ (0 < den e1 x)%R ∧ ln b ≠ 0%R
  end.

(** A value of the forward-mode run of [e] at [x] with seed 1: a number
    where [e] does not depend on the variable, a dual number otherwise;
    the real part is the value of [e] and the dual part its derivative. *)
Definition tracks (e : expr R) (x : R) (v : pyval R) : Prop :=
  match v with
  | VNum c => c = den e x ∧ derivable_pt_lim (den e) x 0%R
  | VDual z => real z = den e x ∧ derivable_pt_lim (den e) x (dual z)
  | _ => False
  end.

(* ================================================================= *)
(** ** Graphs that the operators can build *)

Section Graph.
Context {F : Type} `{PyNum F}.

(** A node is only ever combined from nodes that exist already, so every
    parent is an older object than its child. *)
Definition wf_heap (h : list (rNode F)) : Prop :=
  ∀ x p, p ∈ parents_of h x → p < x.

(** [y] is [x] or one of its ancestors. *)
Definition reachable (h : list (rNode F)) : relation nat :=
  rtc (fun a b => b ∈ parents_of h a).

(** [p] stands before [x] in [l]. *)
Definition before (l : list nat) (p x : nat) : Prop :=
  ∃ l1 l2, l = l1 ++ x :: l2 ∧ p ∈ l1.

(** The invariant of the traversal: finished nodes are visited, listed
    once, and listed after their parents. *)
Record topo_inv (h : list (rNode F)) (V : gset nat) (L : list nat) : Prop := {
  topo_nodup : NoDup L;
  topo_visited : ∀ x, x ∈ L → x ∈ V;
  topo_parents : ∀ x p, x ∈ L → p ∈ parents_of h x → before L p x
}.

(** The closure stored in node [x] reads the adjoint of [x] itself and
    pushes into the parents of [x]; a node without a closure of its own is
    a leaf. *)
Definition rule_ok (x : nat) (nd : rNode F) : Prop :=
  match backward_func nd with
  | no_op => parents nd = ∅
  | bw_binary _ s o r => r = x ∧ parents nd = list_to_set [s; o]
  | bw_rpow _ s r => r = x ∧ parents nd = list_to_set [s]
  | bw_unary _ a r => r = x ∧ parents nd = list_to_set [a]
  | bw_log_base _ a r => r = x ∧ parents nd = list_to_set [a]
  end.

Definition wf_rules (h : list (rNode F)) : Prop :=
  ∀ x nd, h !! x = Some nd → rule_ok x nd.

Definition wf_state (st : rstate F) : Prop :=
  wf_heap (heap st) ∧ wf_rules (heap st).

(** [st'] is [st] with further nodes created: old objects are untouched,
    and the new ones took consecutive values of the counter. *)
Definition appends (st st' : rstate F) : Prop :=
  ∃ new,
    heap st' = heap st ++ new
    ∧ increment st' = increment st + length new
    ∧ ∀ i nd, new !! i = Some nd → name nd = increment st + i.

(** A step of a computation that only creates well-formed nodes. *)
Definition steps (st st' : rstate F) : Prop :=
  appends st st' ∧ (wf_state st → wf_state st').

(** A value that is a node refers to an object of the store. *)
Definition val_ok (h : list (rNode F)) (v : pyval F) : Prop :=
  match v with
  | VNode x => x < length h
  | _ => True
  end.

Definition is_node (x : nat) (st : rstate F) : Prop := x < length (heap st).
Definition is_val (v : pyval F) (st : rstate F) : Prop := val_ok (heap st) v.

Definition env_ok (env : list (pyval F)) (st : rstate F) : Prop :=
  Forall (val_ok (heap st)) env.

Definition obj_ok (o : pyobj F) (st : rstate F) : Prop :=
  match o with
  | Single v => is_val v st
  | Tuple vs => env_ok vs st
  end.

(** The objects whose adjoint a closure writes. *)
Definition targets (c : closure F) : list nat :=
  match c with
  | no_op => []
  | bw_binary _ s o _ => [s; o]
  | bw_rpow _ s _ => [s]
  | bw_unary _ a _ => [a]
  | bw_log_base _ a _ => [a]
  end.

(** The walk over [reversed(topo_order)] in the words of the
    specification: a node whose creation index is below [num_inputs] has
    its current adjoint written into the row at that column, then its
    backward rule is invoked; for any other node only the rule is
    invoked. *)
Inductive walk (num_inputs : nat)
  : list nat → list F * list (rNode F) → list F * list (rNode F) → Prop :=
| walk_end s : walk num_inputs [] s s
| walk_input node rest row h s' :
    name_of h node < num_inputs →
    walk num_inputs rest
         (<[name_of h node := der_of h node]> row,
          call_backward_func (backward_func_of h node) h) s' →
    walk num_inputs (node :: rest) (row, h) s'
| walk_inner node rest row h s' :
    ¬ name_of h node < num_inputs →
    walk num_inputs rest (row, call_backward_func (backward_func_of h node) h) s' →
    walk num_inputs (node :: rest) (row, h) s'.

(** The real value of an argument of an elementary function: the number
    itself, [x.real] or [x.val]. *)
Definition real_value (h : list (rNode F)) (v : pyval F) : F :=
  match v with
  | VNum c => c
  | VDual z => real z
  | VNode n => val_of h n
  | VOther => lit 0
  end.

(** One of the three representations the operator library supports. *)
Definition supported (v : pyval F) : Prop := v ≠ VOther.

(** [r] is the outcome of a function that raises its domain error with
    message [msg] exactly when [bad] holds and returns normally
    otherwise. *)
Definition domain_checked {A} (r : result A) (msg : string) (bad : Prop) : Prop :=
  (r = Raise (ValueError msg) ↔ bad) ∧ (¬ bad → ∃ a, r = Ok a).

(** The two dimension errors of func.py. *)
Definition is_dimension_error (e : exn) : Prop :=
  e = ValueError point_dimension_msg ∨ e = ValueError seed_dimension_msg.

(** [m] never raises a dimension error. *)
Definition raises_plain {A} (m : M F A) : Prop :=
  ∀ st e, (m st).1 = Raise e → ¬ is_dimension_error e.

(** What [__call__] makes of the function's result. *)
Definition wrap_result (self : Func F) (r : pyobj F) : call_result F :=
  if decide (num_outputs self = 1) then Unchanged r else NpArray r.

(** The returned arity differs from the declared [num_outputs]. *)
Definition arity_mismatch (self : Func F) (res : pyobj F) : Prop :=
  match res with
  | Single _ => num_outputs self ≠ 1
  | Tuple vs => length vs ≠ num_outputs self
  end.

(** A result in the representation the mode works with. *)
Definition is_dual_result (res : pyobj F) : Prop :=
  match res with
  | Single (VDual _) | Tuple _ => True
  | Single _ => False
  end.

Definition is_node_result (res : pyobj F) : Prop :=
  match res with
  | Single (VNode _) | Tuple _ => True
  | Single _ => False
  end.

(** The list [zs] that [_forward] and [trace] build from the coordinates
    [cs] and the seed or direction [ds]. *)
Definition dual_inputs (cs ds : list F) : list (pyval F) :=
  (fun j => VDual (mkDual (default (lit 0) (cs !! j)) (default (lit 0) (ds !! j))))
    <$> seq 0 (length cs).

(** A test for [wf_heap] that can be run. *)
Definition wf_heapb (h : list (rNode F)) : bool :=
  forallb (fun x => forallb (fun p => p <? x) (elements (parents_of h x)))
          (seq 0 (length h)).

(** Two stores that differ in adjoints only. *)
Definition same_shape (h h' : list (rNode F)) : Prop :=
  set_der (lit 0) <$> h = set_der (lit 0) <$> h'.

(** [m] creates no node: it changes adjoints at most. *)
Definition keeps_shape {A} (m : M F A) : Prop :=
  ∀ st, same_shape (heap st) (heap (m st).2) ∧ increment (m st).2 = increment st.

Definition is_number (v : pyval F) : Prop := ∃ c, v = VNum c.

(** A value that is not a graph node. *)
Definition node_free (v : pyval F) : Prop :=
  match v with
  | VNode _ => False
  | _ => True
  end.

(** [m], started in [st], leaves the store and the counter as they are,
    and a normal result satisfies [P]. *)
Definition pure_at {A} (m : M F A) (st : rstate F) (P : A → Prop) : Prop :=
  (m st).2 = st ∧ ∀ a, (m st).1 = Ok a → P a.

(** An array of [rows] rows with [cols] entries each. *)
Definition matrix_shape (rows cols : nat) (m : list (list F)) : Prop :=
  length m = rows ∧ Forall (fun row => length row = cols) m.

(** Two stores of one shape whose adjoints agree on the nodes [l]. *)
Definition adjoints_agree (l : list nat) (h h' : list (rNode F)) : Prop :=
  same_shape h h' ∧ ∀ x, x ∈ l → der_of h x = der_of h' x.

(** The objects whose adjoint a closure reads or writes: its targets and
    the result node it was stored in. *)
Definition touches (c : closure F) : list nat :=
  match c with
  | no_op => []
  | bw_binary _ s o r => [s; o; r]
  | bw_rpow _ s r => [s; r]
  | bw_unary _ a r => [a; r]
  | bw_log_base _ a r => [a; r]
  end.

(** [m], started in [st], only creates well-formed nodes, and a normal
    result satisfies [P] in the final state. *)
Definition runs {A} (m : M F A) (st : rstate F) (P : A → rstate F → Prop) : Prop :=
  steps st (m st).2 ∧ ∀ a, (m st).1 = Ok a → P a (m st).2.

End Graph.

(* ================================================================= *)
(** ** The derivative a graph denotes *)

Section Tangent.
Context {F : Type} `{PyNum F}.
Local Open Scope num_scope.

(** The directional derivative of node [x] that the rules stored in the
    graph denote, when the leaves carry the derivatives [seed]: a leaf has
    its seed, and a result node combines the derivatives of its operands
    with the factors its closure uses. *)
Fixpoint tangent_fuel (fuel : nat) (h : list (rNode F)) (seed : nat -> F) (x : nat) : F :=
  match fuel with
  | O => lit 0
  | S fuel' =>
      let T := tangent_fuel fuel' h seed in
      match backward_func_of h x with
      | no_op => seed x
      | bw_binary op s o _ =>
          d_self op (val_of h s) (val_of h o) * T s
          + d_other op (val_of h s) (val_of h o) * T o
      | bw_rpow c s _ => c ** val_of h s * np_log c * T s
      | bw_unary f a _ => d_unary f (val_of h a) * T a
      | bw_log_base b a _ => lit 1 / (val_of h a * np_log b) * T a
      end
  end.

Definition tangent (h : list (rNode F)) (seed : nat -> F) (x : nat) : F :=
  tangent_fuel (S x) h seed x.

(** The seed of the [i]-th column: 1 on the [i]-th input node, 0 on every
    other leaf. *)
Definition unit_seed (base i : nat) (x : nat) : F :=
  if decide (x = base + i)%nat then lit 1 else lit 0.

(** The sum over the nodes [l] of adjoint times derivative. *)
Definition adjoint_sum (h : list (rNode F)) (T : nat -> F) (l : list nat) : F :=
  foldr (fun v acc => der_of h v * T v + acc) (lit 0) l.

(** In [l] every parent of a node stands after the node. *)
Definition parents_later (h : list (rNode F)) (l : list nat) : Prop :=
  ∀ i v p, l !! i = Some v → p ∈ parents_of h v → ∃ j, l !! j = Some p ∧ (i < j)%nat.

(** The stores of one reverse-mode evaluation: the inputs are the objects
    [base .. base + n - 1], leaves with the coordinates [cs]; every object
    from [base] on has its creation index equal to its distance from
    [base] and parents from [base] on; the counter stands at the number of
    objects created since [base]. *)
Record traced (base n : nat) (cs : list F) (st : rstate F) : Prop := {
  traced_wf : wf_state st;
  traced_len : (base + n ≤ length (heap st))%nat;
  traced_counter : (increment st + base = length (heap st))%nat;
  traced_closed : ∀ x p, (base ≤ x)%nat → p ∈ parents_of (heap st) x → (base ≤ p)%nat;
  traced_names : ∀ x, (base ≤ x < length (heap st))%nat →
                      (name_of (heap st) x + base = x)%nat;
  traced_inputs : ∀ j, (j < n)%nat →
                       backward_func_of (heap st) (base + j) = no_op
                       ∧ val_of (heap st) (base + j) = default (lit 0) (cs !! j)
}.

(** A value of the forward-mode run with seed [seed] against the value of
    the reverse-mode run at the same place: equal numbers, or a dual
    number that holds the value of the node and the derivative the graph
    denotes for it. *)
Definition corresponds (base : nat) (seed : nat -> F) (st : rstate F)
    (vd vn : pyval F) : Prop :=
  match vd, vn with
  | VNum c, VNum c' => c = c'
  | VDual z, VNode x =>
      (base ≤ x < length (heap st))%nat
      ∧ real z = val_of (heap st) x
      ∧ dual z = tangent (heap st) seed x
  | _, _ => False
  end.

Definition corresponds_obj (base : nat) (seed : nat -> F) (st : rstate F)
    (od on : pyobj F) : Prop :=
  match od, on with
  | Single a, Single b => corresponds base seed st a b
  | Tuple vd, Tuple vn => Forall2 (corresponds base seed st) vd vn
  | _, _ => False
  end.

(** The store of [st'] extends the store of [st]. *)
Definition grows (st st' : rstate F) : Prop :=
  ∃ new, heap st' = heap st ++ new.

(** Two outcomes agree: both are results that correspond, or both are the
    same exception. *)
Definition agree {A B} (R : A -> B -> Prop) (rd : result A) (rn : result B) : Prop :=
  match rd, rn with
  | Ok a, Ok b => R a b
  | Raise e1, Raise e2 => e1 = e2
  | _, _ => False
  end.

(** The forward-mode computation [md], run in [s0], against the
    reverse-mode computation [mn], run in [st]: the first leaves its state
    alone, the second only adds nodes of the evaluation, and the outcomes
    agree. *)
Definition simulates (base n : nat) (cs : list F) {A B}
    (Rel : rstate F -> A -> B -> Prop) (md : M F A) (mn : M F B)
    (s0 st : rstate F) : Prop :=
  (md s0).2 = s0
  ∧ traced base n cs (mn st).2
  ∧ grows st (mn st).2
  ∧ agree (Rel (mn st).2) (md s0).1 (mn st).1.

(** The points at which [**] with a dual number as exponent has a
    derivative: the base is positive.  The predicate follows the
    forward-mode evaluation of the expression. *)
Fixpoint pow_domain (e : expr F) (env : list (pyval F)) (st : rstate F) : Prop :=
  match e with
  | Var _ | Lit _ => True
  | Neg e1 | App _ e1 | AppLogBase e1 _ => pow_domain e1 env st
  | Bin op e1 e2 =>
      pow_domain e1 env st ∧ pow_domain e2 env st
      ∧ (op = OpPow →
         match (eval e1 env st).1, (eval e2 env st).1 with
         | Ok (VDual z), Ok (VDual _) => real z > lit 0
         | _, _ => True
         end)
  end.

Fixpoint pow_domain_body (s : stmt F) (env : list (pyval F)) (st : rstate F) : Prop :=
  match s with
  | Assign e rest =>
      pow_domain e env st
      ∧ match (eval e env st).1 with
        | Ok v => pow_domain_body rest (env ++ [v]) st
        | Raise _ => True
        end
  | Return e => pow_domain e env st
  | ReturnTuple es => Forall (fun e => pow_domain e env st) es
  end.

(** The point [cs] is in the domain of the wrapped function. *)
Definition in_domain (self : Func F) (cs : list F) : Prop :=
  ∀ i st, (i < num_inputs self)%nat →
    pow_domain_body (body (func self))
      (dual_inputs cs (column (np_identity (num_inputs self)) i)) st.

End Tangent.

(* ================================================================= *)
(** ** Concrete runs *)

Module Examples.
Import RealNum.

Definition st_init : rstate R := mk_rstate [] 0.

(** [lambda x: x] with one input and one output. *)
Definition identity_func : Func R :=
  mk_Func (mk_pyfunc 1 (Return (Var 0))) 1 1.

(** [lambda x, y: (y * x**2, x - y)], the second scenario of the
    specification. *)
Definition scenario2 : Func R :=
  mk_Func
    (mk_pyfunc 2
       (ReturnTuple [Bin OpMul (Var 1) (Bin OpPow (Var 0) (Lit 2%R));
                     Bin OpSub (Var 0) (Var 1)]))
    2 2.

Definition after_first_graph : rstate R :=
  (Func_graph identity_func (ArgScalar 5%R) "LR" st_init).2.

(** The store after the reverse-mode trace of [scenario2] at [(2, 3)]:
    the inputs [x] and [y] are objects 0 and 1, the literal 2 is object 2,
    [x**2] is object 3, [y * x**2] is object 4 and [x - y] is object 5. *)
Definition scenario2_graph : list (rNode R) :=
  heap ((run reset_increment in
         let* zs := wrap_inputs [VNum 2%R; VNum 3%R] in
         call (func scenario2) zs) st_init).2.

(** [lambda x: x + 1] declared with two outputs, the fifth scenario of
    the specification. *)
Definition declared_two : Func R :=
  mk_Func (mk_pyfunc 1 (Return (Bin OpAdd (Var 0) (Lit 1%R)))) 1 2.

End Examples.

(* ================================================================= *)
(** * Properties *)

Section TopologicalSort.
Context {F : Type} `{PyNum F}.
Implicit Types (h : list (rNode F)) (V : gset nat) (L : list nat).

Lemma before_app_r L new p x : before L p x → before (L ++ new) p x.
Proof.
  intros (l1 & l2 & -> & Hp). exists l1, (l2 ++ new).
  split; [by rewrite <- app_assoc | done].
Qed.

Lemma before_snoc L p x : p ∈ L → before (L ++ [x]) p x.
Proof. intros Hp. by exists L, []. Qed.

Lemma before_lookup L p x i j :
  NoDup L → before L p x → L !! i = Some x → L !! j = Some p → j < i.
Proof.
  intros Hnd (l1 & l2 & -> & Hp) Hi Hj.
  apply list_elem_of_lookup in Hp as [k Hk].
  pose proof (lookup_lt_Some _ _ _ Hk) as Hlt.
  assert (j = k) as ->.
  { eapply NoDup_lookup; [exact Hnd | exact Hj |].
    by rewrite lookup_app_l. }
  assert (i = length l1) as ->; [|done].
  eapply NoDup_lookup; [exact Hnd | exact Hi |].
  by rewrite list_lookup_middle.
Qed.

Lemma reachable_parent h x p y :
  p ∈ parents_of h x → reachable h p y → reachable h x y.
Proof. intros Hp Hr. by eapply rtc_l. Qed.

Lemma reachable_le h x y : wf_heap h → reachable h x y → y ≤ x.
Proof.
  intros Hwf Hr. induction Hr as [|a b c Hab _ IH]; [done|].
  specialize (Hwf _ _ Hab). lia.
Qed.

(** What one call of [toposort] on [n] does to a state that satisfies the
    invariant, when the nodes still in progress are younger than [n]. *)
Definition toposort_post h (n : nat) V L (r : option (gset nat * list nat)) : Prop :=
  ∃ new,
    r = Some (list_to_set new ∪ V, L ++ new)
    ∧ topo_inv h (list_to_set new ∪ V) (L ++ new)
    ∧ n ∈ L ++ new
    ∧ Forall (fun y => reachable h n y) new
    ∧ (n ∉ V → ∃ new', new = new' ++ [n]).

Lemma toposort_loop h depth ps :
  wf_heap h →
  (∀ n V L,
     n < depth → topo_inv h V L → (∀ x, x ∈ V → x ∉ L → n < x) →
     toposort_post h n V L (toposort depth h n (V, L))) →
  ∀ V L,
    (∀ p, p ∈ ps → p < depth) →
    topo_inv h V L →
    (∀ p x, p ∈ ps → x ∈ V → x ∉ L → p < x) →
    ∃ new,
      for_each (toposort depth h) ps (V, L) = Some (list_to_set new ∪ V, L ++ new)
      ∧ topo_inv h (list_to_set new ∪ V) (L ++ new)
      ∧ (∀ p, p ∈ ps → p ∈ L ++ new)
      ∧ Forall (fun y => ∃ p, p ∈ ps ∧ reachable h p y) new.
Proof.
  intros Hwf IH. induction ps as [|p ps IHps]; intros V L Hdepth Hinv Hgray.
  - exists []. simpl. rewrite app_nil_r.
    replace (∅ ∪ V) with V by (set_unfold; intuition (subst; auto)).
    split; [done|]. split; [done|]. split; [|done].
    intros p Hp. by apply elem_of_nil in Hp.
  - destruct (IH p V L) as (new1 & Heq1 & Hinv1 & Hp1 & Hreach1 & _).
    { apply Hdepth. left. }
    { done. }
    { intros x. apply Hgray. left. }
    destruct (IHps (list_to_set new1 ∪ V) (L ++ new1)) as (new2 & Heq2 & Hinv2 & Hps2 & Hreach2).
    { intros q Hq. apply Hdepth. by right. }
    { done. }
    { intros q x Hq Hx Hnx. apply (Hgray q x); [by right | | ].
      - set_unfold. destruct Hx as [Hx|Hx]; [|done].
        exfalso. apply Hnx. by right.
      - set_unfold. intros HL. apply Hnx. by left. }
    exists (new1 ++ new2). simpl. rewrite Heq1, Heq2.
    assert (list_to_set new2 ∪ (list_to_set new1 ∪ V)
            = list_to_set (new1 ++ new2) ∪ V :> gset nat) as Hset.
    { rewrite list_to_set_app_L. set_unfold; intuition (subst; auto). }
    rewrite Hset in *. rewrite <- !app_assoc in *.
    split; [done|]. split; [done|]. split.
    + intros q [->|Hq]%elem_of_cons; [|by apply Hps2].
      rewrite app_assoc. apply elem_of_app. by left.
    + apply Forall_app. split.
      * eapply Forall_impl; [exact Hreach1|]. intros y Hy. exists p. split; [left|done].
      * eapply Forall_impl; [exact Hreach2|]. intros y (q & Hq & Hy). exists q. split; [by right|done].
Qed.

Lemma toposort_spec h depth :
  wf_heap h →
  ∀ n V L,
    n < depth → topo_inv h V L → (∀ x, x ∈ V → x ∉ L → n < x) →
    toposort_post h n V L (toposort depth h n (V, L)).
Proof.
  intros Hwf. induction depth as [|depth IH]; intros n V L Hn Hinv Hgray; [lia|].
  simpl. destruct (decide (n ∈ V)) as [HnV|HnV].
  - exists []. simpl. rewrite app_nil_r. replace (∅ ∪ V) with V by (set_unfold; intuition (subst; auto)).
    split; [done|]. split; [done|]. split; [|done].
    destruct (decide (n ∈ L)) as [|HnL]; [done|].
    specialize (Hgray n HnV HnL). lia.
  - assert (n ∉ L) as HnL by (intros HL; apply HnV; by apply Hinv).
    destruct (toposort_loop h depth (elements (parents_of h n)) Hwf IH ({[n]} ∪ V) L)
      as (new & Heq & Hinv' & Hps & Hreach).
    { intros p Hp%elem_of_elements. specialize (Hwf _ _ Hp). lia. }
    { split; [apply Hinv | | apply Hinv].
      intros x Hx. apply elem_of_union_r. by apply Hinv. }
    { intros p x Hp%elem_of_elements Hx HxL. specialize (Hwf _ _ Hp).
      apply elem_of_union in Hx as [->%elem_of_singleton|Hx]; [done|].
      specialize (Hgray x Hx HxL). lia. }
    rewrite Heq. simpl.
    assert (n ∉ new) as Hnnew.
    { intros Hin. rewrite Forall_forall in Hreach.
      destruct (Hreach n Hin) as (p & Hp%elem_of_elements & Hr).
      apply (reachable_le h p n Hwf) in Hr. specialize (Hwf _ _ Hp). lia. }
    exists (new ++ [n]). rewrite app_assoc.
    assert (list_to_set new ∪ ({[n]} ∪ V) = list_to_set (new ++ [n]) ∪ V :> gset nat) as ->.
    { rewrite list_to_set_app_L. set_unfold; intuition (subst; auto). }
    split; [done|]. split; [split|]; [| | |split; [|split; [|by exists new]]].
    + apply NoDup_app. split; [apply Hinv'|]. split; [|apply NoDup_singleton].
      intros x Hx ->%list_elem_of_singleton.
      apply elem_of_app in Hx as [Hx|Hx]; done.
    + intros x [Hx| ->%list_elem_of_singleton]%elem_of_app.
      * apply (topo_visited _ _ _ Hinv') in Hx. rewrite list_to_set_app_L. set_unfold; intuition (subst; auto).
      * rewrite list_to_set_app_L. set_unfold; intuition (subst; auto).
    + intros x p [Hx| ->%list_elem_of_singleton]%elem_of_app Hp.
      * apply before_app_r. by apply Hinv'.
      * apply before_snoc. apply Hps. by apply elem_of_elements.
    + apply elem_of_app. right. left.
    + apply Forall_app. split.
      * eapply Forall_impl; [exact Hreach|]. intros y (p & Hp%elem_of_elements & Hr).
        by eapply reachable_parent.
      * apply Forall_singleton. apply rtc_refl.
Qed.

End TopologicalSort.

Section SortNodes.
Context {F : Type} `{PyNum F}.
Implicit Types (h : list (rNode F)).

Lemma topo_inv_empty h : topo_inv h ∅ [].
Proof.
  split; [apply NoDup_nil_2 | |]; intros x; intros; exfalso; by eapply elem_of_nil.
Qed.

Lemma sort_nodes_post h self :
  wf_heap h → self < length h →
  ∃ l, _sort_nodes h self = Some l
       ∧ topo_inv h (list_to_set l) l
       ∧ self ∈ l
       ∧ Forall (reachable h self) l
       ∧ ∃ l', l = l' ++ [self].
Proof.
  intros Hwf Hself.
  destruct (toposort_spec h (S (length h)) Hwf self ∅ [])
    as (new & Heq & Hinv & Hin & Hreach & Hlast).
  { lia. }
  { apply topo_inv_empty. }
  { intros x Hx. by apply elem_of_empty in Hx. }
  exists new. unfold _sort_nodes. rewrite Heq. simpl in *.
  rewrite (right_id_L ∅ (∪)) in Hinv.
  split; [done|]. split; [done|]. split; [done|]. split; [done|].
  apply Hlast. intros Hx. by apply elem_of_empty in Hx.
Qed.

Lemma topo_inv_closed h V L x y :
  topo_inv h V L → x ∈ L → reachable h x y → y ∈ L.
Proof.
  intros Hinv Hx Hr. induction Hr as [|a b c Hab _ IH]; [done|].
  apply IH. destruct (topo_parents _ _ _ Hinv a b Hx Hab) as (l1 & l2 & -> & Hb).
  apply elem_of_app. by left.
Qed.

(** C5. On a graph the operators can build, [_sort_nodes] returns a list
    that holds every node reachable from the root exactly once, and every
    parent of a listed node stands in the list at a strictly smaller
    position than the node. *)
Theorem sort_nodes_topological h self :
  wf_heap h → self < length h →
  ∃ l, _sort_nodes h self = Some l
       ∧ NoDup l
       ∧ (∀ x, x ∈ l ↔ reachable h self x)
       ∧ (∀ i x p, l !! i = Some x → p ∈ parents_of h x →
                   ∃ j, l !! j = Some p ∧ j < i).
Proof.
  intros Hwf Hself.
  destruct (sort_nodes_post h self Hwf Hself) as (l & Heq & Hinv & Hin & Hreach & _).
  exists l. split; [done|]. split; [apply Hinv|]. split.
  - intros x. split.
    + intros Hx. rewrite Forall_forall in Hreach. by apply Hreach.
    + intros Hr. by eapply topo_inv_closed.
  - intros i x p Hi Hp.
    assert (x ∈ l) as Hx by (by eapply list_elem_of_lookup_2).
    pose proof (topo_parents _ _ _ Hinv x p Hx Hp) as Hbefore.
    assert (p ∈ l) as [j Hj]%list_elem_of_lookup.
    { destruct Hbefore as (l1 & l2 & -> & Hb). apply elem_of_app. by left. }
    exists j. split; [done|].
    eapply before_lookup; [apply Hinv | exact Hbefore | exact Hi | exact Hj].
Qed.

End SortNodes.

(* ================================================================= *)
(** ** Node creation keeps the store well formed *)

Section Construction.
Context {F : Type} `{PyNum F}.
Implicit Types (h : list (rNode F)) (st : rstate F).

Lemma appends_refl st : appends st st.
Proof.
  exists []. rewrite app_nil_r. split; [done|]. split; [simpl; lia|].
  intros i nd Hi. by rewrite lookup_nil in Hi.
Qed.

Lemma appends_trans st1 st2 st3 : appends st1 st2 → appends st2 st3 → appends st1 st3.
Proof.
  intros (n1 & Hh1 & Hi1 & Hn1) (n2 & Hh2 & Hi2 & Hn2).
  exists (n1 ++ n2). rewrite Hh2, Hh1, <- app_assoc. split; [done|].
  rewrite length_app. split; [lia|].
  intros i nd Hi. apply lookup_app_Some in Hi as [Hi|[Hge Hi]].
  - by apply Hn1.
  - rewrite (Hn2 _ _ Hi). lia.
Qed.

Lemma steps_refl st : steps st st.
Proof. split; [apply appends_refl | done]. Qed.

Lemma steps_trans st1 st2 st3 : steps st1 st2 → steps st2 st3 → steps st1 st3.
Proof.
  intros [Ha1 Hw1] [Ha2 Hw2]. split; [by eapply appends_trans | auto].
Qed.

Lemma appends_length st st' : appends st st' → length (heap st) ≤ length (heap st').
Proof. intros (new & -> & _). rewrite length_app. lia. Qed.

Lemma val_ok_mono st st' v : appends st st' → val_ok (heap st) v → val_ok (heap st') v.
Proof.
  intros Ha%appends_length. destruct v; simpl; try done. lia.
Qed.

Lemma alter_snoc {A} (f : A → A) (l : list A) (a : A) :
  alter f (length l) (l ++ [a]) = l ++ [f a].
Proof.
  induction l as [|b l IH]; simpl; [done|]. by f_equal.
Qed.

Lemma parents_of_snoc h nd x :
  parents_of (h ++ [nd]) x
  = if decide (x = length h) then parents nd else parents_of h x.
Proof.
  unfold parents_of. destruct (decide (x = length h)) as [->|Hne].
  - by rewrite list_lookup_middle.
  - destruct (decide (x < length h)).
    + by rewrite lookup_app_l.
    + rewrite !lookup_ge_None_2; [done | lia |]. rewrite length_app. simpl. lia.
Qed.

(** Appending a node whose parents exist and whose closure is its own. *)
Lemma steps_snoc st nd :
  name nd = increment st →
  (∀ p, p ∈ parents nd → p < length (heap st)) →
  rule_ok (length (heap st)) nd →
  steps st (mk_rstate (heap st ++ [nd]) (S (increment st))).
Proof.
  intros Hname Hpar Hrule. split.
  - exists [nd]. simpl. split; [done|]. split; [lia|].
    intros [|i] nd' Hi; simpl in Hi; [|by rewrite lookup_nil in Hi].
    inversion Hi; subst. lia.
  - intros [Hwf Hrules]. split; simpl.
    + intros x p. rewrite parents_of_snoc. case_decide as Hx.
      * subst x. apply Hpar.
      * apply Hwf.
    + intros x nd' Hx. apply lookup_app_Some in Hx as [Hx|[Hge Hx]].
      * by apply Hrules.
      * destruct (x - length (heap st)) as [|k] eqn:Hk; simpl in Hx;
          [|by rewrite lookup_nil in Hx].
        inversion Hx; subst nd'. assert (x = length (heap st)) as -> by lia. done.
Qed.

End Construction.

Section Runs.
Context {F : Type} `{PyNum F}.
Implicit Types (h : list (rNode F)) (st : rstate F).

Lemma runs_ret {A} (a : A) st (P : A → rstate F → Prop) : P a st → runs (ret a) st P.
Proof.
  intros HP. split; [apply steps_refl|]. simpl. intros a' Ha. by inversion Ha; subst.
Qed.

Lemma runs_raise {A} e st (P : A → rstate F → Prop) : runs (raise e) st P.
Proof. split; [apply steps_refl|]. simpl. intros a' Ha. inversion Ha. Qed.

Lemma runs_lift {A} (r : result A) st (P : A → rstate F → Prop) :
  (∀ a, r = Ok a → P a st) → runs (lift r) st P.
Proof. intros HP. split; [apply steps_refl|]. simpl. done. Qed.

Lemma runs_bind {A B} (m : M F A) (k : A → M F B) st
    (P : A → rstate F → Prop) (Q : B → rstate F → Prop) :
  runs m st P →
  (∀ a st', steps st st' → P a st' → runs (k a) st' Q) →
  runs (bind m k) st Q.
Proof.
  intros [Hsteps HP] Hk. unfold runs, bind in *.
  destruct (m st) as [[a|e] st'] eqn:Hm; simpl in *.
  - destruct (Hk a st' Hsteps (HP a eq_refl)) as [Hsteps' HQ].
    split; [by eapply steps_trans | done].
  - split; [done|]. intros b Hb. inversion Hb.
Qed.

Lemma runs_weaken {A} (m : M F A) st (P Q : A → rstate F → Prop) :
  runs m st P → (∀ a st', P a st' → Q a st') → runs m st Q.
Proof. intros [Hs HP] HPQ. split; [done|]. intros a Ha. by apply HPQ, HP. Qed.

Lemma runs_get_heap st (P : list (rNode F) → rstate F → Prop) :
  P (heap st) st → runs get_heap st P.
Proof.
  intros HP. split; [apply steps_refl|]. simpl. intros a Ha. by inversion Ha; subst.
Qed.

(** [rNode(c)] *)
Lemma runs_leaf (c : F) op st :
  runs (new_rNode c [] op) st (fun x st' => x = length (heap st) ∧ is_node x st').
Proof.
  unfold runs, new_rNode. simpl. split.
  - apply steps_snoc; simpl; [done | | done].
    intros p Hp. by apply elem_of_empty in Hp.
  - intros a Ha. inversion Ha; subst. unfold is_node. simpl.
    rewrite length_app. simpl. split; [done|lia].
Qed.

Lemma make_binary_state op self other st :
  make_binary op self other st
  = (Ok (length (heap st)),
     mk_rstate
       (heap st ++ [mk_rNode (binop_val op (val_of (heap st) self) (val_of (heap st) other))
                             (lit 0)
                             (bw_binary op self other (length (heap st)))
                             (binop_tag op) (list_to_set [self; other]) (increment st)])
       (S (increment st))).
Proof.
  unfold make_binary, bind, get_heap, new_rNode, set_rule, ret, assign_backward_func.
  simpl. by rewrite alter_snoc.
Qed.

Lemma runs_make_binary op self other st :
  is_node self st → is_node other st →
  runs (make_binary op self other) st is_node.
Proof.
  intros Hs Ho. unfold runs. rewrite make_binary_state. simpl. split.
  - apply steps_snoc; simpl; [done | | done].
    intros p. set_unfold. intros [->|[->|[]]]; done.
  - intros a Ha. inversion Ha; subst. unfold is_node. simpl.
    rewrite length_app. simpl. lia.
Qed.

Lemma is_node_mono st st' x : steps st st' → is_node x st → is_node x st'.
Proof. intros [Ha%appends_length _]. unfold is_node. lia. Qed.

Lemma is_val_mono st st' v : steps st st' → is_val v st → is_val v st'.
Proof. intros [Ha _]. by apply val_ok_mono. Qed.

Lemma runs_coercing_binary op self other st :
  is_node self st → val_ok (heap st) match other with NNode o => VNode o | _ => VOther end →
  runs (coercing_binary op self other) st is_node.
Proof.
  intros Hs Ho. destruct other as [c|o|]; simpl.
  - eapply runs_bind; [apply runs_leaf|].
    intros o st' Hsteps [_ Ho']. apply runs_make_binary; [|done].
    by eapply is_node_mono.
  - by apply runs_make_binary.
  - apply runs_raise.
Qed.

Lemma runs_scalar_only_binary op self other st :
  is_node self st →
  runs (scalar_only_binary op self other) st is_node.
Proof.
  intros Hs. destruct other as [c|o|]; simpl; try apply runs_raise.
  eapply runs_bind; [apply runs_leaf|].
  intros o st' Hsteps [_ Ho']. apply runs_make_binary; [|done].
  by eapply is_node_mono.
Qed.

Lemma rpow_state (c : F) self st :
  rNode_rpow self (NScalar c) st
  = (Ok (length (heap st)),
     mk_rstate
       (heap st ++ [mk_rNode (fpow c (val_of (heap st) self)) (lit 0)
                             (bw_rpow c self (length (heap st)))
                             (OpRPow c) (list_to_set [self]) (increment st)])
       (S (increment st))).
Proof.
  unfold rNode_rpow, bind, get_heap, new_rNode, set_rule, ret, assign_backward_func.
  simpl. by rewrite alter_snoc.
Qed.

Lemma runs_rpow self other st :
  is_node self st → runs (rNode_rpow self other) st is_node.
Proof.
  intros Hs. destruct other as [c|o|]; try apply runs_raise.
  unfold runs. rewrite rpow_state. simpl. split.
  - apply steps_snoc; simpl; [done | | done].
    intros p. set_unfold. intros [->|[]]; done.
  - intros a Ha. inversion Ha; subst. unfold is_node. simpl.
    rewrite length_app. simpl. lia.
Qed.

End Runs.

Section RunsInterp.
Context {F : Type} `{PyNum F}.
Implicit Types (st : rstate F).

Lemma elementary_node_state f n st :
  operators.domain_guard f (val_of (heap st) n) = false →
  operators.elementary f (VNode n) st
  = (Ok (VNode (length (heap st))),
     mk_rstate
       (heap st ++ [mk_rNode (operators.np_value f (val_of (heap st) n)) (lit 0)
                             (bw_unary f n (length (heap st)))
                             (OpStr (operators.unop_name f)) (list_to_set [n])
                             (increment st)])
       (S (increment st))).
Proof.
  intros Hg.
  unfold operators.elementary, bind, get_heap, new_rNode, set_rule, ret,
    assign_backward_func.
  simpl. rewrite Hg. simpl. by rewrite alter_snoc.
Qed.

Lemma runs_elementary f v st :
  is_val v st → runs (operators.elementary f v) st is_val.
Proof.
  intros Hv. destruct v as [c|z|n|].
  - simpl. destruct (operators.domain_guard f c); [apply runs_raise | by apply runs_ret].
  - simpl.
    destruct (operators.domain_guard f (real z)); [apply runs_raise | by apply runs_ret].
  - destruct (operators.domain_guard f (val_of (heap st) n)) eqn:Hg.
    + unfold runs, operators.elementary, bind, get_heap, raise. simpl. rewrite Hg. simpl.
      split; [apply steps_refl|]. intros a Ha. inversion Ha.
    + unfold runs. rewrite (elementary_node_state f n st Hg). simpl. split.
      * apply steps_snoc; simpl; [done | | done].
        intros p. set_unfold. intros [->|[]]; done.
      * intros a Ha. inversion Ha; subst. unfold is_val. simpl.
        rewrite length_app. simpl. lia.
  - apply runs_raise.
Qed.

Lemma log_base_node_state (b : F) n st :
  ¬ fle (val_of (heap st) n) (lit 0) →
  operators.log_base (VNode n) (Some b) st
  = (Ok (VNode (length (heap st))),
     mk_rstate
       (heap st ++ [mk_rNode (fdiv (np_log (val_of (heap st) n)) (np_log b)) (lit 0)
                             (bw_log_base b n (length (heap st)))
                             (OpLogBase b) (list_to_set [n]) (increment st)])
       (S (increment st))).
Proof.
  intros Hg.
  unfold operators.log_base, bind, get_heap, new_rNode, set_rule, ret,
    assign_backward_func.
  simpl. rewrite bool_decide_eq_false_2 by done. simpl. by rewrite alter_snoc.
Qed.

Lemma runs_log_base v base st :
  is_val v st → runs (operators.log_base v base) st is_val.
Proof.
  intros Hv. destruct v as [c|z|n|]; destruct base as [b|];
    try apply runs_raise.
  - simpl. case_bool_decide; [apply runs_raise | by apply runs_ret].
  - simpl. case_bool_decide; [apply runs_raise | by apply runs_ret].
  - destruct (decide (fle (val_of (heap st) n) (lit 0))) as [Hle|Hle].
    + unfold runs, operators.log_base, bind, get_heap, raise. simpl.
      rewrite bool_decide_eq_true_2 by done. simpl.
      split; [apply steps_refl|]. intros a Ha. inversion Ha.
    + unfold runs. rewrite (log_base_node_state b n st Hle). simpl. split.
      * apply steps_snoc; simpl; [done | | done].
        intros p. set_unfold. intros [->|[]]; done.
      * intros a Ha. inversion Ha; subst. unfold is_val. simpl.
        rewrite length_app. simpl. lia.
Qed.

Lemma runs_node_result (m : M F nat) st :
  runs m st is_node →
  runs (bind m (fun r => ret (VNode r))) st is_val.
Proof.
  intros Hm. eapply runs_bind; [exact Hm|].
  intros r st' _ Hr. by apply runs_ret.
Qed.

Lemma runs_dual_result (r : result (DualNumber F)) st :
  runs (bind (lift r) (fun d => ret (VDual d))) st is_val.
Proof.
  eapply runs_bind; [apply (runs_lift _ _ (fun _ _ => True)); done|].
  intros d st' _ _. by apply runs_ret.
Qed.

Lemma runs_rNode_method op x o st :
  is_node x st → val_ok (heap st) match o with NNode o => VNode o | _ => VOther end →
  runs (rNode_method op x o) st is_node.
Proof. intros Hx Ho. destruct op; by apply runs_coercing_binary. Qed.

Lemma runs_rNode_rmethod op x o st :
  is_node x st → val_ok (heap st) match o with NNode o => VNode o | _ => VOther end →
  runs (rNode_rmethod op x o) st is_node.
Proof.
  intros Hx Ho. destruct op; simpl;
    first [ by apply runs_coercing_binary
          | by apply runs_scalar_only_binary
          | by apply runs_rpow ].
Qed.

Lemma runs_apply_arith op a b st :
  is_val a st → is_val b st → runs (apply_arith op a b) st is_val.
Proof.
  intros Ha Hb. destruct a as [x|z|x|], b as [y|w|y|]; simpl;
    try apply runs_raise; try apply runs_dual_result;
    try (by apply runs_ret);
    try (apply runs_node_result; first [by apply runs_rNode_method | by apply runs_rNode_rmethod]).
  destruct op; try apply runs_raise.
  eapply runs_bind; [apply (runs_coercing_binary Mul y (NScalar (lit (-1)))); done|].
  intros r st' _ _. apply runs_raise.
Qed.

Lemma runs_apply_neg a st : is_val a st → runs (apply_neg a) st is_val.
Proof.
  intros Ha. destruct a as [x|z|x|]; simpl;
    try apply runs_raise; try (by apply runs_ret).
  apply runs_node_result. by apply (runs_coercing_binary Mul x (NScalar (lit (-1)))).
Qed.

Lemma env_ok_mono env st st' : steps st st' → env_ok env st → env_ok env st'.
Proof.
  intros Hs Henv. eapply Forall_impl; [exact Henv|]. intros v. by apply is_val_mono.
Qed.

Lemma runs_eval e env st : env_ok env st → runs (eval e env) st is_val.
Proof.
  revert st. induction e as [i|c|e IH|op e1 IH1 e2 IH2|f e IH|e IH base];
    intros st Henv; simpl.
  - destruct (env !! i) as [v|] eqn:Hi; [|apply runs_raise].
    apply runs_ret. unfold env_ok in Henv. rewrite Forall_lookup in Henv. by eapply Henv.
  - by apply runs_ret.
  - eapply runs_bind; [by apply IH|]. intros a st' _ Ha. by apply runs_apply_neg.
  - eapply runs_bind; [by apply IH1|]. intros a st' Hs Ha.
    eapply runs_bind; [apply IH2; by eapply env_ok_mono|]. intros b st'' Hs' Hb.
    apply runs_apply_arith; [by eapply is_val_mono | done].
  - eapply runs_bind; [by apply IH|]. intros a st' _ Ha. by apply runs_elementary.
  - eapply runs_bind; [by apply IH|]. intros a st' _ Ha. by apply runs_log_base.
Qed.

Lemma runs_eval_tuple es env st :
  env_ok env st → runs (eval_tuple es env) st (fun vs st' => env_ok vs st').
Proof.
  revert st. induction es as [|e es IH]; intros st Henv; simpl.
  - apply runs_ret. apply Forall_nil_2.
  - eapply runs_bind; [by apply runs_eval|]. intros v st' Hs Hv.
    eapply runs_bind; [apply IH; by eapply env_ok_mono|]. intros vs st'' Hs' Hvs.
    apply runs_ret. apply Forall_cons. split; [by eapply is_val_mono | done].
Qed.

Lemma runs_exec s env st : env_ok env st → runs (exec s env) st obj_ok.
Proof.
  revert env st. induction s as [e rest IH|e|es]; intros env st Henv; simpl.
  - eapply runs_bind; [by apply runs_eval|]. intros v st' Hs Hv.
    apply IH. apply Forall_app. split; [by eapply env_ok_mono|].
    by apply Forall_singleton.
  - eapply runs_bind; [by apply runs_eval|]. intros v st' Hs Hv. by apply runs_ret.
  - eapply runs_bind; [by apply runs_eval_tuple|]. intros v st' Hs Hv. by apply runs_ret.
Qed.

Lemma runs_call f args st : env_ok args st → runs (call f args) st obj_ok.
Proof.
  intros Hargs. unfold call. case_decide; [by apply runs_exec | apply runs_raise].
Qed.

End RunsInterp.

(* ================================================================= *)
(** ** The backward pass changes adjoints only *)

Section Shape.
Context {F : Type} `{PyNum F}.
Implicit Types (h : list (rNode F)) (st : rstate F).

Lemma same_shape_refl h : same_shape h h.
Proof. done. Qed.

Lemma same_shape_trans h1 h2 h3 : same_shape h1 h2 → same_shape h2 h3 → same_shape h1 h3.
Proof. unfold same_shape. congruence. Qed.

Lemma same_shape_write_der x d h : same_shape h (write_der x d h).
Proof.
  unfold same_shape, write_der. revert x.
  induction h as [|nd h IH]; intros [|x]; simpl; try done.
  f_equal. apply IH.
Qed.

Lemma same_shape_accumulate x d h : same_shape h (accumulate x d h).
Proof. apply same_shape_write_der. Qed.

Lemma same_shape_length h h' : same_shape h h' → length h' = length h.
Proof.
  intros Hs. apply (f_equal length) in Hs. by rewrite !length_fmap in Hs.
Qed.

Lemma same_shape_lookup h h' x :
  same_shape h h' → set_der (lit 0) <$> h' !! x = set_der (lit 0) <$> h !! x.
Proof. intros Hs. by rewrite <- !list_lookup_fmap, Hs. Qed.

Lemma same_shape_name h h' x : same_shape h h' → name_of h' x = name_of h x.
Proof.
  intros Hs%(same_shape_lookup _ _ x). unfold name_of.
  destruct (h' !! x) as [n'|], (h !! x) as [n|]; simpl in *; try done.
  by injection Hs.
Qed.

Lemma same_shape_parents h h' x : same_shape h h' → parents_of h' x = parents_of h x.
Proof.
  intros Hs%(same_shape_lookup _ _ x). unfold parents_of.
  destruct (h' !! x) as [n'|], (h !! x) as [n|]; simpl in *; try done.
  by injection Hs.
Qed.

Lemma same_shape_val h h' x : same_shape h h' → val_of h' x = val_of h x.
Proof.
  intros Hs%(same_shape_lookup _ _ x). unfold val_of.
  destruct (h' !! x) as [n'|], (h !! x) as [n|]; simpl in *; try done.
  by injection Hs.
Qed.

Lemma same_shape_backward_func h h' x :
  same_shape h h' → backward_func_of h' x = backward_func_of h x.
Proof.
  intros Hs%(same_shape_lookup _ _ x). unfold backward_func_of.
  destruct (h' !! x) as [n'|], (h !! x) as [n|]; simpl in *; try done.
  by injection Hs.
Qed.

Lemma same_shape_call_backward_func c h : same_shape h (call_backward_func c h).
Proof.
  destruct c; simpl; try apply same_shape_refl; try apply same_shape_accumulate.
  eapply same_shape_trans; apply same_shape_accumulate.
Qed.

Lemma same_shape_zero_adjoints l h : same_shape h (zero_adjoints l h).
Proof.
  unfold zero_adjoints. revert h. induction l as [|x l IH]; intros h; simpl; [done|].
  eapply same_shape_trans; [apply same_shape_write_der | apply IH].
Qed.

Lemma same_shape_backward_loop n l row h :
  same_shape h (foldl (backward_step n) (row, h) l).2.
Proof.
  revert row h. induction l as [|x l IH]; intros row h; simpl; [done|].
  eapply same_shape_trans; [|apply IH]. apply same_shape_call_backward_func.
Qed.

Lemma same_shape_backward x n h row h' :
  backward x n h = Some (row, h') → same_shape h h'.
Proof.
  unfold backward. destruct (_sort_nodes h x) as [l|]; [|done].
  intros Heq. injection Heq as Heq.
  eapply same_shape_trans; [apply same_shape_zero_adjoints|].
  eapply same_shape_trans; [apply same_shape_write_der|].
  pose proof (same_shape_backward_loop n (reverse l)
                (replicate n (lit 0)) (write_der x (lit 1) (zero_adjoints l h))) as Hl.
  by rewrite Heq in Hl.
Qed.

Lemma keeps_shape_ret {A} (a : A) : keeps_shape (ret a).
Proof. by intros st. Qed.

Lemma keeps_shape_raise {A} e : keeps_shape (@raise F A e).
Proof. by intros st. Qed.

Lemma keeps_shape_get_heap : keeps_shape (@get_heap F).
Proof. by intros st. Qed.

Lemma keeps_shape_bind {A B} (m : M F A) (k : A → M F B) :
  keeps_shape m → (∀ a, keeps_shape (k a)) → keeps_shape (bind m k).
Proof.
  intros Hm Hk st. unfold bind. specialize (Hm st).
  destruct (m st) as [[a|e] st']; simpl in *; [|done].
  destruct (Hk a st') as [Hs Hi]. destruct Hm as [Hs' Hi'].
  split; [by eapply same_shape_trans | congruence].
Qed.

Lemma keeps_shape_backward_m x n : keeps_shape (backward_m x n).
Proof.
  intros st. unfold backward_m.
  destruct (backward x n (heap st)) as [[row h']|] eqn:Hb; simpl; [|done].
  split; [by eapply same_shape_backward | done].
Qed.

Lemma keeps_shape_for_loop {A S} (body : A → S → M F S) xs s :
  (∀ a s, keeps_shape (body a s)) → keeps_shape (for_loop body xs s).
Proof.
  intros Hb. revert s. induction xs as [|x xs IH]; intros s; simpl.
  - apply keeps_shape_ret.
  - apply keeps_shape_bind; [apply Hb | apply IH].
Qed.

Lemma keeps_shape_backward_rows self res : keeps_shape (backward_rows self res).
Proof.
  unfold backward_rows. destruct res as [[c|z|r|]|vs]; try apply keeps_shape_raise.
  - case_decide; [|apply keeps_shape_raise].
    apply keeps_shape_bind; [apply keeps_shape_backward_m|]. intros row.
    apply keeps_shape_bind; [apply keeps_shape_get_heap|]. intros h.
    apply keeps_shape_ret.
  - case_decide; [|apply keeps_shape_raise].
    apply keeps_shape_bind; [|intros r; apply keeps_shape_ret].
    apply keeps_shape_for_loop. intros [i [c|z|x|]] [val jac];
      try apply keeps_shape_raise.
    apply keeps_shape_bind; [apply keeps_shape_backward_m|]. intros row.
    apply keeps_shape_bind; [apply keeps_shape_get_heap|]. intros h.
    apply keeps_shape_ret.
Qed.

End Shape.

(* ================================================================= *)
(** ** Creation indices during a reverse-mode evaluation *)

Section CreationIndex.
Context {F : Type} `{PyNum F}.
Implicit Types (h : list (rNode F)) (st : rstate F).

Lemma bind_ok {A B} (m : M F A) (k : A → M F B) st a st' :
  m st = (Ok a, st') → bind m k st = k a st'.
Proof. intros Hm. unfold bind. by rewrite Hm. Qed.

Lemma wrap_inputs_loop (point : list (pyval F)) :
  Forall is_number point →
  ∀ zs st, ∃ st',
    for_loop wrap_input point zs st
    = (Ok (zs ++ (VNode <$> seq (length (heap st)) (length point))), st')
    ∧ steps st st'
    ∧ length (heap st') = length (heap st) + length point.
Proof.
  induction 1 as [|p point [c ->] _ IH]; intros zs st; simpl.
  - exists st. rewrite app_nil_r. split; [done|]. split; [apply steps_refl | lia].
  - set (st1 := mk_rstate
                  (heap st ++ [mk_rNode c (lit 0) no_op (OpStr "") ∅ (increment st)])
                  (S (increment st))).
    destruct (IH (zs ++ [VNode (length (heap st))]) st1) as (st' & Heq & Hsteps & Hlen).
    exists st'. unfold bind at 1. simpl. fold st1. rewrite Heq.
    subst st1. simpl in *. rewrite length_app in *. simpl in *.
    replace (length (heap st) + 1) with (S (length (heap st))) by lia.
    rewrite <- app_assoc. split; [done|]. split; [|lia].
    eapply steps_trans; [|exact Hsteps].
    apply steps_snoc; simpl; [done| |done].
    intros q Hq. by apply elem_of_empty in Hq.
Qed.

Lemma wrap_inputs_spec (point : list (pyval F)) st :
  Forall is_number point →
  ∃ st',
    wrap_inputs point st = (Ok (VNode <$> seq (length (heap st)) (length point)), st')
    ∧ steps st st'
    ∧ length (heap st') = length (heap st) + length point.
Proof.
  intros Hp. destruct (wrap_inputs_loop point Hp [] st) as (st' & Heq & Hs).
  exists st'. split; [exact Heq | exact Hs].
Qed.

Lemma env_ok_nodes (xs : list nat) st :
  Forall (fun x => x < length (heap st)) xs → env_ok (VNode <$> xs) st.
Proof. intros Hx. apply Forall_fmap. eapply Forall_impl; [exact Hx|]. done. Qed.

(** After the user function has been called and the backward passes have
    run, the store is the store before the call with further nodes, up to
    adjoints. *)
Lemma call_then_rows self args st :
  env_ok args st →
  ∃ st2,
    appends st st2
    ∧ same_shape (heap st2)
        (heap ((let* res := call (func self) args in backward_rows self res) st).2).
Proof.
  intros Hargs. destruct (runs_call (func self) args st Hargs) as [[Happ _] _].
  unfold bind. destruct (call (func self) args st) as [[res|e] st2]; simpl in *.
  - exists st2. split; [done|]. apply keeps_shape_backward_rows.
  - exists st2. split; [done|]. apply same_shape_refl.
Qed.

Lemma appends_name st st' x :
  appends st st' → length (heap st) ≤ x < length (heap st') →
  name_of (heap st') x = increment st + (x - length (heap st)).
Proof.
  intros (new & Hh & _ & Hn) [Hlo Hhi]. unfold name_of. rewrite Hh in *.
  rewrite length_app in Hhi. rewrite lookup_app_r by lia.
  destruct (lookup_lt_is_Some_2 new (x - length (heap st))) as [nd Hnd]; [lia|].
  rewrite Hnd. simpl. by apply Hn.
Qed.

(** C2, for the reverse-mode Jacobian path.  [_reverse] sets the counter
    to 0 and wraps the coordinates of the point first, in input order: the
    function is called on the nodes [inputs], and when it is called the
    counter stands at [num_inputs].  Among the nodes that exist when
    [_reverse] is over and did not exist before, one has a creation index
    below [num_inputs] exactly when it is one of [inputs], and the index of
    the [i]-th input is [i]. *)
Theorem reverse_creation_index (self : Func F) (point : list (pyval F)) st0 :
  length point = num_inputs self →
  Forall is_number point →
  let inputs := seq (length (heap st0)) (num_inputs self) in
  let h1 := heap (_reverse self point st0).2 in
  ∃ st_in,
    (run reset_increment in wrap_inputs point) st0 = (Ok (VNode <$> inputs), st_in)
    ∧ increment st_in = num_inputs self
    ∧ _reverse self point st0
      = (let* res := call (func self) (VNode <$> inputs) in backward_rows self res) st_in
    ∧ ∀ x, length (heap st0) ≤ x < length h1 →
           (name_of h1 x < num_inputs self ↔ x ∈ inputs)
           ∧ (∀ i, inputs !! i = Some x → name_of h1 x = i).
Proof.
  intros Hlen Hnum inputs h1.
  set (st_r := mk_rstate (heap st0) 0).
  destruct (wrap_inputs_spec point st_r Hnum) as (st_in & Hwrap & [Happ _] & Hlen_in).
  rewrite Hlen in *. simpl in Hwrap, Hlen_in. fold inputs in Hwrap.
  assert (_reverse self point st0
          = (let* res := call (func self) (VNode <$> inputs) in backward_rows self res) st_in)
    as Hrev.
  { unfold _reverse. unfold bind at 1. simpl. fold st_r.
    by rewrite (bind_ok _ _ _ _ _ Hwrap). }
  exists st_in. split; [|split; [|split; [exact Hrev|]]].
  - unfold bind at 1. simpl. fold st_r. by rewrite Hwrap.
  - destruct Happ as (new & Hh & Hi & _). simpl in *.
    apply (f_equal length) in Hh. rewrite length_app in Hh. lia.
  - intros x [Hlo Hhi].
    destruct (call_then_rows self (VNode <$> inputs) st_in) as (st2 & Happ2 & Hshape).
    { apply env_ok_nodes. apply Forall_forall. intros y Hy%elem_of_seq. lia. }
    subst h1. rewrite Hrev in *.
    rewrite (same_shape_name _ _ x Hshape).
    rewrite (same_shape_length _ _ Hshape) in Hhi.
    pose proof (appends_trans _ _ _ Happ Happ2) as Happ02.
    rewrite (appends_name st_r st2 x Happ02) by (simpl; lia). simpl.
    split.
    + subst inputs. rewrite elem_of_seq. lia.
    + intros i Hi. subst inputs. apply lookup_seq in Hi. lia.
Qed.

End CreationIndex.


Lemma wf_state_init : wf_state Examples.st_init.
Proof.
  split.
  - intros x p Hp. unfold parents_of, Examples.st_init in Hp.
    cbn [heap] in Hp. rewrite lookup_nil in Hp. by apply elem_of_empty in Hp.
  - intros x nd Hx. unfold Examples.st_init in Hx. cbn [heap] in Hx.
    by rewrite lookup_nil in Hx.
Qed.

(** C2, the graph entry point: [graph] wraps the inputs without touching
    the counter.  A second call of [graph] on [lambda x: x] creates its
    input node with creation index 1, which is not below [num_inputs = 1]. *)
Lemma graph_keeps_counter :
  let r := Func_graph Examples.identity_func (ArgScalar 5%R) "LR" Examples.after_first_graph in
  increment Examples.after_first_graph = 1
  ∧ r.1 = Ok ({[1]}, ∅, "LR"%string)
  ∧ name_of (heap r.2) 1 = 1
  ∧ ¬ (name_of (heap r.2) 1 < num_inputs Examples.identity_func).
Proof.
  vm_compute. split; [reflexivity|]. split; [reflexivity|]. split; [reflexivity|].
  intros Hlt. inversion Hlt as [|m Hle]. inversion Hle.
Qed.

Lemma reverse_creation_index_witness :
  let self := Examples.scenario2 in
  let point := [VNum 2%R; VNum 3%R] in
  let st0 := Examples.after_first_graph in
  let inputs := seq (length (heap st0)) (num_inputs self) in
  let h1 := heap (_reverse self point st0).2 in
  ∃ st_in,
    (run reset_increment in wrap_inputs point) st0 = (Ok (VNode <$> inputs), st_in)
    ∧ increment st_in = num_inputs self
    ∧ _reverse self point st0
      = (let* res := call (func self) (VNode <$> inputs) in backward_rows self res) st_in
    ∧ ∀ x, length (heap st0) ≤ x < length h1 →
           (name_of h1 x < num_inputs self ↔ x ∈ inputs)
           ∧ (∀ i, inputs !! i = Some x → name_of h1 x = i).
Proof.
  apply (reverse_creation_index Examples.scenario2 [VNum 2%R; VNum 3%R]
           Examples.after_first_graph).
  - reflexivity.
  - repeat constructor; eexists; reflexivity.
Defined.

(* ================================================================= *)
(** ** Adjoint updates *)

Section Adjoints.
Context {F : Type} `{PyNum F}.
Implicit Types (h : list (rNode F)).
Local Open Scope num_scope.

Lemma der_of_write_der_eq x d h : (x < length h)%nat → der_of (write_der x d h) x = d.
Proof.
  intros Hx. unfold der_of, write_der.
  destruct (lookup_lt_is_Some_2 h x Hx) as [nd Hnd].
  by rewrite list_lookup_alter_eq, Hnd.
Qed.

Lemma der_of_write_der_ne x y d h : x ≠ y → der_of (write_der x d h) y = der_of h y.
Proof.
  intros Hne. unfold der_of, write_der. by rewrite list_lookup_alter_ne.
Qed.

Lemma der_of_accumulate_eq x d h :
  (x < length h)%nat → der_of (accumulate x d h) x = der_of h x + d.
Proof. apply der_of_write_der_eq. Qed.

Lemma der_of_accumulate_ne x y d h : x ≠ y → der_of (accumulate x d h) y = der_of h y.
Proof. apply der_of_write_der_ne. Qed.

Lemma val_of_accumulate x y d h : val_of (accumulate x d h) y = val_of h y.
Proof. apply same_shape_val, same_shape_accumulate. Qed.

Lemma length_write_der x d h : length (write_der x d h) = length h.
Proof. apply same_shape_length, same_shape_write_der. Qed.

(** The closure of a binary operator on two different operand objects
    adds one product to the adjoint of each. *)
Lemma call_binary_distinct op s o r h :
  s ≠ o → r ≠ s → (s < length h)%nat → (o < length h)%nat →
  let h' := call_backward_func (bw_binary op s o r) h in
  der_of h' s = der_of h s + d_self op (val_of h s) (val_of h o) * der_of h r
  ∧ der_of h' o = der_of h o + d_other op (val_of h s) (val_of h o) * der_of h r.
Proof.
  intros Hso Hrs Hs Ho. simpl. split.
  - rewrite der_of_accumulate_ne by done. by rewrite der_of_accumulate_eq.
  - rewrite der_of_accumulate_eq by (unfold accumulate; by rewrite length_write_der).
    rewrite !val_of_accumulate. by rewrite !der_of_accumulate_ne by done.
Qed.

(** The same closure when both operands are one object [x]: the second
    statement adds to what the first one wrote. *)
Lemma call_binary_same op x r h :
  r ≠ x → (x < length h)%nat →
  der_of (call_backward_func (bw_binary op x x r) h) x
  = der_of h x + d_self op (val_of h x) (val_of h x) * der_of h r
    + d_other op (val_of h x) (val_of h x) * der_of h r.
Proof.
  intros Hrx Hx. simpl.
  rewrite der_of_accumulate_eq by (unfold accumulate; by rewrite length_write_der).
  rewrite !val_of_accumulate. rewrite (der_of_accumulate_ne x r) by done.
  by rewrite der_of_accumulate_eq.
Qed.

End Adjoints.

(* ================================================================= *)
(** ** Binary operators with a bare number *)

Section ScalarOperand.
Context {F : Type} `{PyNum F}.
Implicit Types (h : list (rNode F)) (st : rstate F).
Local Open Scope num_scope.

Lemma val_of_app_l h h2 x : (x < length h)%nat → val_of (h ++ h2) x = val_of h x.
Proof. intros Hx. unfold val_of. by rewrite lookup_app_l. Qed.

Lemma wrap_scalar_state op self (c : F) st :
  is_node self st →
  bind (new_rNode c [] (OpStr "")) (make_binary op self) st
  = (Ok (S (length (heap st))),
     mk_rstate
       (heap st ++
          [mk_rNode c (lit 0) no_op (OpStr "") ∅ (increment st);
           mk_rNode (binop_val op (val_of (heap st) self) c) (lit 0)
                    (bw_binary op self (length (heap st)) (S (length (heap st))))
                    (binop_tag op) (list_to_set [self; length (heap st)])
                    (S (increment st))])
       (S (S (increment st)))).
Proof.
  intros Hself. unfold bind at 1, new_rNode. simpl.
  rewrite make_binary_state. simpl.
  rewrite length_app. simpl. rewrite Nat.add_1_r.
  rewrite val_of_app_l by done.
  unfold val_of at 2. rewrite list_lookup_middle by done. simpl.
  by rewrite <- app_assoc.
Qed.


End ScalarOperand.



(* ================================================================= *)
(** ** The backward pass *)

Section Backward.
Context {F : Type} `{PyNum F}.
Implicit Types (h : list (rNode F)).
Local Open Scope num_scope.

Lemma zero_adjoints_length l h : length (zero_adjoints l h) = length h.
Proof. apply same_shape_length, same_shape_zero_adjoints. Qed.

Lemma zero_adjoints_other l h x : x ∉ l → der_of (zero_adjoints l h) x = der_of h x.
Proof.
  unfold zero_adjoints. revert h. induction l as [|y l IH]; intros h Hx; simpl; [done|].
  apply not_elem_of_cons in Hx as [Hne Hx].
  rewrite IH by done. by apply der_of_write_der_ne.
Qed.

Lemma zero_adjoints_zero l h x :
  x ∈ l → (x < length h)%nat → der_of (zero_adjoints l h) x = lit 0.
Proof.
  unfold zero_adjoints. revert h. induction l as [|y l IH]; intros h Hx Hlt; simpl.
  - by apply elem_of_nil in Hx.
  - destruct (decide (x ∈ l)) as [Hin|Hnin].
    + apply IH; [done|]. by rewrite length_write_der.
    + apply elem_of_cons in Hx as [->|Hx]; [|done].
      fold (zero_adjoints l (write_der y (lit 0) h)).
      rewrite zero_adjoints_other by done. by apply der_of_write_der_eq.
Qed.

Lemma backward_loop_walk n l s : walk n l s (foldl (backward_step n) s l).
Proof.
  revert s. induction l as [|x l IH]; intros [row h]; simpl; [constructor|].
  case_decide.
  - apply walk_input; [done|]. apply IH.
  - apply walk_inner; [done|]. apply IH.
Qed.

Lemma backward_loop_length n l row h :
  length (foldl (backward_step n) (row, h) l).1 = length row.
Proof.
  revert row h. induction l as [|x l IH]; intros row h; simpl; [done|].
  rewrite IH. case_decide; [apply length_insert | done].
Qed.

Lemma sort_nodes_bound h self l x :
  wf_heap h → _sort_nodes h self = Some l → (self < length h)%nat → x ∈ l →
  (x ≤ self)%nat.
Proof.
  intros Hwf Hl Hself Hx.
  destruct (sort_nodes_post h self Hwf Hself) as (l0 & Heq & _ & _ & Hreach & _).
  rewrite Hl in Heq. injection Heq as <-.
  rewrite Forall_forall in Hreach. eapply reachable_le; [done|]. by apply Hreach.
Qed.


End Backward.

(* ================================================================= *)
(** ** One node as both operands *)

Section SameOperand.
Context {F : Type} `{PyNum F}.
Implicit Types (h : list (rNode F)) (st : rstate F).
Local Open Scope num_scope.

Lemma call_backward_func_other c h x :
  x ∉ targets c → der_of (call_backward_func c h) x = der_of h x.
Proof.
  destruct c as [|op s o r|b s r|f a r|b a r]; simpl; intros Hx; try done.
  - apply not_elem_of_cons in Hx as [Hs Ho%not_elem_of_cons].
    destruct Ho as [Ho _]. by rewrite !der_of_accumulate_ne.
  - apply not_elem_of_cons in Hx as [Hs _]. by rewrite der_of_accumulate_ne.
  - apply not_elem_of_cons in Hx as [Hs _]. by rewrite der_of_accumulate_ne.
  - apply not_elem_of_cons in Hx as [Hs _]. by rewrite der_of_accumulate_ne.
Qed.

Lemma rule_targets h y t :
  wf_rules h → t ∈ targets (backward_func_of h y) → t ∈ parents_of h y.
Proof.
  intros Hr. unfold backward_func_of, parents_of.
  destruct (h !! y) as [nd|] eqn:Hy; simpl; [|by intros ?%elem_of_nil].
  specialize (Hr y nd Hy). unfold rule_ok in Hr.
  destruct (backward_func nd) as [|op s o r|b s r|f a r|b a r]; simpl;
    [by intros ?%elem_of_nil|..]; destruct Hr as [_ ->]; intros Ht;
    by apply elem_of_list_to_set.
Qed.

(** Running the rules of nodes that do not have [x] as a parent leaves the
    adjoint of [x] alone. *)
Lemma backward_loop_other n l x h0 :
  wf_rules h0 →
  (∀ y, y ∈ l → x ∉ parents_of h0 y) →
  ∀ row h, same_shape h0 h →
    der_of (foldl (backward_step n) (row, h) l).2 x = der_of h x.
Proof.
  intros Hr. induction l as [|y l IH]; intros Hl row h Hshape; simpl; [done|].
  rewrite IH.
  - apply call_backward_func_other. rewrite (same_shape_backward_func _ _ y Hshape).
    intros Ht. apply (Hl y); [left|]. by apply rule_targets.
  - intros z Hz. apply Hl. by right.
  - eapply same_shape_trans; [exact Hshape | apply same_shape_call_backward_func].
Qed.

(** The state after [x op x]. *)
Lemma same_operand_state op x st :
  coercing_binary op x (NNode x) st
  = (Ok (length (heap st)),
     mk_rstate
       (heap st ++ [mk_rNode (binop_val op (val_of (heap st) x) (val_of (heap st) x))
                             (lit 0) (bw_binary op x x (length (heap st)))
                             (binop_tag op) (list_to_set [x; x]) (increment st)])
       (S (increment st))).
Proof. simpl. apply make_binary_state. Qed.

(** The adjoint of [x] after [res = x op x; res.backward(n)]: the seed
    times both local partial derivatives, added one after the other to the
    zeroed adjoint. *)
Lemma same_operand_adjoint op x st (n : nat) :
  wf_state st → is_node x st →
  let r := coercing_binary op x (NNode x) st in
  let res := length (heap st) in
  let v := val_of (heap st) x in
  ∃ row h',
    backward res n (heap r.2) = Some (row, h')
    ∧ der_of h' x = lit 0 + d_self op v v * lit 1 + d_other op v v * lit 1.
Proof.
  intros Hwf Hx r res v. subst r. rewrite same_operand_state. simpl.
  set (node := mk_rNode _ _ _ _ _ _). set (h := heap st ++ [node]).
  assert (steps st (mk_rstate h (S (increment st)))) as [_ Hsteps].
  { apply steps_snoc; simpl; [done| |done].
    intros p. set_unfold. intros [->|[->|[]]]; done. }
  destruct (Hsteps Hwf) as [Hwfh Hrules]. simpl in Hwfh, Hrules.
  unfold is_node in Hx.
  assert (length h = S res) as Hlen.
  { unfold h. rewrite length_app. simpl. subst res. lia. }
  assert (parents_of h res = list_to_set [x; x]) as Hpar.
  { unfold parents_of, h. subst res. by rewrite list_lookup_middle. }
  assert (backward_func_of h res = bw_binary op x x res) as Hrule.
  { unfold backward_func_of, h. subst res. by rewrite list_lookup_middle. }
  destruct (sort_nodes_post h res Hwfh) as (l & Heq & Hinv & Hin & Hreach & l' & ->);
    [lia|].
  assert (x ∈ l') as Hxl.
  { destruct (topo_parents _ _ _ Hinv res x Hin) as (l1 & l2 & Hsplit & Hx1).
    - rewrite Hpar. set_unfold. by left.
    - assert (x ∈ l1 ++ res :: l2) as Hx2 by (apply elem_of_app; by left).
      rewrite <- Hsplit in Hx2. apply elem_of_app in Hx2 as [|Hx2]; [done|].
      apply list_elem_of_singleton in Hx2. subst res. lia. }
  assert (∀ y, y ∈ l' → (y ≤ x)%nat) as Hbound.
  { intros y Hy. rewrite Forall_forall in Hreach.
    assert (reachable h res y) as Hr by (apply Hreach, elem_of_app; by left).
    assert (y ≠ res) as Hne.
    { intros ->. pose proof (topo_nodup _ _ _ Hinv) as Hnd.
      apply NoDup_app in Hnd as (_ & Hdis & _). apply (Hdis res Hy). left. }
    inversion Hr as [|a b c Hab Hbc]; subst; [done|].
    rewrite Hpar in Hab. set_unfold.
    assert (b = x) as -> by (destruct Hab as [->|[->|[]]]; done).
    by eapply reachable_le. }
  set (h0 := write_der res (lit 1) (zero_adjoints (l' ++ [res]) h)).
  assert (same_shape h h0) as Hshape0.
  { eapply same_shape_trans; [apply same_shape_zero_adjoints | apply same_shape_write_der]. }
  set (h1 := call_backward_func (backward_func_of h0 res) h0).
  set (s' := foldl (backward_step n)
               ((if decide (name_of h0 res < n)%nat
                 then <[name_of h0 res := der_of h0 res]> (replicate n (lit 0))
                 else replicate n (lit 0)), h1) (reverse l')).
  exists s'.1, s'.2. split.
  { unfold backward. rewrite Heq. fold h0. rewrite reverse_app. simpl.
    fold h1. fold s'. by destruct s'. }
  unfold s'. rewrite (backward_loop_other n (reverse l') x h).
  - unfold h1. rewrite (same_shape_backward_func _ _ res Hshape0), Hrule.
    rewrite call_binary_same.
    + rewrite (same_shape_val _ _ x Hshape0).
      assert (val_of h x = v) as -> by (unfold h; by apply val_of_app_l).
      assert (der_of h0 x = lit 0) as ->.
      { unfold h0. rewrite der_of_write_der_ne by (subst res; lia).
        apply zero_adjoints_zero; [apply elem_of_app; by left | lia]. }
      assert (der_of h0 res = lit 1) as ->; [|done].
      unfold h0. apply der_of_write_der_eq. rewrite zero_adjoints_length. lia.
    + subst res. lia.
    + rewrite (same_shape_length _ _ Hshape0). lia.
  - done.
  - intros y Hy Hp. rewrite elem_of_reverse in Hy. specialize (Hbound y Hy).
    specialize (Hwfh _ _ Hp). lia.
  - eapply same_shape_trans; [exact Hshape0 | apply same_shape_call_backward_func].
Qed.

End SameOperand.

Section SameOperandExact.
Context {F : Type} `{PyNumExact F}.
Implicit Types (st : rstate F).
Local Open Scope num_scope.

Lemma same_operand_parents op x st :
  parents_of (heap (coercing_binary op x (NNode x) st).2) (length (heap st)) = {[x]}.
Proof.
  rewrite same_operand_state. simpl. unfold parents_of.
  rewrite list_lookup_middle by done. simpl.
  set_unfold. intuition.
Qed.

Lemma same_operand_rule op x st :
  backward_func_of (heap (coercing_binary op x (NNode x) st).2) (length (heap st))
  = bw_binary op x x (length (heap st)).
Proof.
  rewrite same_operand_state. simpl. unfold backward_func_of.
  by rewrite list_lookup_middle.
Qed.


End SameOperandExact.

Lemma wf_state_one_leaf : wf_state (new_rNode 3%R [] (OpStr "") Examples.st_init).2.
Proof.
  destruct (runs_leaf 3%R (OpStr "") Examples.st_init) as [[_ Hwf] _].
  apply Hwf, wf_state_init.
Qed.


(* ================================================================= *)
(** ** Domain errors of the elementary functions *)

Section DomainErrors.
Context {F : Type} `{PyNum F}.
Implicit Types (st : rstate F).
Local Open Scope num_scope.

Lemma elementary_domain_checked f v st :
  supported v →
  domain_checked (operators.elementary f v st).1 (operators.domain_msg f)
    (operators.domain_guard f (real_value (heap st) v) = true).
Proof.
  intros Hv. destruct v as [c|z|n|]; [| | |done]; simpl;
    unfold bind, get_heap, raise, ret; simpl.
  - destruct (operators.domain_guard f c); simpl; split; try done.
    + intros _. by eexists.
  - destruct (operators.domain_guard f (real z)); simpl; split; try done.
    + intros _. by eexists.
  - destruct (operators.domain_guard f (val_of (heap st) n)); simpl; split; try done.
    + intros _. by eexists.
Qed.

Lemma log_base_domain_checked v (b : F) st :
  supported v →
  domain_checked (operators.log_base v (Some b) st).1 log_domain_msg
    (real_value (heap st) v <= lit 0).
Proof.
  intros Hv. destruct v as [c|z|n|]; [| | |done]; simpl;
    unfold bind, get_heap, raise, ret; simpl; case_bool_decide; simpl;
    split; try done; intros _; by eexists.
Qed.

(** C6.  For an argument that is a number, a dual number or a node, [log]
    and [log_base] raise their domain error exactly when the real value is
    [<= 0], [arcsin] and [arccos] exactly when it is [< -1] or [> 1], and
    [sqrt] exactly when it is [< 0]; in every other case each of them
    returns normally. *)
Theorem domain_errors (v : pyval F) (base : F) st :
  supported v →
  let a := real_value (heap st) v in
  domain_checked (operators.log v st).1 log_domain_msg (a <= lit 0)
  ∧ domain_checked (operators.log_base v (Some base) st).1 log_domain_msg (a <= lit 0)
  ∧ domain_checked (operators.arcsin v st).1 arc_domain_msg (a < lit (-1) ∨ a > lit 1)
  ∧ domain_checked (operators.arccos v st).1 arc_domain_msg (a < lit (-1) ∨ a > lit 1)
  ∧ domain_checked (operators.sqrt v st).1 sqrt_domain_msg (a < lit 0).
Proof.
  intros Hv a.
  pose proof (elementary_domain_checked Log v st Hv) as Hlog.
  pose proof (elementary_domain_checked Arcsin v st Hv) as Hasin.
  pose proof (elementary_domain_checked Arccos v st Hv) as Hacos.
  pose proof (elementary_domain_checked Sqrt v st Hv) as Hsqrt.
  pose proof (log_base_domain_checked v base st Hv) as Hlb.
  unfold domain_checked in *. simpl in Hlog, Hasin, Hacos, Hsqrt. fold a in Hlog, Hasin, Hacos, Hsqrt, Hlb.
  rewrite bool_decide_eq_true in Hlog, Hsqrt.
  rewrite orb_true_iff, !bool_decide_eq_true in Hasin, Hacos.
  done.
Qed.

End DomainErrors.

(** The fourth scenario of the specification: [log(-5)], [log_base(-5, 10)],
    [arcsin(2)], [arccos(2)] and [sqrt(-1)] on plain numbers. *)
Lemma domain_errors_witness :
  (operators.log (VNum (-5)%R) Examples.st_init).1 = Raise (ValueError log_domain_msg)
  ∧ (operators.log (VNum 5%R) Examples.st_init).1 = Ok (VNum (ln 5))
  ∧ (operators.sqrt (VNum (-1)%R) Examples.st_init).1 = Raise (ValueError sqrt_domain_msg)
  ∧ (operators.arcsin (VNum 2%R) Examples.st_init).1 = Raise (ValueError arc_domain_msg).
Proof.
  assert (supported (VNum (-5)%R)) as H5 by done.
  assert (supported (VNum 5%R)) as H5' by done.
  assert (supported (VNum (-1)%R)) as H1 by done.
  assert (supported (VNum 2%R)) as H2 by done.
  destruct (domain_errors (VNum (-5)%R) 10%R Examples.st_init H5) as ([[_ Hlog] _] & _).
  destruct (domain_errors (VNum 5%R) 10%R Examples.st_init H5') as ([_ Hlog'] & _).
  destruct (domain_errors (VNum (-1)%R) 10%R Examples.st_init H1)
    as (_ & _ & _ & _ & [[_ Hsqrt] _]).
  destruct (domain_errors (VNum 2%R) 10%R Examples.st_init H2)
    as (_ & _ & [[_ Hasin] _] & _).
  split; [apply Hlog; simpl; lra|].
  split; [|split; [apply Hsqrt; simpl; lra | apply Hasin; simpl; right; lra]].
  destruct Hlog' as [r Hr]; [simpl; lra|].
  rewrite Hr. unfold operators.log in Hr. simpl in Hr.
  case_bool_decide as Hle; [simpl in Hle; lra|]. simpl in Hr. by injection Hr as <-.
Defined.

(* ================================================================= *)
(** ** Power of two dual numbers *)

Section DualPower.
Context {F : Type} `{PyNum F}.
Local Open Scope num_scope.

(** C8.  For dual numbers [z = (a, a')] and [w = (b, b')] with [a > 0],
    [z ** w] is the dual number
    [(a^b, a^b * (b' * ln a + a' * b / a))]. *)
Theorem Dual_pow_dual (a a' b b' : F) :
  a > lit 0 →
  Dual_pow (mkDual a a') (DDual (mkDual b b'))
  = Ok (mkDual (a ** b) (a ** b * (b' * np_log a + a' * b / a))).
Proof. intros _. reflexivity. Qed.

End DualPower.

(** [(2, 1) ** (3, 0)], the dual number of [x ** 3] at [x = 2]: the value
    is [2^3] and the dual part is [2^3 * (0 * ln 2 + 1 * 3 / 2)], which
    is 12. *)
Lemma Dual_pow_dual_witness :
  (2 > 0)%R
  ∧ Dual_pow (mkDual 2%R 1%R) (DDual (mkDual 3%R 0%R))
    = Ok (mkDual (RealNum.Rpow 2 3)
                 (RealNum.Rpow 2 3 * (0 * ln 2 + 1 * 3 / 2))%R)
  ∧ (RealNum.Rpow 2 3 * (0 * ln 2 + 1 * 3 / 2) = 12)%R.
Proof.
  assert (2 > 0)%R as Hpos by lra.
  split; [exact Hpos|]. split.
  - exact (Dual_pow_dual (F := R) 2%R 1%R 3%R 0%R Hpos).
  - unfold RealNum.Rpow. destruct (Rlt_dec 0 2) as [_|Hn]; [|lra].
    replace (Rpower 2 3) with 8%R; [lra|].
    replace 3%R with (INR 3) by (simpl; lra).
    rewrite Rpower_pow by lra. simpl. lra.
Defined.

(* ================================================================= *)
(** ** Which errors a user function can raise *)

Section Raises.
Context {F : Type} `{PyNum F}.
Implicit Types (st : rstate F).

Lemma plain_TypeError : ¬ is_dimension_error TypeError.
Proof. by intros [|]. Qed.

Lemma plain_domain f : ¬ is_dimension_error (ValueError (operators.domain_msg f)).
Proof. destruct f; by intros [|]. Qed.

Lemma plain_ret {A} (a : A) : raises_plain (@ret F A a).
Proof. intros st e He. inversion He. Qed.

Lemma plain_raise {A} e : ¬ is_dimension_error e → raises_plain (@raise F A e).
Proof. intros He st e' He'. simpl in He'. by injection He' as <-. Qed.

Lemma plain_lift {A} (r : result A) :
  (∀ e, r = Raise e → ¬ is_dimension_error e) → raises_plain (@lift F A r).
Proof. intros Hr st e He. by apply Hr. Qed.

Lemma plain_bind {A B} (m : M F A) (k : A → M F B) :
  raises_plain m → (∀ a, raises_plain (k a)) → raises_plain (bind m k).
Proof.
  intros Hm Hk st e. unfold bind. specialize (Hm st).
  destruct (m st) as [[a|e'] st']; simpl in *.
  - apply Hk.
  - intros He. injection He as <-. by apply Hm.
Qed.

Lemma plain_get_heap : raises_plain (@get_heap F).
Proof. intros st e He. inversion He. Qed.

Lemma plain_new_rNode (v : F) ps op : raises_plain (new_rNode v ps op).
Proof. intros st e He. inversion He. Qed.

Lemma plain_set_rule x (c : closure F) : raises_plain (set_rule x c).
Proof. intros st e He. inversion He. Qed.

Lemma plain_make_binary op s o : raises_plain (make_binary (F := F) op s o).
Proof.
  unfold make_binary. apply plain_bind; [apply plain_get_heap|]. intros h.
  apply plain_bind; [apply plain_new_rNode|]. intros r.
  apply plain_bind; [apply plain_set_rule|]. intros _. apply plain_ret.
Qed.

Lemma plain_coercing_binary op s (o : node_operand F) : raises_plain (coercing_binary op s o).
Proof.
  destruct o; simpl.
  - apply plain_bind; [apply plain_new_rNode|]. intros r. apply plain_make_binary.
  - apply plain_make_binary.
  - apply plain_raise, plain_TypeError.
Qed.

Lemma plain_scalar_only_binary op s (o : node_operand F) :
  raises_plain (scalar_only_binary op s o).
Proof.
  destruct o; simpl; try apply plain_raise, plain_TypeError.
  apply plain_bind; [apply plain_new_rNode|]. intros r. apply plain_make_binary.
Qed.

Lemma plain_rpow s (o : node_operand F) : raises_plain (rNode_rpow s o).
Proof.
  destruct o; simpl; try apply plain_raise, plain_TypeError.
  apply plain_bind; [apply plain_get_heap|]. intros h.
  apply plain_bind; [apply plain_new_rNode|]. intros r.
  apply plain_bind; [apply plain_set_rule|]. intros _. apply plain_ret.
Qed.

Lemma plain_elementary f (v : pyval F) : raises_plain (operators.elementary f v).
Proof.
  destruct v as [c|z|n|]; simpl.
  - destruct (operators.domain_guard f c);
      [apply plain_raise, plain_domain | apply plain_ret].
  - destruct (operators.domain_guard f (real z));
      [apply plain_raise, plain_domain | apply plain_ret].
  - apply plain_bind; [apply plain_get_heap|]. intros h.
    destruct (operators.domain_guard f (val_of h n));
      [apply plain_raise, plain_domain|].
    apply plain_bind; [apply plain_new_rNode|]. intros r.
    apply plain_bind; [apply plain_set_rule|]. intros _. apply plain_ret.
  - apply plain_raise, plain_TypeError.
Qed.

Lemma plain_log_base (v : pyval F) base : raises_plain (operators.log_base v base).
Proof.
  assert (¬ is_dimension_error (ValueError log_domain_msg)) as Hlog by (by intros [|]).
  destruct v as [c|z|n|]; destruct base as [b|]; simpl;
    try apply plain_raise, plain_TypeError.
  - case_bool_decide; [by apply plain_raise | apply plain_ret].
  - case_bool_decide; [by apply plain_raise | apply plain_ret].
  - apply plain_bind; [apply plain_get_heap|]. intros h.
    case_bool_decide; [by apply plain_raise|].
    apply plain_bind; [apply plain_new_rNode|]. intros r.
    apply plain_bind; [apply plain_set_rule|]. intros _. apply plain_ret.
Qed.

Lemma Dual_method_raises op (z : DualNumber F) o e :
  Dual_method op z o = Raise e → e = TypeError.
Proof.
  destruct op, o as [c|[b b']|]; simpl; unfold Dual_sub; simpl; congruence.
Qed.

Lemma Dual_rmethod_raises op (z : DualNumber F) o e :
  Dual_rmethod op z o = Raise e → e = TypeError.
Proof.
  destruct op, o as [c|[b b']|]; simpl;
    unfold Dual_radd, Dual_rsub, Dual_rmul; simpl; congruence.
Qed.

Lemma plain_rNode_method op x (o : node_operand F) : raises_plain (rNode_method op x o).
Proof. destruct op; apply plain_coercing_binary. Qed.

Lemma plain_rNode_rmethod op x (o : node_operand F) : raises_plain (rNode_rmethod op x o).
Proof.
  destruct op;
    first [apply plain_coercing_binary | apply plain_scalar_only_binary | apply plain_rpow].
Qed.

Lemma plain_Dual_method op (z : DualNumber F) o :
  @raises_plain F (pyval F) (bind (lift (Dual_method op z o)) (fun r => ret (VDual r))).
Proof.
  apply plain_bind; [|intros r; apply plain_ret].
  apply plain_lift. intros e ->%Dual_method_raises. apply plain_TypeError.
Qed.

Lemma plain_Dual_rmethod op (z : DualNumber F) o :
  @raises_plain F (pyval F) (bind (lift (Dual_rmethod op z o)) (fun r => ret (VDual r))).
Proof.
  apply plain_bind; [|intros r; apply plain_ret].
  apply plain_lift. intros e ->%Dual_rmethod_raises. apply plain_TypeError.
Qed.

Lemma plain_apply_arith op (a b : pyval F) : raises_plain (apply_arith op a b).
Proof.
  destruct a as [x|z|x|], b as [y|w|y|]; unfold apply_arith;
    try apply plain_raise, plain_TypeError;
    try apply plain_ret;
    try apply plain_Dual_method;
    try apply plain_Dual_rmethod;
    try (apply plain_bind; [|intros r; apply plain_ret];
         first [apply plain_rNode_method | apply plain_rNode_rmethod]).
  destruct op; try apply plain_raise, plain_TypeError.
Qed.

Lemma plain_apply_neg (a : pyval F) : raises_plain (apply_neg a).
Proof.
  destruct a as [x|z|x|]; simpl; try apply plain_ret;
    try apply plain_raise, plain_TypeError.
  apply plain_bind; [apply plain_coercing_binary|]. intros r. apply plain_ret.
Qed.

Lemma plain_NameError : ¬ is_dimension_error NameError.
Proof. by intros [|]. Qed.

Lemma plain_eval (e : expr F) env : raises_plain (eval e env).
Proof.
  induction e as [i|c|e IH|op e1 IH1 e2 IH2|f e IH|e IH base]; simpl.
  - destruct (env !! i); [apply plain_ret | apply plain_raise, plain_NameError].
  - apply plain_ret.
  - apply plain_bind; [exact IH|]. intros a. apply plain_apply_neg.
  - apply plain_bind; [exact IH1|]. intros a.
    apply plain_bind; [exact IH2|]. intros b. apply plain_apply_arith.
  - apply plain_bind; [exact IH|]. intros a. apply plain_elementary.
  - apply plain_bind; [exact IH|]. intros a. apply plain_log_base.
Qed.

Lemma plain_eval_tuple (es : list (expr F)) env : raises_plain (eval_tuple es env).
Proof.
  induction es as [|e es IH]; simpl; [apply plain_ret|].
  apply plain_bind; [apply plain_eval|]. intros v.
  apply plain_bind; [exact IH|]. intros vs. apply plain_ret.
Qed.

Lemma plain_exec (s : stmt F) env : raises_plain (exec s env).
Proof.
  revert env. induction s as [e rest IH|e|es]; intros env; simpl.
  - apply plain_bind; [apply plain_eval|]. intros v. apply IH.
  - apply plain_bind; [apply plain_eval|]. intros v. apply plain_ret.
  - apply plain_bind; [apply plain_eval_tuple|]. intros v. apply plain_ret.
Qed.

Lemma plain_call (f : pyfunc F) args : raises_plain (call f args).
Proof.
  unfold call. case_decide; [apply plain_exec | apply plain_raise, plain_TypeError].
Qed.

Lemma plain_for_loop {A S} (body : A → S → M F S) xs s :
  (∀ a s, raises_plain (body a s)) → raises_plain (for_loop body xs s).
Proof.
  intros Hb. revert s. induction xs as [|x xs IH]; intros s; simpl.
  - apply plain_ret.
  - apply plain_bind; [apply Hb | apply IH].
Qed.

End Raises.

(* ================================================================= *)
(** ** The checks of [trace] *)

Section Trace.
Context {F : Type} `{PyNum F}.
Implicit Types (st : rstate F).

Lemma plain_AssertionError : ¬ is_dimension_error AssertionError.
Proof. by intros [|]. Qed.

Lemma plain_AttributeError : ¬ is_dimension_error AttributeError.
Proof. by intros [|]. Qed.

Lemma plain_IndexError : ¬ is_dimension_error IndexError.
Proof. by intros [|]. Qed.

Lemma plain_trace_dual (p d : list (pyval F)) j : raises_plain (trace_dual p d j).
Proof.
  unfold trace_dual.
  destruct (p !! j) as [[c|z|x|]|], (d !! j) as [[c'|z'|x'|]|];
    first [apply plain_ret | apply plain_raise, plain_TypeError
          | apply plain_raise, plain_IndexError].
Qed.

Lemma plain_dual_at (vs : list (pyval F)) k : raises_plain (dual_at vs k).
Proof.
  unfold dual_at. destruct (vs !! k) as [[c|z|x|]|];
    first [apply plain_ret | apply plain_raise, plain_AttributeError
          | apply plain_raise, plain_IndexError].
Qed.

(** [trace] when [point] is a list of the right length and the direction
    is a list of the same length: no dimension error is left to raise. *)
Lemma trace_checked self (p d : list (pyval F)) st :
  length p = num_inputs self → length d = num_inputs self →
  ∀ e, (Func_trace self (ArgList p) (ArgList d) st).1 = Raise e → ¬ is_dimension_error e.
Proof.
  intros Hp Hd. unfold Func_trace, bind at 1, lift. simpl.
  rewrite decide_False by (intros Hne; done).
  rewrite decide_False by (intros Hne; congruence).
  revert st. apply plain_bind.
  { apply plain_for_loop. intros j zs.
    apply plain_bind; [apply plain_trace_dual|]. intros z. apply plain_ret. }
  intros zs. apply plain_bind; [apply plain_call|].
  intros [[c|z|x|]|vs]; try apply plain_raise, plain_TypeError.
  - case_decide; [apply plain_ret | apply plain_raise, plain_AssertionError].
  - case_decide; [|apply plain_raise, plain_AssertionError].
    apply plain_for_loop. intros k [val deriv].
    apply plain_bind; [apply plain_dual_at|]. intros dk. apply plain_ret.
Qed.

(** C7, as the code has it.  Only [point] is promoted from a bare number;
    a bare number as direction fails the assertion on [seed_vector].  For
    a direction that is a list, [trace] raises a dimension error, whatever
    the wrapped function is and without running it, when [point] does not
    have [num_inputs] coordinates or the direction is not as long as
    [point]; and when [point] has [num_inputs] coordinates, a dimension
    error is raised exactly when the length of the direction is not
    [num_inputs]. *)
Theorem trace_dimension_check self (point : py_arg F) (p : list (pyval F)) st :
  promote_point point = Ok p →
  (∀ c, Func_trace self point (ArgScalar c) st = (Raise AssertionError, st))
  ∧ ∀ d : list (pyval F),
      let r := Func_trace self point (ArgList d) st in
      (length p ≠ num_inputs self → r = (Raise (ValueError point_dimension_msg), st))
      ∧ (length p = num_inputs self → length d ≠ num_inputs self →
         r = (Raise (ValueError seed_dimension_msg), st))
      ∧ (length p = num_inputs self →
         ((∃ e, r.1 = Raise e ∧ is_dimension_error e) ↔ length d ≠ num_inputs self)).
Proof.
  intros Hp.
  assert (∀ seed, Func_trace self point seed st = Func_trace self (ArgList p) seed st) as Hpt.
  { intros seed. unfold Func_trace, bind at 1 3, lift. by rewrite Hp. }
  split.
  - intros c. rewrite Hpt. reflexivity.
  - intros d r. subst r. rewrite Hpt.
    assert (length p ≠ num_inputs self →
            Func_trace self (ArgList p) (ArgList d) st
            = (Raise (ValueError point_dimension_msg), st)) as H1.
    { intros Hne. unfold Func_trace, bind at 1, lift. simpl.
      by rewrite decide_True. }
    assert (length p = num_inputs self → length d ≠ num_inputs self →
            Func_trace self (ArgList p) (ArgList d) st
            = (Raise (ValueError seed_dimension_msg), st)) as H2.
    { intros Heq Hne. unfold Func_trace, bind at 1, lift. simpl.
      rewrite decide_False by (intros Hx; done).
      rewrite decide_True by congruence. done. }
    split; [exact H1|]. split; [exact H2|].
    intros Heq. split.
    + intros (e & He & Hdim) Hd. by apply (trace_checked self p d st Heq Hd e He).
    + intros Hne. exists (ValueError seed_dimension_msg).
      rewrite (H2 Heq Hne). split; [done | by right].
Qed.

End Trace.

(** C7 on [lambda x: x] at the point 3: the bare direction 1 is rejected
    by the assertion, while the one-element list [[1]] is accepted. *)
Lemma trace_scalar_direction_rejected :
  Func_trace Examples.identity_func (ArgScalar 3%R) (ArgScalar 1%R) Examples.st_init
  = (Raise AssertionError, Examples.st_init)
  ∧ Func_trace Examples.identity_func (ArgScalar 3%R) (ArgList [VNum 1%R]) Examples.st_init
    = (Ok ([3%R], [1%R]), Examples.st_init).
Proof. split; reflexivity. Qed.

Lemma trace_dimension_check_witness :
  let self := Examples.identity_func in
  (∀ c, Func_trace self (ArgScalar 3%R) (ArgScalar c) Examples.st_init
        = (Raise AssertionError, Examples.st_init))
  ∧ Func_trace self (ArgScalar 3%R) (ArgList [VNum 1%R; VNum 0%R]) Examples.st_init
    = (Raise (ValueError seed_dimension_msg), Examples.st_init).
Proof.
  assert (promote_point (ArgScalar 3%R) = Ok [VNum 3%R]) as Hp by reflexivity.
  destruct (trace_dimension_check Examples.identity_func (ArgScalar 3%R) [VNum 3%R]
              Examples.st_init Hp) as [Hscalar Hlist].
  split; [exact Hscalar|].
  destruct (Hlist [VNum 1%R; VNum 0%R]) as (_ & Hseed & _).
  apply Hseed; simpl; lia.
Defined.

(* ================================================================= *)
(** ** Arity of the wrapped function *)

Section Arity.
Context {F : Type} `{PyNum F}.
Implicit Types (st : rstate F).

Lemma bind_raise {A B} (m : M F A) (k : A → M F B) st e st' :
  m st = (Raise e, st') → bind m k st = (Raise e, st').
Proof. intros Hm. unfold bind. by rewrite Hm. Qed.

Lemma seed_duals_loop (cs seed : list F) st js :
  (∀ j, j ∈ js → j < length cs) →
  ∀ zs,
    for_loop
      (fun j zs =>
         match (VNum <$> cs) !! j with
         | Some (VNum c) =>
             ret (zs ++ [VDual (mkDual c (default (lit 0) (seed !! j)))])
         | Some _ => raise AssertionError
         | None => raise IndexError
         end) js zs st
    = (Ok (zs ++ ((fun j => VDual (mkDual (default (lit 0) (cs !! j))
                                          (default (lit 0) (seed !! j)))) <$> js)),
       st).
Proof.
  induction js as [|j js IH]; intros Hjs zs; simpl.
  - by rewrite app_nil_r.
  - destruct (lookup_lt_is_Some_2 cs j) as [c Hc]; [apply Hjs; left|].
    unfold bind at 1. rewrite list_lookup_fmap, Hc. simpl.
    rewrite IH by (intros i Hi; apply Hjs; by right).
    by rewrite <- app_assoc.
Qed.

Lemma seed_duals_numeric (cs seed : list F) st :
  seed_duals (length cs) (VNum <$> cs) seed st = (Ok (dual_inputs cs seed), st).
Proof.
  unfold seed_duals. rewrite (seed_duals_loop cs seed st); [done|].
  intros j Hj%elem_of_seq. lia.
Qed.

Lemma trace_duals_loop (cs ds : list F) st js :
  (∀ j, j ∈ js → j < length cs ∧ j < length ds) →
  ∀ zs,
    for_loop
      (fun j zs =>
         let* z := trace_dual (VNum <$> cs) (VNum <$> ds) j in ret (zs ++ [z])) js zs st
    = (Ok (zs ++ ((fun j => VDual (mkDual (default (lit 0) (cs !! j))
                                          (default (lit 0) (ds !! j)))) <$> js)),
       st).
Proof.
  induction js as [|j js IH]; intros Hjs zs; simpl.
  - by rewrite app_nil_r.
  - destruct (Hjs j) as [Hc Hd]; [left|].
    destruct (lookup_lt_is_Some_2 cs j Hc) as [c Hcj].
    destruct (lookup_lt_is_Some_2 ds j Hd) as [d Hdj].
    unfold bind at 1, trace_dual. rewrite !list_lookup_fmap, Hcj, Hdj. simpl.
    rewrite IH by (intros i Hi; apply Hjs; by right).
    by rewrite <- app_assoc.
Qed.

Lemma forward_arity_mismatch self (cs : list F) st res st' :
  length cs = num_inputs self → 0 < num_inputs self →
  call (func self) (dual_inputs cs (column (np_identity (num_inputs self)) 0)) st
  = (Ok res, st') →
  is_dual_result res → arity_mismatch self res →
  _forward self (VNum <$> cs) st = (Raise AssertionError, st').
Proof.
  intros Hlen Hpos Hcall Hdual Hmis. unfold _forward.
  destruct (num_inputs self) as [|n] eqn:Hn; [lia|].
  cbn [seq for_loop]. apply bind_raise.
  pose proof (seed_duals_numeric cs (column (np_identity (S n)) 0) st) as Hseed.
  rewrite Hlen in Hseed.
  rewrite (bind_ok _ _ _ _ _ Hseed).
  rewrite (bind_ok _ _ _ _ _ Hcall).
  destruct res as [[c|z|x|]|vs]; simpl in Hdual, Hmis; try done.
  - by rewrite decide_False.
  - by rewrite decide_False.
Qed.

Lemma trace_arity_mismatch self (cs ds : list F) st res st' :
  length cs = num_inputs self → length ds = num_inputs self →
  call (func self) (dual_inputs cs ds) st = (Ok res, st') →
  is_dual_result res → arity_mismatch self res →
  Func_trace self (ArgList (VNum <$> cs)) (ArgList (VNum <$> ds)) st
  = (Raise AssertionError, st').
Proof.
  intros Hcs Hds Hcall Hdual Hmis. unfold Func_trace, bind at 1, lift. simpl.
  rewrite !length_fmap.
  rewrite decide_False by (intros Hne; done).
  rewrite decide_False by (intros Hne; congruence).
  rewrite <- Hcs.
  erewrite bind_ok; [|apply (trace_duals_loop cs ds st);
                      intros j Hj%elem_of_seq; lia].
  simpl. fold (dual_inputs cs ds).
  rewrite (bind_ok _ _ _ _ _ Hcall).
  destruct res as [[c|z|x|]|vs]; simpl in Hdual, Hmis; try done.
  - by rewrite decide_False by congruence.
  - by rewrite decide_False by congruence.
Qed.

(** C10.  [__call__] hands back whatever the wrapped function returns,
    unchanged when [num_outputs] is 1 and as [np.array] of it otherwise,
    and never compares its arity with [num_outputs].  The same mismatch
    between the returned arity and [num_outputs] is an [AssertionError]
    in forward-mode [jacobian] and in [trace]. *)
Theorem call_skips_arity_check self (point : py_arg F) (p : list (pyval F)) st :
  promote_point point = Ok p →
  length p = num_inputs self →
  Func_call self point st
  = (let* r := call (func self) p in ret (wrap_result self r)) st
  ∧ (∀ res st',
       call (func self) p st = (Ok res, st') →
       Func_call self point st = (Ok (wrap_result self res), st'))
  ∧ (∀ (cs : list F) feval res st',
       p = VNum <$> cs → 0 < num_inputs self →
       call (func self) (dual_inputs cs (column (np_identity (num_inputs self)) 0)) st
       = (Ok res, st') →
       is_dual_result res → arity_mismatch self res →
       Func_jacobian self point feval false st = (Raise AssertionError, st'))
  ∧ (∀ (cs ds : list F) res st',
       p = VNum <$> cs → length ds = num_inputs self →
       call (func self) (dual_inputs cs ds) st = (Ok res, st') →
       is_dual_result res → arity_mismatch self res →
       Func_trace self point (ArgList (VNum <$> ds)) st = (Raise AssertionError, st')).
Proof.
  intros Hp Hlen.
  assert (Func_call self point st
          = (let* r := call (func self) p in ret (wrap_result self r)) st) as Hcall.
  { unfold Func_call, bind at 1, lift. rewrite Hp.
    rewrite decide_False by (intros Hne; done).
    unfold wrap_result. by case_decide. }
  split; [exact Hcall|]. split; [|split].
  - intros res st' Hres. rewrite Hcall. by rewrite (bind_ok _ _ _ _ _ Hres).
  - intros cs feval res st' -> Hpos Hres Hdual Hmis.
    rewrite length_fmap in Hlen.
    unfold Func_jacobian, bind at 1, lift. rewrite Hp. rewrite length_fmap.
    rewrite decide_False by (intros Hne; done). simpl.
    apply bind_raise. apply bind_raise.
    by apply (forward_arity_mismatch self cs st res st').
  - intros cs ds res st' -> Hds Hres Hdual Hmis.
    rewrite length_fmap in Hlen.
    assert (Func_trace self point (ArgList (VNum <$> ds)) st
            = Func_trace self (ArgList (VNum <$> cs)) (ArgList (VNum <$> ds)) st) as ->.
    { unfold Func_trace, bind at 1 3, lift. by rewrite Hp. }
    by apply (trace_arity_mismatch self cs ds st res st').
Qed.

End Arity.

(* ================================================================= *)
(** ** The scenarios of the specification *)

Lemma wf_heapb_sound {F : Type} `{PyNum F} (h : list (rNode F)) :
  wf_heapb h = true → wf_heap h.
Proof.
  intros Hb x p Hp. destruct (decide (x < length h)) as [Hx|Hx].
  - unfold wf_heapb in Hb. rewrite forallb_forall in Hb.
    specialize (Hb x). rewrite forallb_forall in Hb.
    apply Nat.ltb_lt. apply Hb.
    + apply in_seq. lia.
    + apply list_elem_of_In. by apply elem_of_elements.
  - unfold parents_of in Hp. rewrite lookup_ge_None_2 in Hp by lia.
    by apply elem_of_empty in Hp.
Qed.

Lemma sort_nodes_topological_witness :
  ∃ l, _sort_nodes Examples.scenario2_graph 4 = Some l
       ∧ NoDup l
       ∧ (∀ x, x ∈ l ↔ reachable Examples.scenario2_graph 4 x)
       ∧ (∀ i x p, l !! i = Some x → p ∈ parents_of Examples.scenario2_graph x →
                   ∃ j, l !! j = Some p ∧ j < i).
Proof.
  apply sort_nodes_topological.
  - apply wf_heapb_sound. vm_compute. reflexivity.
  - vm_compute. lia.
Defined.


Lemma call_skips_arity_check_witness :
  Func_call Examples.declared_two (ArgScalar 6%R) Examples.st_init
  = (Ok (NpArray (Single (VNum (6 + 1)%R))), Examples.st_init)
  ∧ Func_jacobian Examples.declared_two (ArgScalar 6%R) false false Examples.st_init
    = (Raise AssertionError, Examples.st_init)
  ∧ Func_trace Examples.declared_two (ArgScalar 6%R) (ArgList [VNum 1%R]) Examples.st_init
    = (Raise AssertionError, Examples.st_init).
Proof.
  destruct (call_skips_arity_check Examples.declared_two (ArgScalar 6%R) [VNum 6%R]
              Examples.st_init eq_refl eq_refl) as (_ & Hcall & Hjac & Htrace).
  split; [|split].
  - apply Hcall. reflexivity.
  - eapply (Hjac [6%R]); [reflexivity | simpl; lia | reflexivity | exact I |].
    simpl. lia.
  - eapply (Htrace [6%R] [1%R]); [reflexivity | reflexivity | reflexivity | exact I |].
    simpl. lia.
Defined.

(* ================================================================= *)
(** ** The derivative a graph denotes: basic facts *)

Section TangentFacts.
Context {F : Type} `{PyNum F}.
Implicit Types (h : list (rNode F)) (seed : nat → F).

Lemma wf_targets h x t :
  wf_heap h → wf_rules h → t ∈ targets (backward_func_of h x) → t < x.
Proof. intros Hwf Hr Ht. apply (Hwf x t). by apply rule_targets. Qed.

Lemma tangent_fuel_enough h seed :
  wf_heap h → wf_rules h →
  ∀ f f' x, x < f → x < f' → tangent_fuel f h seed x = tangent_fuel f' h seed x.
Proof.
  intros Hwf Hr. induction f as [|f IH]; intros [|f'] x Hf Hf'; try lia. simpl.
  pose proof (wf_targets h x) as Ht.
  destruct (backward_func_of h x) as [|op s o r|c s r|g a r|b a r]; simpl in Ht; [done|..].
  - assert (s < x) by (apply Ht; try done; left).
    assert (o < x) by (apply Ht; try done; right; left).
    rewrite (IH f' s), (IH f' o) by lia. done.
  - assert (s < x) by (apply Ht; try done; left). by rewrite (IH f' s) by lia.
  - assert (a < x) by (apply Ht; try done; left). by rewrite (IH f' a) by lia.
  - assert (a < x) by (apply Ht; try done; left). by rewrite (IH f' a) by lia.
Qed.

(** The equation of [tangent] on a well-formed store. *)
Lemma tangent_unfold h seed x :
  wf_heap h → wf_rules h →
  tangent h seed x
  = match backward_func_of h x with
    | no_op => seed x
    | bw_binary op s o _ =>
        (d_self op (val_of h s) (val_of h o) * tangent h seed s
         + d_other op (val_of h s) (val_of h o) * tangent h seed o)%num
    | bw_rpow c s _ => (c ** val_of h s * np_log c * tangent h seed s)%num
    | bw_unary f a _ => (d_unary f (val_of h a) * tangent h seed a)%num
    | bw_log_base b a _ => (lit 1 / (val_of h a * np_log b) * tangent h seed a)%num
    end.
Proof.
  intros Hwf Hr. unfold tangent at 1. simpl.
  pose proof (fun t => wf_targets h x t Hwf Hr) as Ht.
  destruct (backward_func_of h x) as [|op s o r|c s r|g a r|b a r]; simpl in Ht; [done|..].
  - assert (s < x) by (apply Ht; left).
    assert (o < x) by (apply Ht; right; left).
    unfold tangent.
    rewrite (tangent_fuel_enough h seed Hwf Hr x (S s) s) by lia.
    rewrite (tangent_fuel_enough h seed Hwf Hr x (S o) o) by lia. done.
  - assert (s < x) by (apply Ht; left). unfold tangent.
    by rewrite (tangent_fuel_enough h seed Hwf Hr x (S s) s) by lia.
  - assert (a < x) by (apply Ht; left). unfold tangent.
    by rewrite (tangent_fuel_enough h seed Hwf Hr x (S a) a) by lia.
  - assert (a < x) by (apply Ht; left). unfold tangent.
    by rewrite (tangent_fuel_enough h seed Hwf Hr x (S a) a) by lia.
Qed.

(** [tangent] reads closures and values only. *)
Lemma tangent_fuel_ext h h' seed f x :
  (∀ y, backward_func_of h' y = backward_func_of h y) →
  (∀ y, val_of h' y = val_of h y) →
  tangent_fuel f h' seed x = tangent_fuel f h seed x.
Proof.
  intros Hb Hv. revert x. induction f as [|f IH]; intros x; simpl; [done|].
  rewrite Hb. destruct (backward_func_of h x); rewrite ?Hv, ?IH; done.
Qed.

Lemma tangent_same_shape h h' seed x :
  same_shape h h' → tangent h' seed x = tangent h seed x.
Proof.
  intros Hs. apply tangent_fuel_ext.
  - intros y. by apply same_shape_backward_func.
  - intros y. by apply same_shape_val.
Qed.

Lemma backward_func_of_app_l h h2 x :
  x < length h → backward_func_of (h ++ h2) x = backward_func_of h x.
Proof. intros Hx. unfold backward_func_of. by rewrite lookup_app_l. Qed.

(** Old nodes keep their derivative when nodes are added. *)
Lemma tangent_fuel_prefix h new seed :
  wf_heap h → wf_rules h →
  ∀ f x, x < length h → tangent_fuel f (h ++ new) seed x = tangent_fuel f h seed x.
Proof.
  intros Hwf Hr. induction f as [|f IH]; intros x Hx; simpl; [done|].
  rewrite backward_func_of_app_l by done.
  pose proof (fun t => wf_targets h x t Hwf Hr) as Ht.
  destruct (backward_func_of h x) as [|op s o r|c s r|g a r|b a r]; simpl in Ht; [done|..].
  - assert (s < x) by (apply Ht; left).
    assert (o < x) by (apply Ht; right; left).
    rewrite !val_of_app_l, !IH by lia. done.
  - assert (s < x) by (apply Ht; left). rewrite !val_of_app_l, !IH by lia. done.
  - assert (a < x) by (apply Ht; left). rewrite !val_of_app_l, !IH by lia. done.
  - assert (a < x) by (apply Ht; left). rewrite !val_of_app_l, !IH by lia. done.
Qed.

Lemma tangent_prefix h new seed x :
  wf_heap h → wf_rules h → x < length h →
  tangent (h ++ new) seed x = tangent h seed x.
Proof. intros Hwf Hr Hx. by apply tangent_fuel_prefix. Qed.

End TangentFacts.

(* ================================================================= *)
(** ** The backward pass computes the derivative the graph denotes *)

Section BackwardTangent.
Implicit Types (h : list (rNode R)) (T : nat → R).
Local Open Scope R_scope.

Local Ltac rsimpl :=
  cbn [fadd fsub fmul fdiv fneg lit RealNum.R_PyNum] in *.

Lemma adjoint_sum_accumulate_out h T l x d :
  x ∉ l → adjoint_sum (accumulate x d h) T l = adjoint_sum h T l.
Proof.
  induction l as [|v l IH]; intros Hx; simpl; [done|].
  apply not_elem_of_cons in Hx as [Hne Hx].
  rewrite IH by done. by rewrite der_of_accumulate_ne.
Qed.

Lemma adjoint_sum_accumulate_in h T l x d :
  NoDup l → x ∈ l → (x < length h)%nat →
  adjoint_sum (accumulate x d h) T l = adjoint_sum h T l + d * T x.
Proof.
  induction l as [|v l IH]; intros Hnd Hx Hlt; simpl.
  - by apply elem_of_nil in Hx.
  - apply NoDup_cons in Hnd as [Hv Hnd]. rsimpl.
    destruct (decide (x = v)) as [->|Hne].
    + rewrite adjoint_sum_accumulate_out by done.
      rewrite der_of_accumulate_eq by done. rsimpl. ring.
    + apply elem_of_cons in Hx as [?|Hx]; [done|].
      rewrite IH by done. rewrite der_of_accumulate_ne by done. ring.
Qed.

(** With every adjoint of [l] zero except that of [r], which is 1, the sum
    is the derivative of [r]. *)
Lemma adjoint_sum_seeded h T l r :
  NoDup l → r ∈ l → der_of h r = 1 → (∀ v, v ∈ l → v ≠ r → der_of h v = 0) →
  adjoint_sum h T l = T r.
Proof.
  induction l as [|v l IH]; intros Hnd Hr H1 H0; simpl.
  - by apply elem_of_nil in Hr.
  - apply NoDup_cons in Hnd as [Hv Hnd]. rsimpl.
    destruct (decide (v = r)) as [->|Hne].
    + rewrite H1.
      assert (adjoint_sum h T l = 0) as ->; [|ring].
      clear IH Hr. induction l as [|w l IHl]; simpl; [done|]. rsimpl.
      rewrite IHl.
      * rewrite (H0 w); [ring|by right; left|]. intros ->. apply Hv. left.
      * intros Hin. apply Hv. by right.
      * by apply NoDup_cons in Hnd as [_ ?].
      * intros u Hu. apply H0. apply elem_of_cons in Hu as [->|Hu]; [left|].
        right. by right.
    + apply elem_of_cons in Hr as [?|Hr]; [done|].
      rewrite (H0 v) by (done || left). rewrite IH; [ring|done..|].
      intros u Hu. apply H0. by right.
Qed.

Lemma length_accumulate h x d : length (accumulate x d h) = length h.
Proof. apply length_write_der. Qed.

Lemma rule_result h x :
  wf_rules h →
  match backward_func_of h x with
  | no_op => True
  | bw_binary _ _ _ r | bw_rpow _ _ r | bw_unary _ _ r | bw_log_base _ _ r => r = x
  end.
Proof.
  intros Hr. unfold backward_func_of. destruct (h !! x) as [nd|] eqn:Hx; [|done].
  specialize (Hr x nd Hx). unfold rule_ok in Hr. simpl.
  destruct (backward_func nd); [done|..]; by destruct Hr.
Qed.

(** Calling the closure of [v] moves the term of [v] in the sum over to
    the operands of [v]. *)
Lemma call_rule_sum h0 hk seed l v :
  wf_heap h0 → wf_rules h0 → same_shape h0 hk →
  NoDup l → (v < length h0)%nat →
  (∀ t, t ∈ targets (backward_func_of h0 v) → t ∈ l) →
  adjoint_sum (call_backward_func (backward_func_of h0 v) hk) (tangent h0 seed) l
  = adjoint_sum hk (tangent h0 seed) l
    + der_of hk v * match backward_func_of h0 v with
                    | no_op => 0
                    | _ => tangent h0 seed v
                    end.
Proof.
  intros Hwf Hr Hshape Hnd Hv Hin.
  pose proof (same_shape_length _ _ Hshape) as Hlen.
  pose proof (fun t => wf_targets h0 v t Hwf Hr) as Hlt.
  pose proof (rule_result h0 v Hr) as Hres.
  rewrite (tangent_unfold h0 seed v Hwf Hr).
  destruct (backward_func_of h0 v) as [|op s o r|c s r|g a r|b a r];
    simpl in Hin, Hlt |- *; subst; rsimpl.
  - ring.
  - assert (s < v)%nat by (apply Hlt; left).
    assert (o < v)%nat by (apply Hlt; right; left).
    rewrite adjoint_sum_accumulate_in;
      [|done|apply Hin; right; left|rewrite length_accumulate; lia].
    rewrite adjoint_sum_accumulate_in; [|done|apply Hin; left|lia].
    rewrite !val_of_accumulate. rewrite (der_of_accumulate_ne s v) by lia.
    rewrite !(same_shape_val _ _ _ Hshape). rsimpl. ring.
  - assert (s < v)%nat by (apply Hlt; left).
    rewrite adjoint_sum_accumulate_in; [|done|apply Hin; left|lia].
    rewrite !(same_shape_val _ _ _ Hshape). rsimpl. ring.
  - assert (a < v)%nat by (apply Hlt; left).
    rewrite adjoint_sum_accumulate_in; [|done|apply Hin; left|lia].
    rewrite !(same_shape_val _ _ _ Hshape). rsimpl. ring.
  - assert (a < v)%nat by (apply Hlt; left).
    rewrite adjoint_sum_accumulate_in; [|done|apply Hin; left|lia].
    rewrite !(same_shape_val _ _ _ Hshape). rsimpl. ring.
Qed.

Lemma parents_later_tail h v l : parents_later h (v :: l) → parents_later h l.
Proof.
  intros Hl i w p Hi Hp. destruct (Hl (S i) w p Hi Hp) as (j & Hj & Hlt).
  destruct j as [|j]; [lia|]. exists j. split; [done|lia].
Qed.

Lemma parents_later_head h v l p :
  parents_later h (v :: l) → p ∈ parents_of h v → p ∈ l.
Proof.
  intros Hl Hp. destruct (Hl 0%nat v p eq_refl Hp) as (j & Hj & Hlt).
  destruct j as [|j]; [lia|]. by eapply list_elem_of_lookup_2.
Qed.

Lemma unit_seed_self base i : unit_seed (F := R) base i (base + i) = 1.
Proof. unfold unit_seed. by rewrite decide_True. Qed.

Lemma unit_seed_other base i x : x ≠ (base + i)%nat → unit_seed (F := R) base i x = 0.
Proof. intros Hne. unfold unit_seed. by rewrite decide_False. Qed.

(** The invariant of the walk, for the column [i]: the entry of the row
    plus the sum over the nodes still to visit stays the same. *)
Lemma walk_sum base n cs st i l :
  traced base n cs st → (i < n)%nat →
  ∀ row hk,
    same_shape (heap st) hk → length row = n → NoDup l →
    (∀ v, v ∈ l → (base ≤ v < length (heap st))%nat) →
    parents_later (heap st) l →
    ((base + i)%nat ∈ l → row !! i = Some 0) →
    (foldl (backward_step n) (row, hk) l).1 !! i
    = Some (adjoint_sum hk (tangent (heap st) (unit_seed base i)) l
            + default 0 (row !! i)).
Proof.
  intros Htr Hi. destruct (traced_wf _ _ _ _ Htr) as [Hwf Hr].
  induction l as [|v l IH]; intros row hk Hshape Hlen Hnd Hrange Hlater Hrow.
  - simpl. destruct (lookup_lt_is_Some_2 row i) as [y Hy]; [lia|].
    rewrite Hy. simpl. f_equal. ring.
  - apply NoDup_cons in Hnd as [Hv Hnd].
    assert (base ≤ v < length (heap st))%nat as Hvr by (apply Hrange; left).
    pose proof (traced_names _ _ _ _ Htr v Hvr) as Hname.
    cbn [foldl]. unfold backward_step at 2.
    rewrite (same_shape_name _ _ v Hshape), (same_shape_backward_func _ _ v Hshape).
    set (row1 := if decide (name_of (heap st) v < n)%nat
                 then <[name_of (heap st) v := der_of hk v]> row else row).
    set (h1 := call_backward_func (backward_func_of (heap st) v) hk).
    assert (length row1 = n) as Hlen1.
    { unfold row1. case_decide; [by rewrite length_insert | done]. }
    assert (same_shape (heap st) h1) as Hshape1.
    { eapply same_shape_trans; [exact Hshape | apply same_shape_call_backward_func]. }
    assert (adjoint_sum h1 (tangent (heap st) (unit_seed base i)) l
            + default 0 (row1 !! i)
            = der_of hk v * tangent (heap st) (unit_seed base i) v
              + adjoint_sum hk (tangent (heap st) (unit_seed base i)) l
              + default 0 (row !! i)) as Hstep.
    { unfold h1. rewrite (call_rule_sum (heap st) hk _ l v Hwf Hr Hshape Hnd); [|lia|].
      2:{ intros t Ht. eapply parents_later_head; [exact Hlater|].
          by apply rule_targets. }
      destruct (decide (v = base + i)%nat) as [->|Hne].
      - destruct (traced_inputs _ _ _ _ Htr i Hi) as [Hrule _].
        rewrite (tangent_unfold _ _ _ Hwf Hr), Hrule, unit_seed_self.
        assert (name_of (heap st) (base + i) = i) as Hn by lia.
        unfold row1. rewrite Hn, decide_True by done.
        rewrite list_lookup_insert_eq by lia.
        rewrite Hrow by left. simpl. ring.
      - assert (row1 !! i = row !! i) as ->.
        { unfold row1. case_decide; [|done].
          apply list_lookup_insert_ne. lia. }
        assert (match backward_func_of (heap st) v with
                | no_op => 0
                | _ => tangent (heap st) (unit_seed base i) v
                end = tangent (heap st) (unit_seed base i) v) as ->; [|ring].
        rewrite (tangent_unfold _ _ v Hwf Hr).
        destruct (backward_func_of (heap st) v); try done.
        by rewrite unit_seed_other. }
    rewrite IH; try done.
    + f_equal. exact Hstep.
    + intros w Hw. apply Hrange. by right.
    + by eapply parents_later_tail.
    + intros Hin. assert (v ≠ base + i)%nat as Hne by (intros ->; done).
      unfold row1. case_decide.
      * rewrite list_lookup_insert_ne by lia. apply Hrow. by right.
      * apply Hrow. by right.
Qed.

Lemma wf_heap_same_shape h h' : same_shape h h' → wf_heap h → wf_heap h'.
Proof.
  intros Hs Hwf x p Hp. apply (Hwf x p). by rewrite <- (same_shape_parents _ _ x Hs).
Qed.

Lemma reachable_same_shape h h' x y : same_shape h h' → reachable h' x y → reachable h x y.
Proof.
  intros Hs Hr. induction Hr as [|a b c Hab _ IH]; [apply rtc_refl|].
  eapply rtc_l; [|exact IH]. simpl. by rewrite <- (same_shape_parents _ _ a Hs).
Qed.

Lemma traced_reachable base n cs st x y :
  traced base n cs st → (base ≤ x)%nat → reachable (heap st) x y → (base ≤ y)%nat.
Proof.
  intros Htr Hx Hr. induction Hr as [|a b c Hab _ IH]; [done|].
  apply IH. by eapply (traced_closed _ _ _ _ Htr a b).
Qed.

Lemma NoDup_reverse_2 (l : list nat) : NoDup l → NoDup (reverse l).
Proof. by rewrite reverse_Permutation. Qed.

Lemma parents_later_reverse h V l :
  topo_inv h V l → parents_later h (reverse l).
Proof.
  intros Hinv i v p Hi Hp.
  apply reverse_lookup_Some in Hi as [Hi Hlt].
  assert (v ∈ l) as Hv by (by eapply list_elem_of_lookup_2).
  pose proof (topo_parents _ _ _ Hinv v p Hv Hp) as Hbefore.
  assert (p ∈ l) as [j Hj]%list_elem_of_lookup.
  { destruct Hbefore as (l1 & l2 & -> & Hb). apply elem_of_app. by left. }
  pose proof (before_lookup l p v _ j (topo_nodup _ _ _ Hinv) Hbefore Hi Hj) as Hji.
  pose proof (lookup_lt_Some _ _ _ Hj) as Hjl.
  exists (length l - S j)%nat. split; [|lia].
  apply reverse_lookup_Some. split; [|lia].
  by replace (length l - S (length l - S j))%nat with j by lia.
Qed.

(** On the store of a reverse-mode evaluation the backward pass from [r]
    returns, in column [i], the derivative of [r] that the graph denotes
    for the seed of the [i]-th input. *)
Lemma backward_tangent base n cs st h r :
  traced base n cs st → same_shape (heap st) h →
  (base ≤ r < length (heap st))%nat →
  ∃ h',
    backward r n h
    = Some ((fun i => tangent (heap st) (unit_seed base i) r) <$> seq 0 n, h')
    ∧ same_shape (heap st) h'.
Proof.
  intros Htr Hshape Hr. destruct (traced_wf _ _ _ _ Htr) as [Hwf Hrules].
  pose proof (wf_heap_same_shape _ _ Hshape Hwf) as Hwfh.
  pose proof (same_shape_length _ _ Hshape) as Hlen.
  destruct (sort_nodes_post h r Hwfh) as (l & Heq & Hinv & Hin & Hreach & _); [lia|].
  set (h0 := write_der r (lit 1) (zero_adjoints l h)).
  assert (same_shape h h0) as Hshape0.
  { eapply same_shape_trans; [apply same_shape_zero_adjoints | apply same_shape_write_der]. }
  set (s' := foldl (backward_step n) (replicate n (lit 0), h0) (reverse l)).
  exists s'.2. split.
  2:{ eapply same_shape_trans; [exact Hshape|].
      eapply same_shape_trans; [exact Hshape0|]. apply same_shape_backward_loop. }
  unfold backward. rewrite Heq. fold h0. fold s'.
  rewrite (surjective_pairing s') at 1. f_equal. f_equal.
  assert (∀ v, v ∈ l → (base ≤ v < length (heap st))%nat) as Hrange.
  { intros v Hv. rewrite Forall_forall in Hreach. specialize (Hreach v Hv).
    split.
    - eapply (traced_reachable base n cs st r v Htr); [lia|].
      by eapply reachable_same_shape.
    - pose proof (reachable_le h r v Hwfh Hreach). lia. }
  assert (topo_inv (heap st) (list_to_set l) l) as Hinv0.
  { destruct Hinv as [H1 H2 H3]. split; [done|done|].
    intros x p Hx Hp. apply H3; [done|]. by rewrite (same_shape_parents _ _ x Hshape). }
  apply list_eq. intros i. destruct (decide (i < n)%nat) as [Hi|Hi].
  - unfold s'. rewrite (walk_sum base n cs st i (reverse l) Htr Hi).
    + rewrite list_lookup_fmap, lookup_seq_lt by done. simpl.
      rewrite lookup_replicate_2 by done. simpl. f_equal.
      rewrite (adjoint_sum_seeded h0 _ (reverse l) r).
      * rsimpl. ring.
      * apply NoDup_reverse_2, Hinv.
      * by apply elem_of_reverse.
      * unfold h0. apply der_of_write_der_eq. rewrite zero_adjoints_length. lia.
      * intros v Hv Hne. rewrite elem_of_reverse in Hv. unfold h0.
        rewrite der_of_write_der_ne by done.
        specialize (Hrange v Hv).
        assert (v < length h)%nat as Hvh by lia.
        exact (zero_adjoints_zero l h v Hv Hvh).
    + by eapply same_shape_trans.
    + apply length_replicate.
    + apply NoDup_reverse_2, Hinv.
    + intros v Hv. rewrite elem_of_reverse in Hv. by apply Hrange.
    + by eapply parents_later_reverse.
    + intros _. by apply lookup_replicate_2.
  - rewrite !lookup_ge_None_2; [done| |].
    + rewrite length_fmap, length_seq. lia.
    + unfold s'. rewrite backward_loop_length, length_replicate. lia.
Qed.

End BackwardTangent.

(* ================================================================= *)
(** ** Forward-mode rules against reverse-mode rules, on the reals *)

Section RuleAlgebra.
Local Open Scope R_scope.

Local Ltac rsimpl :=
  cbn [fadd fsub fmul fdiv fpow fneg lit np_log np_sin np_cos np_tan np_exp
       np_arcsin np_arccos np_arctan np_sinh np_cosh np_tanh np_sqrt
       RealNum.R_PyNum real dual] in *.

Lemma Rpow_2 (b : R) : RealNum.Rpow b 2 = b * b.
Proof.
  unfold RealNum.Rpow. destruct (Rlt_dec 0 b) as [Hb|Hb].
  - replace 2 with (INR 2) by (simpl; lra). rewrite Rpower_pow by done. simpl. ring.
  - assert (Int_part 2 = 2%Z) as Hi.
    { symmetry. apply Int_part_spec. lra. }
    rewrite Hi. destruct (Req_dec_T 2 2) as [_|Hne]; [|lra]. simpl. ring.
Qed.

Lemma Rpow_pred (a b : R) : 0 < a → RealNum.Rpow a (b - 1) = RealNum.Rpow a b * / a.
Proof.
  intros Ha. unfold RealNum.Rpow. destruct (Rlt_dec 0 a) as [_|Hn]; [|done].
  unfold Rminus. rewrite Rpower_plus, Rpower_Ropp, Rpower_1 by done. done.
Qed.

Lemma Rinv_cancel (b : R) : b * / b * / b = / b.
Proof.
  destruct (Req_dec_T b 0) as [->|Hb].
  - rewrite Rinv_0. ring.
  - field. done.
Qed.

(** [z op w] for two dual numbers against the node built from the two
    operand nodes. *)
Lemma binary_rule_dual_dual op (a a' b b' : R) :
  (op = OpPow → 0 < a) →
  Dual_method op (mkDual a a') (DDual (mkDual b b'))
  = Ok (mkDual (binop_val (node_op op) a b)
               (d_self (node_op op) a b * a' + d_other (node_op op) a b * b')).
Proof.
  intros Hpow. destruct op; simpl; unfold Dual_sub; simpl; rsimpl; f_equal; f_equal;
    try (unfold Rdiv; ring).
  - rewrite Rpow_2. unfold Rdiv. rewrite Rinv_mult.
    transitivity (a' * (b * / b * / b) - a * b' * (/ b * / b)); [ring|].
    rewrite Rinv_cancel. ring.
  - rewrite Rpow_pred by auto. unfold Rdiv. ring.
Qed.

(** [z op c] for a dual number and a bare number against the node built
    from the operand node and the leaf of the number, whose derivative
    is 0. *)
Lemma binary_rule_dual_scalar op (a a' c : R) :
  Dual_method op (mkDual a a') (DScalar c)
  = Ok (mkDual (binop_val (node_op op) a c)
               (d_self (node_op op) a c * a' + d_other (node_op op) a c * 0)).
Proof.
  destruct op; simpl; unfold Dual_sub; simpl; rsimpl; f_equal; f_equal;
    unfold Rdiv; ring.
Qed.

(** [c op z] for a bare number on the left, for the reflected operators
    that wrap the number. *)
Lemma binary_rule_scalar_dual op (a a' c : R) :
  op ≠ OpPow →
  Dual_rmethod op (mkDual a a') (DScalar c)
  = Ok (mkDual (binop_val (node_rop op) a c)
               (d_self (node_rop op) a c * a' + d_other (node_rop op) a c * 0)).
Proof.
  intros Hop. destruct op; [..|done]; simpl;
    unfold Dual_radd, Dual_rsub, Dual_rmul; simpl; rsimpl; f_equal; f_equal;
    unfold Rdiv; ring.
Qed.

Lemma rpow_rule (a a' c : R) :
  Dual_rpow (mkDual a a') (DScalar c)
  = Ok (mkDual (fpow c a) (fpow c a * np_log c * a')).
Proof. simpl. rsimpl. f_equal. f_equal. ring. Qed.

Lemma neg_rule (a a' : R) :
  Dual_neg (mkDual a a')
  = mkDual (binop_val Mul a (lit (-1)))
           (d_self Mul a (lit (-1)) * a' + d_other Mul a (lit (-1)) * 0).
Proof. unfold Dual_neg. simpl. rsimpl. f_equal; ring. Qed.

Lemma unary_rule f (a a' : R) :
  operators.dual_part f (mkDual a a') = d_unary f a * a'.
Proof. destruct f; simpl; rsimpl; unfold Rdiv; ring. Qed.

Lemma log_base_rule (a a' b : R) :
  a' / (ln b * a) = 1 / (a * ln b) * a'.
Proof. unfold Rdiv. rewrite (Rmult_comm (ln b) a). ring. Qed.

End RuleAlgebra.

(* ================================================================= *)
(** ** Stores of one reverse-mode evaluation *)

Section Traced.
Context {F : Type} `{PyNum F}.
Implicit Types (st : rstate F) (seed : nat → F).
Variables (base n : nat) (cs : list F).

Lemma grows_refl st : grows st st.
Proof. exists []. by rewrite app_nil_r. Qed.

Lemma grows_trans st1 st2 st3 : grows st1 st2 → grows st2 st3 → grows st1 st3.
Proof.
  intros [n1 H1] [n2 H2]. exists (n1 ++ n2). by rewrite H2, H1, app_assoc.
Qed.

Lemma name_of_snoc (h : list (rNode F)) nd x :
  name_of (h ++ [nd]) x
  = if decide (x = length h) then name nd else name_of h x.
Proof.
  unfold name_of. destruct (decide (x = length h)) as [->|Hne].
  - by rewrite list_lookup_middle.
  - destruct (decide (x < length h)).
    + by rewrite lookup_app_l.
    + rewrite !lookup_ge_None_2; [done | lia |]. rewrite length_app. simpl. lia.
Qed.

(** Appending a node of the evaluation. *)
Lemma traced_snoc st nd :
  traced base n cs st →
  name nd = increment st →
  (∀ p, p ∈ parents nd → base ≤ p < length (heap st)) →
  rule_ok (length (heap st)) nd →
  traced base n cs (mk_rstate (heap st ++ [nd]) (S (increment st))).
Proof.
  intros Htr Hname Hpar Hrule.
  destruct (steps_snoc st nd Hname) as [_ Hwf]; [|done|].
  { intros p Hp. apply Hpar in Hp. lia. }
  pose proof (traced_len _ _ _ _ Htr) as Hlen.
  pose proof (traced_counter _ _ _ _ Htr) as Hcnt.
  split; simpl.
  - apply Hwf, Htr.
  - rewrite length_app. simpl. lia.
  - rewrite length_app. simpl. lia.
  - intros x p Hx. rewrite parents_of_snoc. case_decide.
    + intros Hp. apply Hpar in Hp. lia.
    + by apply (traced_closed _ _ _ _ Htr).
  - intros x. rewrite length_app. simpl. intros Hx. rewrite name_of_snoc.
    case_decide; [lia|]. apply (traced_names _ _ _ _ Htr). lia.
  - intros j Hj. destruct (traced_inputs _ _ _ _ Htr j Hj) as [Hb Hv].
    rewrite backward_func_of_app_l, val_of_app_l by lia. done.
Qed.

Lemma val_of_snoc (h : list (rNode F)) nd : val_of (h ++ [nd]) (length h) = val nd.
Proof. unfold val_of. by rewrite list_lookup_middle. Qed.

Lemma backward_func_of_snoc (h : list (rNode F)) nd :
  backward_func_of (h ++ [nd]) (length h) = backward_func nd.
Proof. unfold backward_func_of. by rewrite list_lookup_middle. Qed.

Lemma corresponds_mono seed st st' vd vn :
  traced base n cs st → grows st st' →
  corresponds base seed st vd vn → corresponds base seed st' vd vn.
Proof.
  intros Htr [new Hnew] Hc. destruct (traced_wf _ _ _ _ Htr) as [Hwf Hr].
  destruct vd as [c|z|x|], vn as [c'|z'|x'|]; simpl in *; try done.
  destruct Hc as (Hx & Hv & Hd). rewrite Hnew.
  rewrite length_app, val_of_app_l, tangent_prefix by (done || lia).
  split; [lia|done].
Qed.

Lemma corresponds_env_mono seed st st' envd envn :
  traced base n cs st → grows st st' →
  Forall2 (corresponds base seed st) envd envn →
  Forall2 (corresponds base seed st') envd envn.
Proof.
  intros Htr Hg Henv. eapply Forall2_impl; [exact Henv|].
  intros vd vn. by apply corresponds_mono.
Qed.

End Traced.

(* ================================================================= *)
(** ** Forward mode against reverse mode: the operators *)

Section SimulationOperators.
Implicit Types (st sd : rstate R).
Variables (base n : nat) (cs : list R) (i : nat).
Hypothesis Hi : i < n.
Local Open Scope R_scope.

Local Abbreviation seed := (unit_seed (F := R) base i).
Local Abbreviation T h := (tangent h (unit_seed (F := R) base i)).
Local Abbreviation rel := (corresponds base (unit_seed (F := R) base i)).

Local Ltac rsimpl :=
  cbn [fadd fsub fmul fdiv fpow fneg lit np_log RealNum.R_PyNum real dual] in *.

Lemma sim_ret {A B} (Rel : rstate R → A → B → Prop) a b sd st :
  traced base n cs st → Rel st a b →
  simulates base n cs Rel (ret a) (ret b) sd st.
Proof. intros Htr HR. split; [done|]. split; [done|]. split; [apply grows_refl|done]. Qed.

Lemma sim_raise {A B} (Rel : rstate R → A → B → Prop) e sd st :
  traced base n cs st →
  simulates base n cs Rel (raise e) (raise e) sd st.
Proof. intros Htr. split; [done|]. split; [done|]. split; [apply grows_refl|done]. Qed.

Lemma sim_bind {A B A' B'} (Rel : rstate R → A → B → Prop)
    (Rel' : rstate R → A' → B' → Prop)
    (md : M R A) (mn : M R B) (kd : A → M R A') (kn : B → M R B') sd st :
  simulates base n cs Rel md mn sd st →
  (∀ a b st', md sd = (Ok a, sd) → mn st = (Ok b, st') →
              traced base n cs st' → grows st st' → Rel st' a b →
              simulates base n cs Rel' (kd a) (kn b) sd st') →
  simulates base n cs Rel' (bind md kd) (bind mn kn) sd st.
Proof.
  intros (Hs0 & Htr & Hg & Hag) Hk. unfold simulates, bind in *.
  destruct (md sd) as [[a|e] sd'], (mn st) as [[b|e'] st']; simpl in *; subst; try done.
  destruct (Hk a b st' eq_refl eq_refl Htr Hg Hag) as (Hs0' & Htr' & Hg' & Hag').
  split; [done|]. split; [done|]. split; [by eapply grows_trans|done].
Qed.

(** The shape every operator case takes: a dual number on one side, a new
    node on the other, with equal value and derivative. *)
Lemma sim_dual_node (z : DualNumber R) (r : nat) st st' sd
    (md mn : M R (pyval R)) :
  md sd = (Ok (VDual z), sd) → mn st = (Ok (VNode r), st') →
  traced base n cs st' → grows st st' →
  (base ≤ r < length (heap st'))%nat →
  real z = val_of (heap st') r → dual z = T (heap st') r →
  simulates base n cs rel md mn sd st.
Proof.
  intros Hd Hn Htr Hg Hr Hv Ht. unfold simulates. rewrite Hd, Hn. simpl.
  split; [done|]. split; [done|]. split; [done|]. done.
Qed.

Lemma leaf_traced (c : R) st :
  traced base n cs st →
  let st' := mk_rstate (heap st ++ [mk_rNode c (lit 0) no_op (OpStr "") ∅ (increment st)])
                       (S (increment st)) in
  traced base n cs st'
  ∧ val_of (heap st') (length (heap st)) = c
  ∧ T (heap st') (length (heap st)) = 0.
Proof.
  intros Htr st'.
  assert (traced base n cs st') as Htr'.
  { apply traced_snoc; simpl; done. }
  split; [done|]. split; [apply val_of_snoc|].
  destruct (traced_wf _ _ _ _ Htr') as [Hwf Hr].
  rewrite (tangent_unfold _ _ _ Hwf Hr). subst st'. simpl.
  rewrite backward_func_of_snoc. simpl.
  apply unit_seed_other. pose proof (traced_len _ _ _ _ Htr). lia.
Qed.

Lemma node_traced st nd :
  traced base n cs st →
  name nd = increment st →
  (∀ p, p ∈ parents nd → (base ≤ p < length (heap st))%nat) →
  rule_ok (length (heap st)) nd →
  let st' := mk_rstate (heap st ++ [nd]) (S (increment st)) in
  traced base n cs st'
  ∧ grows st st'
  ∧ val_of (heap st') (length (heap st)) = val nd
  ∧ T (heap st') (length (heap st))
    = match backward_func nd with
      | no_op => seed (length (heap st))
      | bw_binary op s o _ =>
          d_self op (val_of (heap st) s) (val_of (heap st) o) * T (heap st) s
          + d_other op (val_of (heap st) s) (val_of (heap st) o) * T (heap st) o
      | bw_rpow b s _ => fpow b (val_of (heap st) s) * np_log b * T (heap st) s
      | bw_unary f a _ => d_unary f (val_of (heap st) a) * T (heap st) a
      | bw_log_base b a _ => 1 / (val_of (heap st) a * np_log b) * T (heap st) a
      end.
Proof.
  intros Htr Hname Hps Hrule st'.
  assert (traced base n cs st') as Htr' by (by apply traced_snoc).
  split; [done|]. split; [by eexists|]. split; [apply val_of_snoc|].
  destruct (traced_wf _ _ _ _ Htr') as [Hwf' Hr'].
  destruct (traced_wf _ _ _ _ Htr) as [Hwf Hr].
  rewrite (tangent_unfold _ _ _ Hwf' Hr'). subst st'. simpl.
  rewrite backward_func_of_snoc.
  unfold rule_ok in Hrule.
  assert (∀ p, p ∈ parents nd → (p < length (heap st))%nat) as Hlt
    by (intros p Hp; apply Hps in Hp; lia).
  destruct (backward_func nd) as [|bop s o r|b s r|f a r|b a r]; [done|..];
    destruct Hrule as [_ Hpar]; rewrite Hpar in Hlt.
  - assert (s < length (heap st))%nat by (apply Hlt; set_unfold; auto).
    assert (o < length (heap st))%nat by (apply Hlt; set_unfold; auto).
    rewrite !val_of_app_l, !tangent_prefix by done. done.
  - assert (s < length (heap st))%nat by (apply Hlt; set_unfold; auto).
    rewrite !val_of_app_l, !tangent_prefix by done. done.
  - assert (a < length (heap st))%nat by (apply Hlt; set_unfold; auto).
    rewrite !val_of_app_l, !tangent_prefix by done. done.
  - assert (a < length (heap st))%nat by (apply Hlt; set_unfold; auto).
    rewrite !val_of_app_l, !tangent_prefix by done. done.
Qed.

Lemma sim_make_binary op s o (z w dres : DualNumber R) st sd (md : M R (pyval R)) :
  traced base n cs st →
  rel st (VDual z) (VNode s) → rel st (VDual w) (VNode o) →
  md sd = (Ok (VDual dres), sd) →
  real dres = binop_val op (real z) (real w) →
  dual dres = d_self op (real z) (real w) * dual z
              + d_other op (real z) (real w) * dual w →
  simulates base n cs rel md
    (bind (make_binary op s o) (fun r => ret (VNode r))) sd st.
Proof.
  intros Htr (Hs & Hvs & Hts) (Ho & Hvo & Hto) Hmd Hreal Hdual.
  set (nd := mk_rNode (binop_val op (val_of (heap st) s) (val_of (heap st) o)) (lit 0)
                      (bw_binary op s o (length (heap st))) (binop_tag op)
                      (list_to_set [s; o]) (increment st)).
  destruct (node_traced st nd Htr) as (Htr' & Hg & Hv & Ht); [done| |done|].
  { intros p. set_unfold. intros [->|[->|[]]]; done. }
  eapply (sim_dual_node dres (length (heap st))); [exact Hmd| |exact Htr'|exact Hg|..].
  - unfold bind. by rewrite make_binary_state.
  - simpl. rewrite length_app. simpl. pose proof (traced_len _ _ _ _ Htr). lia.
  - rewrite Hv, Hreal. simpl. by rewrite Hvs, Hvo.
  - rewrite Ht, Hdual. simpl. by rewrite Hvs, Hvo, Hts, Hto.
Qed.

Lemma sim_wrap_scalar op s (c : R) (z dres : DualNumber R) st sd (md : M R (pyval R)) :
  traced base n cs st →
  rel st (VDual z) (VNode s) →
  md sd = (Ok (VDual dres), sd) →
  real dres = binop_val op (real z) c →
  dual dres = d_self op (real z) c * dual z + d_other op (real z) c * 0 →
  simulates base n cs rel md
    (bind (bind (new_rNode c [] (OpStr "")) (make_binary op s))
          (fun r => ret (VNode r))) sd st.
Proof.
  intros Htr (Hs & Hvs & Hts) Hmd Hreal Hdual.
  destruct (leaf_traced c st Htr) as (Htr1 & Hv1 & Ht1).
  set (st1 := mk_rstate
                (heap st ++ [mk_rNode c (lit 0) no_op (OpStr "") ∅ (increment st)])
                (S (increment st))) in *.
  assert (grows st st1) as Hg1 by (by eexists).
  assert (rel st1 (VDual z) (VNode s)) as Hrel1.
  { apply (corresponds_mono base n cs _ st); try done. }
  assert (rel st1 (VDual (mkDual c 0)) (VNode (length (heap st)))) as Hrel2.
  { cbn [corresponds real dual]. split; [|by rewrite Hv1, Ht1].
    subst st1. cbn [heap]. rewrite length_app. simpl.
    pose proof (traced_len _ _ _ _ Htr). lia. }
  assert (bind (new_rNode c [] (OpStr "")) (make_binary op s) st
          = make_binary op s (length (heap st)) st1) as Hstep by reflexivity.
  pose proof (sim_make_binary op s (length (heap st)) z (mkDual c 0) dres st1 sd md
                Htr1 Hrel1 Hrel2 Hmd Hreal Hdual) as (Hsd & Htr' & Hg & Hag).
  unfold simulates. unfold bind at 1. rewrite Hstep.
  unfold bind in Hsd, Htr', Hg, Hag.
  split; [done|]. split; [done|]. split; [by eapply grows_trans|done].
Qed.

Lemma sim_rpow s (c : R) (z : DualNumber R) st sd (md : M R (pyval R)) :
  traced base n cs st →
  rel st (VDual z) (VNode s) →
  md sd = (Ok (VDual (mkDual (fpow c (real z)) (fpow c (real z) * np_log c * dual z))), sd) →
  simulates base n cs rel md
    (bind (rNode_rpow s (NScalar c)) (fun r => ret (VNode r))) sd st.
Proof.
  intros Htr (Hs & Hvs & Hts) Hmd.
  set (nd := mk_rNode (fpow c (val_of (heap st) s)) (lit 0)
                      (bw_rpow c s (length (heap st))) (OpRPow c)
                      (list_to_set [s]) (increment st)).
  destruct (node_traced st nd Htr) as (Htr' & Hg & Hv & Ht); [done| |done|].
  { intros p. set_unfold. intros [->|[]]; done. }
  eapply (sim_dual_node _ (length (heap st))); [exact Hmd| |exact Htr'|exact Hg|..].
  - unfold bind at 1. by rewrite rpow_state.
  - simpl. rewrite length_app. simpl. pose proof (traced_len _ _ _ _ Htr). lia.
  - rewrite Hv. simpl. by rewrite Hvs.
  - rewrite Ht. simpl. by rewrite Hvs, Hts.
Qed.

Lemma rNode_method_scalar op s (c : R) :
  rNode_method op s (NScalar c)
  = bind (new_rNode c [] (OpStr "")) (make_binary (node_op op) s).
Proof. by destruct op. Qed.

Lemma rNode_method_node op s o :
  rNode_method (F := R) op s (NNode o) = make_binary (node_op op) s o.
Proof. by destruct op. Qed.

Lemma rNode_rmethod_scalar op s (c : R) :
  op ≠ OpPow →
  rNode_rmethod op s (NScalar c)
  = bind (new_rNode c [] (OpStr "")) (make_binary (node_rop op) s).
Proof. by destruct op. Qed.

Lemma sim_apply_arith op (ad an bd bn : pyval R) st sd :
  traced base n cs st →
  rel st ad an → rel st bd bn →
  (op = OpPow →
   match ad, bd with
   | VDual z, VDual _ => 0 < real z
   | _, _ => True
   end) →
  simulates base n cs rel (apply_arith op ad bd) (apply_arith op an bn) sd st.
Proof.
  intros Htr Ha Hb Hpow.
  destruct ad as [x|[a a']|?|], an as [x'|?|s|]; simpl in Ha; try done;
    destruct bd as [y|[b b']|?|], bn as [y'|?|o|]; simpl in Hb; try done; subst.
  - by apply sim_ret.
  - (* number op dual *)
    unfold apply_arith.
    destruct (decide (op = OpPow)) as [->|Hop].
    + apply (sim_rpow o x' (mkDual b b')); [done|done|].
      unfold bind, lift. cbn [Dual_rmethod]. rewrite rpow_rule. reflexivity.
    + rewrite rNode_rmethod_scalar by done.
      eapply (sim_wrap_scalar (node_rop op) o x' (mkDual b b')
                (mkDual (binop_val (node_rop op) b x')
                        (d_self (node_rop op) b x' * b' + d_other (node_rop op) b x' * 0)));
        [done|done| |reflexivity|reflexivity].
      unfold bind, lift. by rewrite binary_rule_scalar_dual.
  - (* dual op number *)
    unfold apply_arith. cbn [as_node_operand]. rewrite rNode_method_scalar.
    eapply (sim_wrap_scalar (node_op op) s y' (mkDual a a')
              (mkDual (binop_val (node_op op) a y')
                      (d_self (node_op op) a y' * a' + d_other (node_op op) a y' * 0)));
      [done|done| |reflexivity|reflexivity].
    unfold bind, lift. cbn [as_dual_operand]. by rewrite binary_rule_dual_scalar.
  - (* dual op dual *)
    unfold apply_arith. cbn [as_node_operand]. rewrite rNode_method_node.
    assert (op = OpPow → 0 < a) as Hpos by (intros Hop; by apply Hpow).
    eapply (sim_make_binary (node_op op) s o (mkDual a a') (mkDual b b')
              (mkDual (binop_val (node_op op) a b)
                      (d_self (node_op op) a b * a' + d_other (node_op op) a b * b')));
      [done|done|done| |reflexivity|reflexivity].
    unfold bind, lift. cbn [as_dual_operand]. by rewrite binary_rule_dual_dual.
Qed.

Lemma sim_apply_neg (ad an : pyval R) st sd :
  traced base n cs st → rel st ad an →
  simulates base n cs rel (apply_neg ad) (apply_neg an) sd st.
Proof.
  intros Htr Ha. destruct ad as [x|[a a']|?|], an as [x'|?|s|]; simpl in Ha; try done; subst.
  - by apply sim_ret.
  - eapply (sim_wrap_scalar Mul s (lit (-1)) (mkDual a a')); [done|done| | |].
    + unfold apply_neg, ret. rewrite neg_rule. reflexivity.
    + reflexivity.
    + reflexivity.
Qed.

Lemma sim_elementary f (ad an : pyval R) st sd :
  traced base n cs st → rel st ad an →
  simulates base n cs rel (operators.elementary f ad) (operators.elementary f an) sd st.
Proof.
  intros Htr Ha. destruct ad as [x|[a a']|?|], an as [x'|?|s|]; simpl in Ha; try done; subst.
  - simpl. destruct (operators.domain_guard f x'); [by apply sim_raise | by apply sim_ret].
  - destruct Ha as (Hs & Hv & Ht). simpl in Hv, Ht.
    destruct (operators.domain_guard f (val_of (heap st) s)) eqn:Hg.
    + unfold simulates, operators.elementary, bind, get_heap, raise. simpl.
      rewrite Hv, Hg. simpl.
      split; [done|]. split; [done|]. split; [apply grows_refl|done].
    + set (nd := mk_rNode (operators.np_value f (val_of (heap st) s)) (lit 0)
                          (bw_unary f s (length (heap st)))
                          (OpStr (operators.unop_name f)) (list_to_set [s])
                          (increment st)).
      destruct (node_traced st nd Htr) as (Htr' & Hgr & Hv' & Ht'); [done| |done|].
      { intros p. set_unfold. intros [->|[]]; done. }
      eapply (sim_dual_node (mkDual (operators.np_value f a)
                                    (operators.dual_part f (mkDual a a')))
                (length (heap st))); [| |exact Htr'|exact Hgr|..].
      * simpl. by rewrite Hv, Hg.
      * by apply elementary_node_state.
      * simpl. rewrite length_app. simpl. pose proof (traced_len _ _ _ _ Htr). lia.
      * rewrite Hv'. simpl. by rewrite Hv.
      * rewrite Ht'. simpl. rewrite unary_rule. by rewrite Hv, Ht.
Qed.

Lemma sim_log_base (b : R) (ad an : pyval R) st sd :
  traced base n cs st → rel st ad an →
  simulates base n cs rel (operators.log_base ad (Some b)) (operators.log_base an (Some b))
    sd st.
Proof.
  intros Htr Ha. destruct ad as [x|[a a']|?|], an as [x'|?|s|]; simpl in Ha; try done; subst.
  - simpl. case_bool_decide; [by apply sim_raise | by apply sim_ret].
  - destruct Ha as (Hs & Hv & Ht). simpl in Hv, Ht.
    destruct (decide (fle (val_of (heap st) s) (lit 0))) as [Hle|Hle].
    + unfold simulates, operators.log_base, bind, get_heap, raise. simpl.
      rewrite Hv. rewrite !bool_decide_eq_true_2 by done. simpl.
      split; [done|]. split; [done|]. split; [apply grows_refl|done].
    + set (nd := mk_rNode (fdiv (np_log (val_of (heap st) s)) (np_log b)) (lit 0)
                          (bw_log_base b s (length (heap st)))
                          (OpLogBase b) (list_to_set [s]) (increment st)).
      destruct (node_traced st nd Htr) as (Htr' & Hgr & Hv' & Ht'); [done| |done|].
      { intros p. set_unfold. intros [->|[]]; done. }
      eapply (sim_dual_node (mkDual (fdiv (np_log a) (np_log b))
                                    (fdiv a' (fmul (np_log b) a)))
                (length (heap st))); [| |exact Htr'|exact Hgr|..].
      * simpl. rewrite Hv. rewrite bool_decide_eq_false_2 by done. done.
      * by apply log_base_node_state.
      * simpl. rewrite length_app. simpl. pose proof (traced_len _ _ _ _ Htr). lia.
      * rewrite Hv'. simpl. by rewrite Hv.
      * rewrite Ht'. simpl. rsimpl. rewrite log_base_rule. by rewrite Hv, Ht.
Qed.

End SimulationOperators.

(* ================================================================= *)
(** ** Forward mode against reverse mode: user functions *)

Section SimulationEval.
Implicit Types (st sd : rstate R).
Variables (base n : nat) (cs : list R) (i : nat).
Hypothesis Hi : i < n.

Local Abbreviation rel := (corresponds base (unit_seed (F := R) base i)).
Local Abbreviation rel_env st := (Forall2 (corresponds base (unit_seed (F := R) base i) st)).
Local Abbreviation rel_obj := (corresponds_obj base (unit_seed (F := R) base i)).

Lemma sim_eval (e : expr R) envd envn st sd :
  traced base n cs st → rel_env st envd envn →
  pow_domain e envd sd →
  simulates base n cs rel (eval e envd) (eval e envn) sd st.
Proof.
  revert st. induction e as [j|c|e IH|op e1 IH1 e2 IH2|f e IH|e IH b];
    intros st Htr Henv Hdom; simpl in *.
  - destruct (envd !! j) as [vd|] eqn:Hd.
    + destruct (Forall2_lookup_l _ _ _ _ _ Henv Hd) as (vn & -> & Hrel).
      by apply sim_ret.
    + rewrite (Forall2_length _ _ _ Henv) in Hd || idtac.
      assert (envn !! j = None) as ->.
      { apply lookup_ge_None. rewrite <- (Forall2_length _ _ _ Henv).
        by apply lookup_ge_None. }
      by apply sim_raise.
  - by apply sim_ret.
  - eapply (sim_bind base n cs rel); [by apply IH|].
    intros a b st' _ _ Htr' Hg Hab. by apply sim_apply_neg.
  - destruct Hdom as (Hd1 & Hd2 & Hpow).
    eapply (sim_bind base n cs rel); [by apply IH1|].
    intros a b st' Ha _ Htr' Hg Hab.
    eapply (sim_bind base n cs rel).
    { apply IH2; [done| |done]. by apply (corresponds_env_mono base n cs _ st). }
    intros a2 b2 st'' Ha2 _ Htr'' Hg' Hab2.
    apply sim_apply_arith; [done|done| |done|].
    + by apply (corresponds_mono base n cs _ st').
    + intros Hop. specialize (Hpow Hop). rewrite Ha, Ha2 in Hpow. simpl in Hpow.
      destruct a as [?|z|?|]; try done.
  - eapply (sim_bind base n cs rel); [by apply IH|].
    intros a b' st' _ _ Htr' Hg Hab. by apply sim_elementary.
  - eapply (sim_bind base n cs rel); [by apply IH|].
    intros a b' st' _ _ Htr' Hg Hab. by apply sim_log_base.
Qed.

Lemma sim_eval_tuple (es : list (expr R)) envd envn st sd :
  traced base n cs st → rel_env st envd envn →
  Forall (fun e => pow_domain e envd sd) es →
  simulates base n cs (fun st => Forall2 (rel st)) (eval_tuple es envd) (eval_tuple es envn)
    sd st.
Proof.
  revert st. induction es as [|e es IH]; intros st Htr Henv Hdom; simpl.
  - apply sim_ret; [done|]. apply Forall2_nil_2.
  - apply Forall_cons in Hdom as [Hd Hdom].
    eapply (sim_bind base n cs rel); [by apply sim_eval|].
    intros a b st' _ _ Htr' Hg Hab.
    eapply (sim_bind base n cs (fun st => Forall2 (rel st))).
    { apply IH; [done| |done]. by apply (corresponds_env_mono base n cs _ st). }
    intros vs ws st'' _ _ Htr'' Hg' Hvs.
    apply sim_ret; [done|]. apply Forall2_cons. split; [|done].
    by apply (corresponds_mono base n cs _ st').
Qed.

Lemma sim_exec (s : stmt R) envd envn st sd :
  traced base n cs st → rel_env st envd envn →
  pow_domain_body s envd sd →
  simulates base n cs rel_obj (exec s envd) (exec s envn) sd st.
Proof.
  revert envd envn st. induction s as [e rest IH|e|es];
    intros envd envn st Htr Henv Hdom; simpl in *.
  - destruct Hdom as [Hd Hrest].
    eapply (sim_bind base n cs rel); [by apply sim_eval|].
    intros a b st' Ha _ Htr' Hg Hab. rewrite Ha in Hrest. simpl in Hrest.
    apply IH; [done| |done].
    apply Forall2_app; [by apply (corresponds_env_mono base n cs _ st)|].
    by apply Forall2_cons.
  - eapply (sim_bind base n cs rel); [by apply sim_eval|].
    intros a b st' _ _ Htr' Hg Hab. by apply sim_ret.
  - eapply (sim_bind base n cs (fun st => Forall2 (rel st))); [by apply sim_eval_tuple|].
    intros a b st' _ _ Htr' Hg Hab. by apply sim_ret.
Qed.

Lemma sim_call (f : pyfunc R) envd envn st sd :
  traced base n cs st → rel_env st envd envn →
  pow_domain_body (body f) envd sd →
  simulates base n cs rel_obj (call f envd) (call f envn) sd st.
Proof.
  intros Htr Henv Hdom. unfold call.
  rewrite (Forall2_length _ _ _ Henv).
  case_decide; [by apply sim_exec | by apply sim_raise].
Qed.

End SimulationEval.

(* ================================================================= *)
(** ** The two traces of one evaluation *)

Section Inputs.
Context {F : Type} `{PyNum F}.
Implicit Types (st : rstate F).

(** The store before the inputs are wrapped, with the counter reset. *)
Lemma traced_reset st (cs : list F) :
  wf_state st → traced (length (heap st)) 0 cs (mk_rstate (heap st) 0).
Proof.
  intros Hwf. split; simpl.
  - done.
  - lia.
  - lia.
  - intros x p Hx Hp. unfold parents_of in Hp.
    rewrite lookup_ge_None_2 in Hp by lia. by apply elem_of_empty in Hp.
  - intros x Hx. lia.
  - intros j Hj. lia.
Qed.

Lemma traced_input base k (cs : list F) (c : F) st :
  traced base k cs st → length (heap st) = base + k → cs !! k = Some c →
  traced base (S k) cs
    (mk_rstate (heap st ++ [mk_rNode c (lit 0) no_op (OpStr "") ∅ (increment st)])
               (S (increment st))).
Proof.
  intros Htr Hlen Hc.
  assert (traced base k cs
            (mk_rstate (heap st ++ [mk_rNode c (lit 0) no_op (OpStr "") ∅ (increment st)])
               (S (increment st)))) as Htr'.
  { apply traced_snoc; simpl; done. }
  destruct Htr' as [H1 H2 H3 H4 H5 H6]. split; try done.
  - simpl. rewrite length_app. simpl. lia.
  - intros j Hj. destruct (decide (j = k)) as [->|Hne].
    + simpl. rewrite <- Hlen, backward_func_of_snoc, val_of_snoc. simpl.
      by rewrite Hc.
    + apply H6. lia.
Qed.

Lemma wrap_inputs_traced base (cs rest : list F) :
  ∀ k zs st,
    traced base k cs st → length (heap st) = base + k →
    (∀ j c, rest !! j = Some c → cs !! (k + j) = Some c) →
    ∃ st',
      for_loop wrap_input (VNum <$> rest) zs st
      = (Ok (zs ++ (VNode <$> seq (base + k) (length rest))), st')
      ∧ traced base (k + length rest) cs st'
      ∧ length (heap st') = base + k + length rest.
Proof.
  induction rest as [|c rest IH]; intros k zs st Htr Hlen Hcs; simpl.
  - exists st. rewrite app_nil_r, !Nat.add_0_r. done.
  - set (st1 := mk_rstate
                  (heap st ++ [mk_rNode c (lit 0) no_op (OpStr "") ∅ (increment st)])
                  (S (increment st))).
    assert (traced base (S k) cs st1) as Htr1.
    { apply traced_input; [done|done|]. specialize (Hcs 0 c eq_refl).
      by rewrite Nat.add_0_r in Hcs. }
    destruct (IH (S k) (zs ++ [VNode (length (heap st))]) st1 Htr1) as (st' & Heq & Htr' & Hlen').
    { subst st1. simpl. rewrite length_app. simpl. lia. }
    { intros j c' Hj. specialize (Hcs (S j) c' Hj).
      by replace (S k + j) with (k + S j) by lia. }
    exists st'. split; [|split].
    + transitivity (for_loop wrap_input (VNum <$> rest)
                      (zs ++ [VNode (length (heap st))]) st1); [reflexivity|].
      rewrite Heq, <- app_assoc. simpl. rewrite Hlen.
      by replace (S (base + k)) with (base + S k) by lia.
    + by replace (k + S (length rest)) with (S k + length rest) by lia.
    + lia.
Qed.

(** [_reverse] up to the call of the function. *)
Lemma reverse_inputs (cs : list F) st :
  wf_state st →
  ∃ st_in,
    wrap_inputs (VNum <$> cs) (mk_rstate (heap st) 0)
    = (Ok (VNode <$> seq (length (heap st)) (length cs)), st_in)
    ∧ traced (length (heap st)) (length cs) cs st_in.
Proof.
  intros Hwf.
  destruct (wrap_inputs_traced (length (heap st)) cs cs 0 [] (mk_rstate (heap st) 0))
    as (st_in & Heq & Htr & _).
  - by apply traced_reset.
  - simpl. lia.
  - intros j c Hj. done.
  - exists st_in. rewrite Nat.add_0_r in Heq. split; [exact Heq|]. exact Htr.
Qed.

End Inputs.

(* ================================================================= *)
(** * Further properties of the package *)

(** ** dualnumber.py over the real numbers *)

Section DualAlgebra.
Local Open Scope R_scope.

Local Ltac rsimpl :=
  cbn [fadd fsub fmul fdiv fpow fneg lit np_log np_sin np_cos np_tan np_exp
       np_arcsin np_arccos np_arctan np_sinh np_cosh np_tanh np_sqrt
       RealNum.R_PyNum real dual] in *.

Lemma Rpow_1 (a : R) : RealNum.Rpow a 1 = a.
Proof.
  unfold RealNum.Rpow. destruct (Rlt_dec 0 a) as [Ha|Ha].
  - by apply Rpower_1.
  - assert (Int_part 1 = 1%Z) as Hi.
    { symmetry. apply Int_part_spec. lra. }
    rewrite Hi. destruct (Req_dec_T 1 1) as [_|Hne]; [|lra]. simpl. ring.
Qed.

(** X1.  [__sub__] multiplies the other operand by [-1] and adds, and
    [__rsub__] multiplies the dual number by [-1] and adds the number;
    over the reals this is the componentwise difference: [z - w] is
    [(z.real - w.real, z.dual - w.dual)], [z - c] is [(z.real - c, z.dual)]
    and [c - z] is [(c - z.real, -z.dual)].  An operand of another type
    makes [__sub__] raise [TypeError]. *)
Theorem Dual_sub_componentwise (z w : DualNumber R) (c : R) :
  Dual_sub z (DDual w) = Ok (mkDual (real z - real w) (dual z - dual w))
  ∧ Dual_sub z (DScalar c) = Ok (mkDual (real z - c) (dual z))
  ∧ Dual_rsub z (DScalar c) = Ok (mkDual (c - real z) (- dual z))
  ∧ Dual_sub z DUnsupported = Raise TypeError.
Proof.
  unfold Dual_sub, Dual_rsub. simpl. rsimpl.
  split; [|split; [|split]]; [f_equal; f_equal; ring..|done].
Qed.

(** X2.  Over the reals, unary minus, the product with [-1] and the
    difference [0 - z] are the same dual number, and negating twice gives
    the number back. *)
Theorem Dual_neg_times_minus_one (z : DualNumber R) :
  Dual_mul z (DScalar (-1)) = Ok (Dual_neg z)
  ∧ Dual_rsub z (DScalar 0) = Ok (Dual_neg z)
  ∧ Dual_neg (Dual_neg z) = z.
Proof.
  unfold Dual_rsub, Dual_neg. destruct z as [a a']. simpl. rsimpl.
  split; [|split]; f_equal; try f_equal; ring.
Qed.

(** X3.  Over the reals, dividing by a dual number whose real part is not
    0 is multiplying with its reciprocal [1 / w], which [__rtruediv__]
    computes. *)
Theorem Dual_truediv_reciprocal (z w : DualNumber R) :
  real w ≠ 0 →
  Dual_truediv z (DDual w)
  = result_bind (Dual_rtruediv w (DScalar 1)) (fun r => Dual_mul z (DDual r)).
Proof.
  intros Hw. simpl. rsimpl. rewrite Rpow_2. f_equal. f_equal; field; done.
Qed.

(** X4.  Over the reals, [z ** 2] with the bare exponent 2 is the product
    [z * z]. *)
Theorem Dual_pow_two (z : DualNumber R) :
  Dual_pow z (DScalar 2) = Dual_mul z (DDual z).
Proof.
  simpl. rsimpl. rewrite Rpow_2. replace (2 - 1) with 1 by ring.
  rewrite Rpow_1. f_equal. f_equal. ring.
Qed.

(** X5.  Over the reals, a bare number [c] as second operand of [+], [-],
    [*], [/] and [**] gives the same dual number as the constant [(c, 0)]
    does; for [/] the number is not 0 and for [**] the real part of the
    base is positive. *)
Theorem Dual_scalar_is_constant (op : arith) (z : DualNumber R) (c : R) :
  (op = OpDiv → c ≠ 0) → (op = OpPow → 0 < real z) →
  Dual_method op z (DScalar c) = Dual_method op z (DDual (mkDual c 0)).
Proof.
  intros Hdiv Hpow. destruct z as [a a'].
  destruct op; simpl; unfold Dual_sub; simpl; rsimpl; f_equal; f_equal; try ring.
  - rewrite Rpow_2. field. auto.
  - simpl in Hpow. rewrite Rpow_pred by auto. unfold Rdiv. ring.
Qed.

(** X6.  Over the reals, [+] and [*] of dual numbers are commutative and
    associative, and [*] distributes over [+]. *)
Theorem Dual_ring_laws (z w u : DualNumber R) :
  Dual_add z (DDual w) = Dual_add w (DDual z)
  ∧ Dual_mul z (DDual w) = Dual_mul w (DDual z)
  ∧ result_bind (Dual_add z (DDual w)) (fun s => Dual_add s (DDual u))
    = result_bind (Dual_add w (DDual u)) (fun s => Dual_add z (DDual s))
  ∧ result_bind (Dual_mul z (DDual w)) (fun s => Dual_mul s (DDual u))
    = result_bind (Dual_mul w (DDual u)) (fun s => Dual_mul z (DDual s))
  ∧ result_bind (Dual_add w (DDual u)) (fun s => Dual_mul z (DDual s))
    = result_bind (Dual_mul z (DDual w))
        (fun p => result_bind (Dual_mul z (DDual u)) (fun q => Dual_add p (DDual q))).
Proof.
  simpl. rsimpl. repeat split; f_equal; f_equal; ring.
Qed.

End DualAlgebra.

Lemma Dual_truediv_reciprocal_witness :
  (real (mkDual 2%R 1%R) ≠ 0)%R
  ∧ Dual_truediv (mkDual 6%R 1%R) (DDual (mkDual 2%R 1%R))
    = result_bind (Dual_rtruediv (mkDual 2%R 1%R) (DScalar 1%R))
        (fun r => Dual_mul (mkDual 6%R 1%R) (DDual r)).
Proof.
  assert (real (mkDual 2%R 1%R) ≠ 0)%R as Hw by (simpl; lra).
  split; [exact Hw|]. exact (Dual_truediv_reciprocal (mkDual 6%R 1%R) (mkDual 2%R 1%R) Hw).
Defined.

Lemma Dual_scalar_is_constant_witness :
  Dual_method OpPow (mkDual 2%R 1%R) (DScalar 3%R)
  = Dual_method OpPow (mkDual 2%R 1%R) (DDual (mkDual 3%R 0%R)).
Proof.
  apply Dual_scalar_is_constant.
  - intros Hop. discriminate Hop.
  - intros _. simpl. lra.
Defined.

(* ================================================================= *)
(** ** dualnumber.py: comparison and operand types *)

Section DualComparisonFacts.
Context {F : Type} `{PyNum F} `{EqDecision F}.

(** X7.  [==] and [!=] raise [TypeError] unless the other operand is a
    dual number, also for a bare number; on two dual numbers [==] holds
    exactly when both components are equal and [!=] is its negation. *)
Theorem Dual_eq_ne (z : DualNumber F) (other : dual_operand F) :
  match other with
  | DDual w =>
      Dual_eq z other = Ok (bool_decide (z = w))
      ∧ Dual_ne z other = Ok (bool_decide (z ≠ w))
  | _ => Dual_eq z other = Raise TypeError ∧ Dual_ne z other = Raise TypeError
  end.
Proof.
  destruct other as [c|w|]; [done| |done].
  destruct z as [a a'], w as [b b']. unfold Dual_ne, Dual_eq. simpl.
  assert (bool_decide (a = b) && bool_decide (a' = b')
          = bool_decide (mkDual a a' = mkDual b b')) as ->.
  { apply eq_true_iff_eq. rewrite andb_true_iff.
    rewrite !bool_decide_eq_true. split.
    - by intros [-> ->].
    - intros Heq. by injection Heq. }
  split; [done|]. f_equal.
  destruct (decide (mkDual a a' = mkDual b b')) as [Heq|Hne].
  - rewrite (bool_decide_eq_true_2 _ Heq). simpl. symmetry.
    apply bool_decide_eq_false_2. intros Hn. by apply Hn.
  - rewrite (bool_decide_eq_false_2 _ Hne). simpl. symmetry.
    by apply bool_decide_eq_true_2.
Qed.


End DualComparisonFacts.

(* ================================================================= *)
(** ** operators.py *)

Section OperatorFacts.
Context {F : Type} `{PyNum F}.


End OperatorFacts.

(* ================================================================= *)
(** ** operators.py over the real numbers *)

Section ElementaryDerivatives.
Local Open Scope R_scope.

Local Ltac rsimpl :=
  cbn [fadd fsub fmul fdiv fpow fneg lit np_log np_sin np_cos np_tan np_exp
       np_arcsin np_arccos np_arctan np_sinh np_cosh np_tanh np_sqrt
       RealNum.R_PyNum real dual] in *.

Lemma cosh_pos (x : R) : 0 < cosh x.
Proof.
  unfold cosh. pose proof (exp_pos x). pose proof (exp_pos (- x)). lra.
Qed.

Lemma cosh2_sinh2 (x : R) : cosh x * cosh x - sinh x * sinh x = 1.
Proof.
  unfold cosh, sinh.
  transitivity (exp x * exp (- x)); [field|].
  rewrite <- exp_plus. replace (x + - x) with 0 by ring. apply exp_0.
Qed.

Lemma derivable_pt_lim_exp_opp (a : R) :
  derivable_pt_lim (fun x => exp (- x)) a (- exp (- a)).
Proof.
  replace (- exp (- a)) with (exp (- a) * -1) by ring.
  apply (derivable_pt_lim_comp (fun x => - x) exp).
  - apply (derivable_pt_lim_opp id a 1). apply derivable_pt_lim_id.
  - apply derivable_pt_lim_exp.
Qed.

Lemma derivable_pt_lim_logistic (a : R) :
  derivable_pt_lim (fun x => 1 / (1 + exp (- x))) a
    (exp a / ((exp a + 1) * (exp a + 1))).
Proof.
  pose proof (exp_pos a) as Ha. pose proof (exp_pos (- a)) as Hna.
  assert (exp (- a) = / exp a) as He by apply exp_Ropp.
  replace (exp a / ((exp a + 1) * (exp a + 1)))
    with ((0 * (1 + exp (- a)) - (0 + - exp (- a)) * 1) / Rsqr (1 + exp (- a))).
  - apply (derivable_pt_lim_div (fct_cte 1) (fun x => 1 + exp (- x))).
    + apply derivable_pt_lim_const.
    + apply (derivable_pt_lim_plus (fct_cte 1) (fun x => exp (- x))).
      * apply derivable_pt_lim_const.
      * apply derivable_pt_lim_exp_opp.
    + lra.
  - unfold Rsqr. rewrite He. field. lra.
Qed.

Lemma np_value_derivative (f : unop) (a : R) :
  open_domain f a →
  derivable_pt_lim (fun x => operators.np_value f x) a (d_unary f a).
Proof.
  intros Hdom. destruct f; simpl in *; rsimpl; rewrite ?Rpow_2.
  - apply derivable_pt_lim_sin.
  - apply derivable_pt_lim_cos.
  - replace (1 / (cos a * cos a))
      with ((cos a * cos a - - sin a * sin a) / Rsqr (cos a)).
    + apply (derivable_pt_lim_div sin cos); [apply derivable_pt_lim_sin | | done].
      apply derivable_pt_lim_cos.
    + pose proof (sin2_cos2 a) as Hsc. unfold Rsqr in *.
      replace (cos a * cos a - - sin a * sin a) with 1 by lra. done.
  - apply derivable_pt_lim_exp.
  - replace (1 / a) with (/ a) by (unfold Rdiv; ring). by apply derivable_pt_lim_ln.
  - apply (derive_pt_eq_1 asin a _ (derivable_pt_asin a Hdom)).
    rewrite derive_pt_asin. done.
  - apply (derive_pt_eq_1 acos a _ (derivable_pt_acos a Hdom)).
    rewrite derive_pt_acos. done.
  - replace (1 / (1 + a * a)) with (/ (1 + a ^ 2)); [apply derivable_pt_lim_atan|].
    simpl. unfold Rdiv. rewrite Rmult_1_r. ring.
  - apply derivable_pt_lim_sinh.
  - apply derivable_pt_lim_cosh.
  - replace (1 / (cosh a * cosh a))
      with ((cosh a * cosh a - sinh a * sinh a) / Rsqr (cosh a)).
    + apply (derivable_pt_lim_div sinh cosh);
        [apply derivable_pt_lim_sinh | apply derivable_pt_lim_cosh |].
      pose proof (cosh_pos a). lra.
    + rewrite cosh2_sinh2. done.
  - apply derivable_pt_lim_logistic.
  - replace (1 / (2 * sqrt a)) with (/ (2 * sqrt a)) by (unfold Rdiv; ring).
    by apply derivable_pt_lim_sqrt.
Qed.

(** X10.  Over the reals, the factor that the backward rule of each
    elementary function multiplies with the adjoint is the derivative of
    the value the function computes, at every point inside the domain
    (positive for [log] and [sqrt], strictly between -1 and 1 for
    [arcsin] and [arccos], cosine not 0 for [tan]). *)
Theorem elementary_derivative (f : unop) (a : R) :
  open_domain f a →
  derivable_pt_lim (fun x => operators.np_value f x) a (d_unary f a).
Proof. intros Hdom. by apply np_value_derivative. Qed.

End ElementaryDerivatives.

Section BinaryDerivatives.
Local Open Scope R_scope.

Local Ltac rsimpl :=
  cbn [fadd fsub fmul fdiv fpow fneg lit np_log np_sin np_cos np_tan np_exp
       np_arcsin np_arccos np_arctan np_sinh np_cosh np_tanh np_sqrt
       RealNum.R_PyNum real dual] in *.

(** The derivative of [x ↦ a * x + b]. *)
Lemma derivable_pt_lim_affine (a b x : R) :
  derivable_pt_lim (fun x => a * x + b) x a.
Proof.
  apply (derivable_pt_lim_ext (fct_cte a * id + fct_cte b)%F).
  { intros z. unfold plus_fct, mult_fct, fct_cte, id. ring. }
  pose proof (derivable_pt_lim_plus _ _ x _ _
                (derivable_pt_lim_mult _ _ x _ _
                   (derivable_pt_lim_const a x) (derivable_pt_lim_id x))
                (derivable_pt_lim_const b x)) as Hd.
  assert (0 * id x + fct_cte a x * 1 + 0 = a) as E by (unfold id, fct_cte; ring).
  rewrite E in Hd. exact Hd.
Qed.

(** The derivative of [x ↦ c / x]. *)
Lemma derivable_pt_lim_inverse (c x : R) :
  x ≠ 0 → derivable_pt_lim (fun x => c / x) x (- c / (x * x)).
Proof.
  intros Hx.
  replace (- c / (x * x)) with ((0 * id x - 1 * fct_cte c x) / Rsqr (id x)).
  - apply (derivable_pt_lim_div (fct_cte c) id); [| |done].
    + apply derivable_pt_lim_const.
    + apply derivable_pt_lim_id.
  - unfold id, fct_cte, Rsqr. field. done.
Qed.

Lemma Rpow_pos (s o : R) : 0 < s → RealNum.Rpow s o = Rpower s o.
Proof. intros Hs. unfold RealNum.Rpow. by destruct (Rlt_dec 0 s). Qed.

(** X11.  Over the reals, the two factors that the backward rule of each
    binary operator multiplies with the adjoint are the partial
    derivatives of the value of the result node with respect to [self.val]
    and to [other.val], where the divisor of [/] is not 0 and the base of
    [**] is positive. *)
Theorem binary_partial_derivatives (op : binop) (s o : R) :
  smooth_at op s o →
  derivable_pt_lim (fun x => binop_val op x o) s (d_self op s o)
  ∧ derivable_pt_lim (fun y => binop_val op s y) o (d_other op s o).
Proof.
  intros Hs. destruct op; simpl in *; rsimpl; rewrite ?Rpow_2; split.
  - apply (derivable_pt_lim_ext (fun x => 1 * x + o)); [intros; ring|].
    apply derivable_pt_lim_affine.
  - apply (derivable_pt_lim_ext (fun y => 1 * y + s)); [intros; ring|].
    apply derivable_pt_lim_affine.
  - apply (derivable_pt_lim_ext (fun x => 1 * x + - o)); [intros; ring|].
    apply derivable_pt_lim_affine.
  - apply (derivable_pt_lim_ext (fun y => -1 * y + s)); [intros; ring|].
    apply derivable_pt_lim_affine.
  - apply (derivable_pt_lim_ext (fun x => -1 * x + o)); [intros; ring|].
    apply derivable_pt_lim_affine.
  - apply (derivable_pt_lim_ext (fun y => 1 * y + - s)); [intros; ring|].
    apply derivable_pt_lim_affine.
  - apply (derivable_pt_lim_ext (fun x => o * x + 0)); [intros; ring|].
    apply derivable_pt_lim_affine.
  - apply (derivable_pt_lim_ext (fun y => s * y + 0)); [intros; ring|].
    apply derivable_pt_lim_affine.
  - rewrite (Rpow_pos s (o - 1) Hs).
    apply (derivable_pt_lim_locally_ext (fun x => Rpower x o) _ s (s / 2) (s + 1)).
    + lra.
    + intros z Hz. symmetry. apply Rpow_pos. lra.
    + by apply derivable_pt_lim_power.
  - rewrite (Rpow_pos s o Hs).
    apply (derivable_pt_lim_ext (fun y => exp (y * ln s))).
    { intros y. symmetry. by apply Rpow_pos. }
    unfold Rpower.
    apply (derivable_pt_lim_comp (fun y => y * ln s) exp).
    + apply (derivable_pt_lim_ext (fun y => ln s * y + 0)); [intros; ring|].
      apply derivable_pt_lim_affine.
    + apply derivable_pt_lim_exp.
  - apply (derivable_pt_lim_ext (fun x => 1 / o * x + 0)).
    { intros x. unfold Rdiv. ring. }
    apply derivable_pt_lim_affine.
  - by apply derivable_pt_lim_inverse.
  - by apply derivable_pt_lim_inverse.
  - apply (derivable_pt_lim_ext (fun y => 1 / s * y + 0)).
    { intros y. unfold Rdiv. ring. }
    apply derivable_pt_lim_affine.
Qed.

End BinaryDerivatives.

Lemma elementary_derivative_witness :
  open_domain Sqrt 4%R
  ∧ derivable_pt_lim (fun x => operators.np_value Sqrt x) 4%R (d_unary Sqrt 4%R).
Proof.
  assert (open_domain Sqrt 4%R) as Hd by (simpl; lra).
  split; [exact Hd|]. exact (elementary_derivative Sqrt 4%R Hd).
Defined.

Lemma binary_partial_derivatives_witness :
  smooth_at Pow 2%R 3%R
  ∧ derivable_pt_lim (fun x => binop_val Pow x 3%R) 2%R (d_self Pow 2%R 3%R)
  ∧ derivable_pt_lim (fun y => binop_val Pow 2%R y) 3%R (d_other Pow 2%R 3%R).
Proof.
  assert (smooth_at Pow 2%R 3%R) as Hs by (simpl; lra).
  split; [exact Hs|]. exact (binary_partial_derivatives Pow 2%R 3%R Hs).
Defined.

Section OperatorsReal.
Local Open Scope R_scope.

Local Ltac rsimpl :=
  cbn [fadd fsub fmul fdiv fpow fneg lit np_log np_sin np_cos np_tan np_exp
       np_arcsin np_arccos np_arctan np_sinh np_cosh np_tanh np_sqrt
       RealNum.R_PyNum real dual] in *.

(** X12.  Over the reals, an elementary function applied to a dual number
    that passes its guard returns the value of the function at the real
    part, and as dual part the dual part of the argument times the same
    factor that the backward rule of the function uses on a node. *)
Theorem elementary_dual_chain_rule (f : unop) (z : DualNumber R) st :
  operators.domain_guard f (real z) = false →
  operators.elementary f (VDual z) st
  = (Ok (VDual (mkDual (operators.np_value f (real z))
                       (d_unary f (real z) * dual z))), st).
Proof.
  intros Hg. unfold operators.elementary. rewrite Hg.
  destruct z as [a a']. by rewrite unary_rule.
Qed.

(** X13.  Over the reals, [log_base] with base [e] is [log] on numbers
    and on dual numbers: the same value, the same dual part and the same
    domain error. *)
Theorem log_base_e_is_log (c : R) (z : DualNumber R) st :
  operators.log_base (VNum c) (Some (exp 1)) st = operators.log (VNum c) st
  ∧ operators.log_base (VDual z) (Some (exp 1)) st = operators.log (VDual z) st.
Proof.
  unfold operators.log, operators.log_base, operators.elementary. simpl. rsimpl.
  rewrite ln_exp. split; case_bool_decide; try done; unfold ret; repeat f_equal;
    unfold Rdiv; rewrite ?Rinv_1; ring.
Qed.

(** X14.  Over the reals, the value [s] that [logistic] computes lies
    strictly between 0 and 1, and the factor of its backward rule,
    [exp(x) / (exp(x) + 1) ** 2], is [s * (1 - s)]. *)
Theorem logistic_factor (a : R) :
  let s := operators.np_value Logistic a in
  0 < s < 1 ∧ d_unary Logistic a = s * (1 - s).
Proof.
  simpl. rsimpl. rewrite Rpow_2.
  pose proof (exp_pos a) as Ha. pose proof (exp_pos (- a)) as Hna.
  assert (exp (- a) = / exp a) as He by apply exp_Ropp.
  assert (0 < / (1 + exp (- a))) as Hinv by (apply Rinv_0_lt_compat; lra).
  split.
  - unfold Rdiv. rewrite Rmult_1_l. split; [done|].
    rewrite <- Rinv_1 at 2. apply Rinv_lt_contravar; lra.
  - rewrite He. field. lra.
Qed.

End OperatorsReal.

Lemma elementary_dual_chain_rule_witness :
  operators.elementary Sin (VDual (mkDual 0%R 1%R)) Examples.st_init
  = (Ok (VDual (mkDual (operators.np_value Sin 0%R) (d_unary Sin 0%R * 1)%R)),
     Examples.st_init).
Proof.
  exact (elementary_dual_chain_rule Sin (mkDual 0%R 1%R) Examples.st_init eq_refl).
Defined.

(* ================================================================= *)
(** ** rNode.py: what the operators create *)

Section NodeOperators.
Context {F : Type} `{PyNum F}.
Local Open Scope num_scope.



(** X17.  Unary minus on a node is the product with [-1]: it creates a
    leaf that holds [-1] and then the product node, whose parents are the
    node and that leaf; two values of the counter are used. *)
Theorem neg_builds_product (self : nat) st :
  is_node self st →
  rNode_neg self st
  = (Ok (S (length (heap st))),
     mk_rstate
       (heap st ++
          [mk_rNode (lit (-1)) (lit 0) no_op (OpStr "") ∅ (increment st);
           mk_rNode (val_of (heap st) self * lit (-1)) (lit 0)
                    (bw_binary Mul self (length (heap st)) (S (length (heap st))))
                    (OpStr "x") (list_to_set [self; length (heap st)])
                    (S (increment st))])
       (S (S (increment st)))).
Proof. intros Hself. exact (wrap_scalar_state Mul self (lit (-1)) st Hself). Qed.

End NodeOperators.

Lemma neg_builds_product_witness :
  is_node 0 (new_rNode 3%R [] (OpStr "") Examples.st_init).2
  ∧ (rNode_neg 0 (new_rNode 3%R [] (OpStr "") Examples.st_init).2).1 = Ok 2.
Proof.
  assert (is_node 0 (new_rNode 3%R [] (OpStr "") Examples.st_init).2) as Hn.
  { unfold is_node. simpl. lia. }
  split; [exact Hn|].
  by rewrite (neg_builds_product 0 _ Hn).
Defined.

(* ================================================================= *)
(** ** rNode.py: the node and edge sets of [graph_object] *)

Section GraphObject.
Context {F : Type} `{PyNum F}.
Implicit Types (h : list (rNode F)) (N : gset nat) (E : gset (nat * nat)).

(** The loop of [build] over the parents [ps] of the node [x]. *)
Lemma build_loop h depth x ps :
  (∀ n N E, n < depth →
     ∃ N' E',
       build depth h n (N, E) = Some (N' ∪ N, E' ∪ E)
       ∧ n ∈ N' ∪ N
       ∧ (∀ y, y ∈ N' → reachable h n y)
       ∧ (∀ y p, y ∈ N' → p ∈ parents_of h y → p ∈ N' ∪ N ∧ (p, y) ∈ E')
       ∧ (∀ p c, (p, c) ∈ E' → c ∈ N' ∧ p ∈ parents_of h c)) →
  ∀ N E,
    (∀ p, p ∈ ps → p < depth) →
    ∃ N' E',
      for_each (fun parent s => build depth h parent (s.1, {[(parent, x)]} ∪ s.2))
               ps (N, E)
      = Some (N' ∪ N, E' ∪ E)
      ∧ (∀ p, p ∈ ps → p ∈ N' ∪ N ∧ (p, x) ∈ E')
      ∧ (∀ y, y ∈ N' → ∃ p, p ∈ ps ∧ reachable h p y)
      ∧ (∀ y p, y ∈ N' → p ∈ parents_of h y → p ∈ N' ∪ N ∧ (p, y) ∈ E')
      ∧ (∀ p c, (p, c) ∈ E' → (c ∈ N' ∧ p ∈ parents_of h c) ∨ (c = x ∧ p ∈ ps)).
Proof.
  intros IH. induction ps as [|p ps IHps]; intros N E Hdepth.
  - exists ∅, ∅. simpl. rewrite !(left_id_L ∅ (∪)).
    split; [done|]. split; [intros p Hp; by apply elem_of_nil in Hp|].
    split; [intros y Hy; by apply elem_of_empty in Hy|].
    split; [intros y q Hy; by apply elem_of_empty in Hy|].
    intros q c Hq. by apply elem_of_empty in Hq.
  - destruct (IH p N ({[(p, x)]} ∪ E)) as (N1 & E1 & Heq1 & Hp1 & Hr1 & Hc1 & He1).
    { apply Hdepth. left. }
    destruct (IHps (N1 ∪ N) (E1 ∪ ({[(p, x)]} ∪ E))) as (N2 & E2 & Heq2 & Hp2 & Hr2 & Hc2 & He2).
    { intros q Hq. apply Hdepth. by right. }
    exists (N2 ∪ N1), (E2 ∪ E1 ∪ {[(p, x)]}). simpl. rewrite Heq1. simpl. rewrite Heq2.
    split; [f_equal; f_equal; apply set_eq; intros z; set_unfold; tauto|].
    split; [|split; [|split]].
    + intros q [->|Hq]%elem_of_cons.
      * set_unfold. tauto.
      * destruct (Hp2 q Hq) as [Hq1 Hq2]. set_unfold. tauto.
    + intros y [Hy|Hy]%elem_of_union.
      * destruct (Hr2 y Hy) as (q & Hq & Hr). exists q. split; [by right|done].
      * exists p. split; [left|]. by apply Hr1.
    + intros y q [Hy|Hy]%elem_of_union Hq.
      * destruct (Hc2 y q Hy Hq) as [Ha Hb]. set_unfold. tauto.
      * destruct (Hc1 y q Hy Hq) as [Ha Hb]. set_unfold. tauto.
    + intros q c Hqc.
      apply elem_of_union in Hqc as [[Hqc|Hqc]%elem_of_union|Hqc%elem_of_singleton].
      * destruct (He2 q c Hqc) as [[Ha Hb]|[-> Hb]].
        -- left. split; [set_unfold; tauto|done].
        -- right. split; [done|by right].
      * destruct (He1 q c Hqc) as [Ha Hb]. left. split; [set_unfold; tauto|done].
      * injection Hqc as -> ->. right. split; [done|left].
Qed.

Lemma build_spec h depth :
  wf_heap h →
  ∀ n N E, n < depth →
    ∃ N' E',
      build depth h n (N, E) = Some (N' ∪ N, E' ∪ E)
      ∧ n ∈ N' ∪ N
      ∧ (∀ y, y ∈ N' → reachable h n y)
      ∧ (∀ y p, y ∈ N' → p ∈ parents_of h y → p ∈ N' ∪ N ∧ (p, y) ∈ E')
      ∧ (∀ p c, (p, c) ∈ E' → c ∈ N' ∧ p ∈ parents_of h c).
Proof.
  intros Hwf. induction depth as [|depth IH]; intros n N E Hn; [lia|].
  simpl. destruct (decide (n ∈ N)) as [HnN|HnN].
  - exists ∅, ∅. rewrite !(left_id_L ∅ (∪)).
    split; [done|]. split; [done|].
    split; [intros y Hy; by apply elem_of_empty in Hy|].
    split; [intros y q Hy; by apply elem_of_empty in Hy|].
    intros q c Hq. by apply elem_of_empty in Hq.
  - destruct (build_loop h depth n (elements (parents_of h n)) IH ({[n]} ∪ N) E)
      as (N1 & E1 & Heq & Hps & Hr & Hc & He).
    { intros p Hp%elem_of_elements. specialize (Hwf _ _ Hp). lia. }
    exists (N1 ∪ {[n]}), E1. rewrite Heq.
    split; [f_equal; f_equal; apply set_eq; intros z; set_unfold; tauto|].
    split; [set_unfold; tauto|]. split; [|split].
    + intros y [Hy|Hy%elem_of_singleton]%elem_of_union.
      * destruct (Hr y Hy) as (p & Hp%elem_of_elements & Hpy).
        by eapply reachable_parent.
      * subst y. apply rtc_refl.
    + intros y p [Hy|Hy%elem_of_singleton]%elem_of_union Hp.
      * destruct (Hc y p Hy Hp) as [Ha Hb]. split; [set_unfold; tauto|done].
      * subst y. apply elem_of_elements in Hp.
        destruct (Hps p Hp) as [Ha Hb]. split; [set_unfold; tauto|done].
    + intros p c Hpc. destruct (He p c Hpc) as [[Ha Hb]|[-> Hb%elem_of_elements]].
      * split; [set_unfold; tauto|done].
      * split; [set_unfold; tauto|done].
Qed.

(** X18.  On a graph the operators can build, [graph_object] returns the
    set of the nodes reachable from the root, which is the set of the
    nodes [_sort_nodes] lists, and the set of all pairs (parent, child)
    whose child is reachable from the root. *)
Theorem graph_object_spec h self :
  wf_heap h → self < length h →
  ∃ nodes edges l,
    graph_object h self = Some (nodes, edges)
    ∧ (∀ x, x ∈ nodes ↔ reachable h self x)
    ∧ (∀ p c, (p, c) ∈ edges ↔ reachable h self c ∧ p ∈ parents_of h c)
    ∧ _sort_nodes h self = Some l
    ∧ nodes = list_to_set l.
Proof.
  intros Hwf Hself.
  destruct (build_spec h (S (length h)) Hwf self ∅ ∅) as (N & E & Heq & Hin & Hr & Hc & He);
    [lia|].
  rewrite !(right_id_L ∅ (∪)) in Heq. rewrite (right_id_L ∅ (∪)) in Hin.
  assert (∀ x, x ∈ N ↔ reachable h self x) as Hnodes.
  { assert (∀ x y, reachable h x y → x ∈ N → y ∈ N) as Hclosed.
    { intros x y Hxy. induction Hxy as [|a b c Hab _ IHx]; [done|].
      intros Ha. apply IHx. destruct (Hc a b Ha Hab) as [Hb _].
      by rewrite (right_id_L ∅ (∪)) in Hb. }
    intros x. split; [apply Hr|]. intros Hx. by apply (Hclosed self). }
  destruct (sort_nodes_post h self Hwf Hself) as (l & Hl & Hinv & Hsl & Hreach & _).
  exists N, E, l. split; [exact Heq|]. split; [exact Hnodes|]. split; [|split; [done|]].
  - intros p c. split.
    + intros Hpc. destruct (He p c Hpc) as [Ha Hb]. split; [by apply Hnodes|done].
    + intros [Hc' Hp]. apply Hnodes in Hc'. by destruct (Hc c p Hc' Hp).
  - apply set_eq. intros x. rewrite Hnodes, elem_of_list_to_set. split.
    + intros Hx. by eapply topo_inv_closed.
    + intros Hx. rewrite Forall_forall in Hreach. by apply Hreach.
Qed.

End GraphObject.

Lemma graph_object_spec_witness :
  ∃ nodes edges l,
    graph_object Examples.scenario2_graph 4 = Some (nodes, edges)
    ∧ (∀ x, x ∈ nodes ↔ reachable Examples.scenario2_graph 4 x)
    ∧ (∀ p c, (p, c) ∈ edges
              ↔ reachable Examples.scenario2_graph 4 c
                ∧ p ∈ parents_of Examples.scenario2_graph c)
    ∧ _sort_nodes Examples.scenario2_graph 4 = Some l
    ∧ nodes = list_to_set l.
Proof.
  apply graph_object_spec.
  - apply wf_heapb_sound. vm_compute. reflexivity.
  - vm_compute. lia.
Defined.

(* ================================================================= *)
(** ** rNode.py: what a backward pass depends on and what it changes *)

Section BackwardFacts.
Context {F : Type} `{PyNum F}.
Implicit Types (h : list (rNode F)).
Local Open Scope num_scope.

Lemma same_shape_sym h h' : same_shape h h' → same_shape h' h.
Proof. unfold same_shape. by intros ->. Qed.

Lemma for_each_ext {S : Type} (f g : nat → S → option S) xs s :
  (∀ x s, f x s = g x s) → for_each f xs s = for_each g xs s.
Proof.
  intros Hfg. revert s. induction xs as [|x xs IH]; intros s; simpl; [done|].
  rewrite Hfg. destruct (g x s); [apply IH|done].
Qed.

Lemma toposort_parents_ext h h' depth :
  (∀ x, parents_of h' x = parents_of h x) →
  ∀ n s, toposort depth h' n s = toposort depth h n s.
Proof.
  intros Hp. induction depth as [|depth IH]; intros n s; simpl; [done|].
  destruct (decide (n ∈ s.1)); [done|].
  rewrite Hp. by rewrite (for_each_ext _ (toposort depth h)).
Qed.

Lemma sort_nodes_same_shape h h' self :
  same_shape h h' → _sort_nodes h' self = _sort_nodes h self.
Proof.
  intros Hs. unfold _sort_nodes. rewrite (same_shape_length _ _ Hs).
  rewrite (toposort_parents_ext h h'); [done|].
  intros x. by apply same_shape_parents.
Qed.

Lemma rule_touches h y t :
  wf_rules h → t ∈ touches (backward_func_of h y) → t = y ∨ t ∈ parents_of h y.
Proof.
  intros Hr. unfold backward_func_of, parents_of.
  destruct (h !! y) as [nd|] eqn:Hy; simpl; [|by intros ?%elem_of_nil].
  specialize (Hr y nd Hy). unfold rule_ok in Hr.
  destruct (backward_func nd) as [|op s o r|b s r|f a r|b a r]; simpl;
    [by intros ?%elem_of_nil|..]; destruct Hr as [-> ->]; intros Ht;
    set_unfold; tauto.
Qed.

Lemma wf_rules_same_shape h h' : same_shape h h' → wf_rules h → wf_rules h'.
Proof.
  intros Hs Hr y nd Hy. pose proof (same_shape_lookup _ _ y Hs) as Hl.
  rewrite Hy in Hl. destruct (h !! y) as [nd0|] eqn:Hy0; [|done].
  specialize (Hr y nd0 Hy0). unfold rule_ok in *.
  cbn in Hl. injection Hl as Hv Hb Ho Hp Hn. by rewrite Hb, Hp.
Qed.

Lemma der_of_out_of_range h x : (length h ≤ x)%nat → der_of h x = lit 0.
Proof. intros Hx. unfold der_of. by rewrite lookup_ge_None_2. Qed.

Lemma accumulate_agree l x d h h' :
  adjoints_agree l h h' → x ∈ l →
  adjoints_agree l (accumulate x d h) (accumulate x d h').
Proof.
  intros [Hs Hd] Hx. split.
  - eapply same_shape_trans; [apply same_shape_sym, same_shape_accumulate|].
    eapply same_shape_trans; [exact Hs|]. apply same_shape_accumulate.
  - intros y Hy. pose proof (same_shape_length _ _ Hs) as Hlen.
    destruct (decide (x = y)) as [->|Hne].
    + destruct (decide (y < length h)%nat) as [Hlt|Hge].
      * rewrite !der_of_accumulate_eq by lia. by rewrite Hd.
      * rewrite !der_of_out_of_range; [done| |].
        -- unfold accumulate. rewrite length_write_der. lia.
        -- unfold accumulate. rewrite length_write_der. lia.
    + rewrite !der_of_accumulate_ne by done. by apply Hd.
Qed.

Lemma call_backward_func_agree l c h h' :
  adjoints_agree l h h' → (∀ t, t ∈ touches c → t ∈ l) →
  adjoints_agree l (call_backward_func c h) (call_backward_func c h').
Proof.
  intros Hag Hl.
  assert (∀ h1 h1' x, adjoints_agree l h1 h1' → val_of h1 x = val_of h1' x) as Hval.
  { intros h1 h1' x [Hs1 _]. symmetry. by apply same_shape_val. }
  destruct c as [|op s o r|b s r|f a r|b a r]; simpl; [done|..].
  - assert (s ∈ l ∧ o ∈ l ∧ r ∈ l) as (Hs & Ho & Hr).
    { split; [|split]; apply Hl; simpl; set_unfold; tauto. }
    rewrite (Hval h h' s Hag), (Hval h h' o Hag), (proj2 Hag r Hr).
    set (h1 := accumulate s _ h). set (h1' := accumulate s _ h').
    assert (adjoints_agree l h1 h1') as Hag1 by (by apply accumulate_agree).
    rewrite (Hval h1 h1' s Hag1), (Hval h1 h1' o Hag1), (proj2 Hag1 r Hr).
    by apply accumulate_agree.
  - assert (s ∈ l ∧ r ∈ l) as (Hs & Hr).
    { split; apply Hl; simpl; set_unfold; tauto. }
    rewrite (Hval h h' s Hag), (proj2 Hag r Hr). by apply accumulate_agree.
  - assert (a ∈ l ∧ r ∈ l) as (Ha & Hr).
    { split; apply Hl; simpl; set_unfold; tauto. }
    rewrite (Hval h h' a Hag), (proj2 Hag r Hr). by apply accumulate_agree.
  - assert (a ∈ l ∧ r ∈ l) as (Ha & Hr).
    { split; apply Hl; simpl; set_unfold; tauto. }
    rewrite (Hval h h' a Hag), (proj2 Hag r Hr). by apply accumulate_agree.
Qed.

Lemma backward_loop_agree n l h0 :
  wf_rules h0 →
  (∀ y p, y ∈ l → p ∈ parents_of h0 y → p ∈ l) →
  ∀ ys row h h',
    (∀ y, y ∈ ys → y ∈ l) → same_shape h0 h → adjoints_agree l h h' →
    (foldl (backward_step n) (row, h) ys).1 = (foldl (backward_step n) (row, h') ys).1.
Proof.
  intros Hr Hclosed ys. induction ys as [|y ys IH]; intros row h h' Hys Hs0 Hag; [done|].
  simpl. destruct Hag as [Hs Hd].
  rewrite (same_shape_name _ _ y Hs), (same_shape_backward_func _ _ y Hs).
  rewrite <- (Hd y) by (apply Hys; left).
  apply IH.
  - intros z Hz. apply Hys. by right.
  - eapply same_shape_trans; [exact Hs0|]. apply same_shape_call_backward_func.
  - apply call_backward_func_agree; [done|].
    intros t Ht. rewrite (same_shape_backward_func _ _ y Hs0) in Ht.
    destruct (rule_touches h0 y t Hr Ht) as [->|Hp].
    + apply Hys. left.
    + apply (Hclosed y); [apply Hys; left|done].
Qed.

Lemma backward_total h self (n : nat) :
  wf_heap h → (self < length h)%nat → ∃ row h', backward self n h = Some (row, h').
Proof.
  intros Hwf Hself.
  destruct (sort_nodes_post h self Hwf Hself) as (l & Heq & _).
  unfold backward. rewrite Heq.
  destruct (foldl (backward_step n)
              (replicate n (lit 0), write_der self (lit 1) (zero_adjoints l h))
              (reverse l)) as [row h'].
  by exists row, h'.
Qed.


(** X20.  A backward pass changes adjoints only, and only those of nodes
    reachable from the root: values, parents, rules and creation indices
    of all nodes stay as they are, and so does the adjoint of every node
    that is not an ancestor of the root. *)
Theorem backward_changes_adjoints_only h self (n : nat) row h' :
  wf_heap h → wf_rules h → (self < length h)%nat →
  backward self n h = Some (row, h') →
  same_shape h h'
  ∧ ∀ x, ¬ reachable h self x → der_of h' x = der_of h x.
Proof.
  intros Hwf Hr Hself Hb. split; [by eapply same_shape_backward|].
  intros x Hx.
  destruct (sort_nodes_post h self Hwf Hself) as (l & Heq & Hinv & Hin & Hreach & _).
  unfold backward in Hb. rewrite Heq in Hb. injection Hb as Hb.
  set (h0 := write_der self (lit 1) (zero_adjoints l h)) in *.
  assert (same_shape h h0) as Hs0.
  { eapply same_shape_trans; [apply same_shape_zero_adjoints | apply same_shape_write_der]. }
  assert (x ∉ l) as Hxl.
  { intros Hin'. apply Hx. rewrite Forall_forall in Hreach. by apply Hreach. }
  pose proof (wf_rules_same_shape _ _ Hs0 Hr) as Hr0.
  pose proof (backward_loop_other n (reverse l) x h0 Hr0) as Hloop.
  apply (f_equal snd) in Hb. simpl in Hb. rewrite <- Hb, Hloop.
  - unfold h0. rewrite der_of_write_der_ne by (intros <-; done).
    by apply zero_adjoints_other.
  - intros y Hy Hp. rewrite elem_of_reverse in Hy. apply Hx.
    rewrite Forall_forall in Hreach.
    eapply rtc_r; [by apply Hreach|]. by rewrite <- (same_shape_parents _ _ y Hs0).
  - apply same_shape_refl.
Qed.

(** X21.  The entry of the row at column [j] is 0 when no node reachable
    from the root has the creation index [j]: an input that the output
    does not depend on has the derivative 0. *)
Theorem backward_unreached_column h self (n j : nat) row h' :
  wf_heap h → (self < length h)%nat →
  backward self n h = Some (row, h') →
  (j < n)%nat → (∀ x, reachable h self x → name_of h x ≠ j) →
  row !! j = Some (lit 0).
Proof.
  intros Hwf Hself Hb Hj Hname.
  destruct (sort_nodes_post h self Hwf Hself) as (l & Heq & Hinv & Hin & Hreach & _).
  unfold backward in Hb. rewrite Heq in Hb. injection Hb as Hb.
  set (h0 := write_der self (lit 1) (zero_adjoints l h)) in *.
  assert (same_shape h h0) as Hs0.
  { eapply same_shape_trans; [apply same_shape_zero_adjoints | apply same_shape_write_der]. }
  assert (∀ ys r0 hk, (∀ y, y ∈ ys → y ∈ l) → same_shape h hk →
            r0 !! j = Some (lit 0) →
            (foldl (backward_step n) (r0, hk) ys).1 !! j = Some (lit 0)) as Hloop.
  { induction ys as [|y ys IH]; intros r0 hk Hys Hsk Hr0; [done|].
    simpl. apply IH.
    - intros z Hz. apply Hys. by right.
    - eapply same_shape_trans; [exact Hsk|]. apply same_shape_call_backward_func.
    - destruct (decide (name_of hk y < n)%nat); [|done].
      rewrite list_lookup_insert_ne; [done|].
      rewrite (same_shape_name _ _ y Hsk). apply Hname.
      rewrite Forall_forall in Hreach. apply Hreach. apply Hys. left. }
  apply (f_equal fst) in Hb. simpl in Hb. rewrite <- Hb. apply Hloop.
  - intros y Hy. by rewrite elem_of_reverse in Hy.
  - done.
  - by apply lookup_replicate_2.
Qed.

End BackwardFacts.

Lemma wf_rules_scenario2 : wf_rules Examples.scenario2_graph.
Proof.
  intros x nd Hx.
  repeat (destruct x as [|x];
          [injection Hx as <-; unfold rule_ok; simpl;
           first [done | split; [done|]; apply set_eq; intros z; set_unfold; tauto]|]).
  done.
Qed.


Lemma backward_changes_adjoints_only_witness :
  ∃ row h',
    backward 4 2 Examples.scenario2_graph = Some (row, h')
    ∧ same_shape Examples.scenario2_graph h'
    ∧ ∀ x, ¬ reachable Examples.scenario2_graph 4 x
           → der_of h' x = der_of Examples.scenario2_graph x.
Proof.
  assert (wf_heap Examples.scenario2_graph) as Hwf.
  { apply wf_heapb_sound. vm_compute. reflexivity. }
  assert (4 < length Examples.scenario2_graph) as Hlen by (vm_compute; lia).
  destruct (backward_total Examples.scenario2_graph 4 2 Hwf Hlen) as (row & h' & Hb).
  exists row, h'. split; [exact Hb|].
  exact (backward_changes_adjoints_only Examples.scenario2_graph 4 2 row h'
           Hwf wf_rules_scenario2 Hlen Hb).
Defined.

Lemma backward_unreached_column_witness :
  ∃ row h',
    backward 0 2 Examples.scenario2_graph = Some (row, h')
    ∧ row !! 1 = Some 0%R.
Proof.
  assert (wf_heap Examples.scenario2_graph) as Hwf.
  { apply wf_heapb_sound. vm_compute. reflexivity. }
  assert (0 < length Examples.scenario2_graph) as Hlen by (vm_compute; lia).
  destruct (backward_total Examples.scenario2_graph 0 2 Hwf Hlen) as (row & h' & Hb).
  exists row, h'. split; [exact Hb|].
  apply (backward_unreached_column Examples.scenario2_graph 0 2 1 row h' Hwf Hlen Hb).
  - lia.
  - intros x Hx. pose proof (reachable_le _ _ _ Hwf Hx) as Hle.
    assert (x = 0) as -> by lia. vm_compute. lia.
Defined.

(* ================================================================= *)
(** ** func.py: forward mode never touches the store *)

Section ForwardPurity.
Context {F : Type} `{PyNum F}.
Implicit Types (st : rstate F).

Lemma pure_ret {A} (a : A) st (P : A → Prop) : P a → pure_at (ret a) st P.
Proof. intros Ha. split; [done|]. intros b Hb. by injection Hb as <-. Qed.

Lemma pure_raise {A} e st (P : A → Prop) : pure_at (raise e) st P.
Proof. by split. Qed.

Lemma pure_lift {A} (r : result A) st (P : A → Prop) :
  (∀ a, r = Ok a → P a) → pure_at (lift r) st P.
Proof. intros Hr. by split. Qed.

Lemma pure_bind {A B} (m : M F A) (k : A → M F B) st (P : A → Prop) (Q : B → Prop) :
  pure_at m st P → (∀ a, P a → pure_at (k a) st Q) → pure_at (bind m k) st Q.
Proof.
  intros [Hst Hm] Hk. unfold pure_at, bind in *.
  destruct (m st) as [[a|e] st1] eqn:Heq; simpl in *; subst st1; [|done].
  apply Hk. by apply Hm.
Qed.

Lemma pure_weaken {A} (m : M F A) st (P Q : A → Prop) :
  pure_at m st P → (∀ a, P a → Q a) → pure_at m st Q.
Proof. intros [Hst Hm] HPQ. split; [done|]. intros a Ha. by apply HPQ, Hm. Qed.

Lemma pure_for_loop {A S} (body : A → S → M F S) st (Q : S → Prop) xs :
  (∀ x s, Q s → pure_at (body x s) st Q) →
  ∀ s, Q s → pure_at (for_loop body xs s) st Q.
Proof.
  intros Hbody. induction xs as [|x xs IH]; intros s Hs; simpl.
  - by apply pure_ret.
  - eapply pure_bind; [by apply Hbody|]. intros s' Hs'. by apply IH.
Qed.

Lemma pure_apply_arith op (a b : pyval F) st :
  node_free a → node_free b → pure_at (apply_arith op a b) st node_free.
Proof.
  intros Ha Hb. destruct a as [x|z|?|], b as [y|w|?|]; try done; simpl;
    first [by apply pure_ret | by apply pure_raise
          | apply (pure_bind _ _ st (fun _ => True)); [by apply pure_lift|];
            intros r _; by apply pure_ret].
Qed.

Lemma pure_apply_neg (a : pyval F) st :
  node_free a → pure_at (apply_neg a) st node_free.
Proof.
  intros Ha. destruct a as [x|z|?|]; try done; simpl;
    first [by apply pure_ret | by apply pure_raise].
Qed.

Lemma pure_elementary f (a : pyval F) st :
  node_free a → pure_at (operators.elementary f a) st node_free.
Proof.
  intros Ha. destruct a as [x|z|?|]; try done; simpl.
  - destruct (operators.domain_guard f x); [apply pure_raise | by apply pure_ret].
  - destruct (operators.domain_guard f (real z)); [apply pure_raise | by apply pure_ret].
Qed.

Lemma pure_log_base (a : pyval F) base st :
  node_free a → pure_at (operators.log_base a base) st node_free.
Proof.
  intros Ha. destruct a as [x|z|?|], base as [b|]; try done; simpl;
    try apply pure_raise; case_bool_decide; first [apply pure_raise | by apply pure_ret].
Qed.

Lemma pure_eval (e : expr F) env st :
  Forall node_free env → pure_at (eval e env) st node_free.
Proof.
  intros Henv. induction e as [i|c|e IH|op e1 IH1 e2 IH2|f e IH|e IH b]; simpl.
  - destruct (env !! i) as [v|] eqn:Hi; [|apply pure_raise].
    apply pure_ret. rewrite Forall_forall in Henv. apply Henv.
    by eapply list_elem_of_lookup_2.
  - by apply pure_ret.
  - eapply pure_bind; [exact IH|]. intros a Ha. by apply pure_apply_neg.
  - eapply pure_bind; [exact IH1|]. intros a Ha.
    eapply pure_bind; [exact IH2|]. intros b Hb. by apply pure_apply_arith.
  - eapply pure_bind; [exact IH|]. intros a Ha. by apply pure_elementary.
  - eapply pure_bind; [exact IH|]. intros a Ha. by apply pure_log_base.
Qed.

Lemma pure_eval_tuple (es : list (expr F)) env st :
  Forall node_free env → pure_at (eval_tuple es env) st (fun _ => True).
Proof.
  intros Henv. induction es as [|e es IH]; simpl; [by apply pure_ret|].
  eapply pure_bind; [by apply pure_eval|]. intros v Hv.
  eapply pure_bind; [exact IH|]. intros vs _. by apply pure_ret.
Qed.

Lemma pure_exec (s : stmt F) env st :
  Forall node_free env → pure_at (exec s env) st (fun _ => True).
Proof.
  revert env. induction s as [e rest IH|e|es]; intros env Henv; simpl.
  - eapply pure_bind; [by apply pure_eval|]. intros v Hv.
    apply IH. apply Forall_app. split; [done|]. by apply Forall_singleton.
  - eapply pure_bind; [by apply pure_eval|]. intros v Hv. by apply pure_ret.
  - eapply pure_bind; [by apply pure_eval_tuple|]. intros vs _. by apply pure_ret.
Qed.

Lemma pure_call (f : pyfunc F) args st :
  Forall node_free args → pure_at (call f args) st (fun _ => True).
Proof.
  intros Hargs. unfold call.
  destruct (decide (length args = nparams f)); [by apply pure_exec | apply pure_raise].
Qed.

Lemma pure_seed_duals n (point : list (pyval F)) seed st :
  pure_at (seed_duals n point seed) st (Forall node_free).
Proof.
  unfold seed_duals. apply pure_for_loop; [|done].
  intros j zs Hzs. destruct (point !! j) as [[c|z|x|]|]; try apply pure_raise.
  apply pure_ret. apply Forall_app. split; [done|]. by apply Forall_singleton.
Qed.

Lemma pure_dual_at (vs : list (pyval F)) k st : pure_at (dual_at vs k) st (fun _ => True).
Proof.
  unfold dual_at. destruct (vs !! k) as [[c|z|x|]|]; try apply pure_raise.
  by apply pure_ret.
Qed.

Lemma pure_forward self (point : list (pyval F)) st :
  pure_at (_forward self point) st (fun _ => True).
Proof.
  unfold _forward. apply pure_for_loop; [|done].
  intros i [val jac] _.
  eapply pure_bind; [apply pure_seed_duals|]. intros zs Hzs.
  eapply pure_bind; [by apply pure_call|]. intros res _.
  destruct res as [[c|d|x|]|vs]; try apply pure_raise.
  - destruct (decide (num_outputs self = 1)); [by apply pure_ret | apply pure_raise].
  - destruct (decide (length vs = num_outputs self)); [|apply pure_raise].
    apply pure_for_loop; [|done]. intros k [val' jac'] _.
    eapply pure_bind; [apply pure_dual_at|]. intros d _. by apply pure_ret.
Qed.

Lemma pure_trace_duals n (point seed : list (pyval F)) st :
  pure_at
    (for_loop (fun j zs => let* z := trace_dual point seed j in ret (zs ++ [z]))
              (seq 0 n) [])
    st (Forall node_free).
Proof.
  apply pure_for_loop; [|done]. intros j zs Hzs.
  eapply pure_bind with (P := node_free).
  - unfold trace_dual.
    destruct (point !! j) as [[c|z|x|]|], (seed !! j) as [[d|w|y|]|];
      try apply pure_raise. by apply pure_ret.
  - intros z Hz. apply pure_ret. apply Forall_app. split; [done|].
    by apply Forall_singleton.
Qed.

(** X22.  Forward mode never creates a node and never changes the
    counter: whatever the arguments and whatever the outcome, the store
    after [jacobian] without [reverse] and after [trace] is the store
    before; the same holds for [__call__] on a point of plain numbers. *)
Theorem forward_mode_leaves_store self (point seed_vector : py_arg F) (feval : bool)
    (cs : list F) st :
  (Func_jacobian self point feval false st).2 = st
  ∧ (Func_trace self point seed_vector st).2 = st
  ∧ (Func_call self (ArgList (VNum <$> cs)) st).2 = st.
Proof.
  split; [|split].
  - apply (pure_bind _ _ st (fun _ => True) (fun _ => True)); [by apply pure_lift|].
    intros p _. destruct (decide (length p ≠ num_inputs self)); [apply pure_raise|].
    apply (pure_bind _ _ st (fun _ => True)).
    + simpl. eapply pure_bind; [apply pure_forward|]. intros r _.
      by apply pure_ret.
    + intros [val jac] _.
      destruct feval, (bool_decide _); by apply pure_ret.
  - apply (pure_bind _ _ st (fun _ => True) (fun _ => True)); [by apply pure_lift|].
    intros p _. destruct seed_vector as [d|ds|]; try apply pure_raise.
    destruct (decide (length p ≠ num_inputs self)); [apply pure_raise|].
    destruct (decide (length p ≠ length ds)); [apply pure_raise|].
    eapply pure_bind; [apply pure_trace_duals|]. intros zs Hzs.
    eapply pure_bind; [by apply pure_call|]. intros res _.
    destruct res as [[c|d|x|]|vs]; try apply pure_raise.
    + destruct (decide (num_outputs self = 1)); [by apply pure_ret | apply pure_raise].
    + destruct (decide (length vs = num_outputs self)); [|apply pure_raise].
      apply pure_for_loop; [|done]. intros k [val' der'] _.
      eapply pure_bind; [apply pure_dual_at|]. intros d _. by apply pure_ret.
  - assert (Forall node_free (VNum <$> cs)) as Hcs.
    { apply Forall_fmap, Forall_true. done. }
    apply (pure_bind _ _ st (fun p => p = VNum <$> cs) (fun _ => True)).
    { apply pure_lift. intros p Hp. by injection Hp as <-. }
    intros p ->.
    destruct (decide (length (VNum <$> cs) ≠ num_inputs self)); [apply pure_raise|].
    destruct (decide (num_outputs self = 1));
      (eapply pure_bind; [by apply pure_call|]; intros r _; by apply pure_ret).
Qed.

End ForwardPurity.

(* ================================================================= *)
(** ** func.py: argument checks *)

Section ArgumentChecks.
Context {F : Type} `{PyNum F}.
Implicit Types (st : rstate F).

(** X23.  Every public method rejects a point that is neither a number
    nor a list with [AssertionError] and a point whose length is not
    [num_inputs] with the dimension [ValueError]; in both cases the store
    and the counter are untouched, also for [jacobian] in reverse mode.
    [graph] checks [num_outputs] and the direction first: with more than
    one output or a direction other than ['LR'] and ['TB'] it raises
    [AssertionError] whatever the point is. *)
Theorem argument_checks self (point : py_arg F) (feval reverse : bool)
    (seed : list (pyval F)) (dir : string) st :
  let graph_ok := num_outputs self = 1 ∧ (dir = "LR"%string ∨ dir = "TB"%string) in
  let bad :=
    match promote_point point with
    | Raise _ => Some AssertionError
    | Ok p => if decide (length p ≠ num_inputs self)
              then Some (ValueError point_dimension_msg) else None
    end in
  (¬ graph_ok → Func_graph self point dir st = (Raise AssertionError, st))
  ∧ ∀ e, bad = Some e →
      Func_call self point st = (Raise e, st)
      ∧ Func_jacobian self point feval reverse st = (Raise e, st)
      ∧ Func_trace self point (ArgList seed) st = (Raise e, st)
      ∧ (graph_ok → Func_graph self point dir st = (Raise e, st)).
Proof.
  simpl. split.
  - intros Hno. unfold Func_graph.
    destruct (decide (num_outputs self = 1)) as [Ho|Ho]; [|done].
    destruct (decide (dir = "LR"%string ∨ dir = "TB"%string)) as [Hd|Hd]; [|done].
    exfalso. by apply Hno.
  - intros e Hbad. unfold Func_call, Func_jacobian, Func_trace, Func_graph.
    destruct point as [c|p|]; simpl in *.
    + destruct (decide (1 ≠ num_inputs self)) as [Hn|Hn]; [|done].
      injection Hbad as <-. unfold bind, lift. simpl.
      rewrite !(decide_True (P := 1 ≠ num_inputs self)) by done.
      split; [done|]. split; [done|]. split; [done|].
      intros [Ho Hd]. by rewrite (decide_True _ _ Ho), (decide_True _ _ Hd).
    + destruct (decide (length p ≠ num_inputs self)) as [Hn|Hn]; [|done].
      injection Hbad as <-. unfold bind, lift. simpl.
      rewrite !(decide_True (P := length p ≠ num_inputs self)) by done.
      split; [done|]. split; [done|]. split; [done|].
      intros [Ho Hd]. by rewrite (decide_True _ _ Ho), (decide_True _ _ Hd).
    + injection Hbad as <-. unfold bind, lift. simpl.
      split; [done|]. split; [done|]. split; [done|].
      intros [Ho Hd]. by rewrite (decide_True _ _ Ho), (decide_True _ _ Hd).
Qed.

Lemma for_loop_raises {A S : Type} (body : A → S → M F S) xs e :
  (∀ x s st, x ∈ xs → (body x s st).1 = Raise e ∨ ∃ s', (body x s st).1 = Ok s') →
  (∃ x, x ∈ xs ∧ ∀ s st, (body x s st).1 = Raise e) →
  ∀ s st, (for_loop body xs s st).1 = Raise e.
Proof.
  induction xs as [|x xs IH]; intros Hall (x0 & Hx0 & Hraise) s st.
  - by apply elem_of_nil in Hx0.
  - simpl. unfold bind.
    destruct (body x s st) as [[s'|e'] st1] eqn:Hb.
    + apply IH.
      * intros y s0 st0 Hy. apply Hall. by right.
      * apply elem_of_cons in Hx0 as [->|Hx0]; [|by exists x0].
        specialize (Hraise s st). by rewrite Hb in Hraise.
    + destruct (Hall x s st) as [Hr|[s' Hs']]; [left| |].
      * by rewrite Hb in Hr.
      * by rewrite Hb in Hs'.
Qed.

Lemma bind_raise_1 {A B} (m : M F A) (k : A → M F B) st e :
  (m st).1 = Raise e → (bind m k st).1 = Raise e.
Proof. unfold bind. by destruct (m st) as [[a|e'] st1]; simpl; intros ?; simplify_eq. Qed.

Lemma wrap_inputs_raises (p : list (pyval F)) st :
  (∃ v, v ∈ p ∧ ¬ is_number v) → (wrap_inputs p st).1 = Raise AssertionError.
Proof.
  intros (v & Hv & Hnum). unfold wrap_inputs. apply for_loop_raises.
  - intros x zs st0 _. destruct x as [c| | |]; [right|left..]; try done.
    by eexists.
  - exists v. split; [done|]. intros zs st0.
    destruct v as [c| | |]; try done. exfalso. apply Hnum. by exists c.
Qed.

Lemma seed_duals_raises (p : list (pyval F)) seed st :
  (∃ v, v ∈ p ∧ ¬ is_number v) →
  (seed_duals (length p) p seed st).1 = Raise AssertionError.
Proof.
  intros (v & Hv & Hnum). unfold seed_duals. apply for_loop_raises.
  - intros j zs st0 Hj%elem_of_seq.
    destruct (lookup_lt_is_Some_2 p j) as [x Hx]; [lia|]. rewrite Hx.
    destruct x as [c| | |]; [right|left..]; try done. by eexists.
  - apply list_elem_of_lookup in Hv as [j Hj]. exists j. split.
    + apply elem_of_seq. pose proof (lookup_lt_Some _ _ _ Hj). lia.
    + intros zs st0. rewrite Hj. destruct v as [c| | |]; try done.
      exfalso. apply Hnum. by exists c.
Qed.

(** X24.  A coordinate of the point that is not a number makes
    [jacobian] raise [AssertionError] in both modes and [graph] raise
    [AssertionError]; [trace] has no such assertion and raises the
    [TypeError] of the [DualNumber] constructor instead. *)
Theorem non_number_coordinate self (p seed : list (pyval F)) (feval : bool)
    (dir : string) st :
  length p = num_inputs self → (∃ v, v ∈ p ∧ ¬ is_number v) →
  (Func_jacobian self (ArgList p) feval false st).1 = Raise AssertionError
  ∧ (Func_jacobian self (ArgList p) feval true st).1 = Raise AssertionError
  ∧ (length seed = length p →
     (Func_trace self (ArgList p) (ArgList seed) st).1 = Raise TypeError)
  ∧ (num_outputs self = 1 → dir = "LR"%string ∨ dir = "TB"%string →
     (Func_graph self (ArgList p) dir st).1 = Raise AssertionError).
Proof.
  intros Hlen Hbad.
  assert (0 < num_inputs self) as Hpos.
  { destruct Hbad as (v & Hv & _). destruct p; [by apply elem_of_nil in Hv|].
    simpl in Hlen. lia. }
  split; [|split; [|split]].
  - unfold Func_jacobian, bind at 1, lift. simpl.
    rewrite decide_False by (intros Hne; by apply Hne).
    apply bind_raise_1. simpl. apply bind_raise_1. unfold _forward.
    destruct (num_inputs self) as [|n] eqn:Hn; [lia|].
    cbn [seq for_loop]. apply bind_raise_1. apply bind_raise_1.
    rewrite <- Hlen. by apply seed_duals_raises.
  - unfold Func_jacobian, bind at 1, lift. simpl.
    rewrite decide_False by (intros Hne; by apply Hne).
    apply bind_raise_1. simpl. unfold _reverse. unfold bind at 1. simpl.
    apply bind_raise_1. by apply wrap_inputs_raises.
  - intros Hseed. unfold Func_trace, bind at 1, lift. simpl.
    rewrite decide_False by (intros Hne; by apply Hne).
    rewrite decide_False by (intros Hne; by apply Hne).
    apply bind_raise_1. apply for_loop_raises.
    + intros j zs st0 Hj%elem_of_seq. unfold bind, trace_dual.
      destruct (lookup_lt_is_Some_2 p j) as [x Hx]; [lia|].
      destruct (lookup_lt_is_Some_2 seed j) as [d Hd]; [lia|].
      rewrite Hx, Hd. destruct x as [c| | |], d as [c'| | |]; simpl; try (by left).
      right. by eexists.
    + destruct Hbad as (v & Hv & Hnum).
      apply list_elem_of_lookup in Hv as [j Hj]. exists j.
      pose proof (lookup_lt_Some _ _ _ Hj) as Hjl. split.
      * apply elem_of_seq. lia.
      * intros zs st0. unfold bind, trace_dual.
        destruct (lookup_lt_is_Some_2 seed j) as [d Hd]; [lia|].
        rewrite Hj, Hd. destruct v as [c| | |]; [exfalso; apply Hnum; by exists c|..];
          by destruct d.
  - intros Ho Hd. unfold Func_graph.
    rewrite (decide_True _ _ Ho), (decide_True _ _ Hd).
    unfold bind at 1, lift. simpl.
    rewrite decide_False by (intros Hne; by apply Hne).
    apply bind_raise_1. by apply wrap_inputs_raises.
Qed.

End ArgumentChecks.

Lemma non_number_coordinate_witness :
  (Func_jacobian Examples.scenario2 (ArgList [VNum 2%R; VOther]) false false
     Examples.st_init).1 = Raise AssertionError
  ∧ (Func_jacobian Examples.scenario2 (ArgList [VNum 2%R; VOther]) false true
       Examples.st_init).1 = Raise AssertionError
  ∧ (Func_trace Examples.scenario2 (ArgList [VNum 2%R; VOther])
       (ArgList [VNum 1%R; VNum 0%R]) Examples.st_init).1 = Raise TypeError.
Proof.
  assert (∃ v : pyval R, v ∈ [VNum 2%R; VOther] ∧ ¬ is_number v) as Hbad.
  { exists VOther. split; [set_solver|]. by intros [c Hc]. }
  destruct (non_number_coordinate Examples.scenario2 [VNum 2%R; VOther]
              [VNum 1%R; VNum 0%R] false "LR" Examples.st_init eq_refl Hbad)
    as (H1 & H2 & H3 & _).
  split; [exact H1|]. split; [exact H2|]. by apply H3.
Defined.

(* ================================================================= *)
(** ** func.py: the shape of the Jacobian *)

Section JacobianShape.
Context {F : Type} `{PyNum F}.
Implicit Types (st : rstate F).

Lemma bind_ok_inv {A B} (m : M F A) (k : A → M F B) st b :
  (bind m k st).1 = Ok b → ∃ a, (m st).1 = Ok a ∧ (k a (m st).2).1 = Ok b.
Proof.
  unfold bind. destruct (m st) as [[a|e] st1]; simpl; [|done].
  intros Hk. by exists a.
Qed.

Lemma for_loop_inv {A S : Type} (Q : S → Prop) (body : A → S → M F S) xs :
  (∀ x s st s', Q s → (body x s st).1 = Ok s' → Q s') →
  ∀ s st s', Q s → (for_loop body xs s st).1 = Ok s' → Q s'.
Proof.
  intros Hbody. induction xs as [|x xs IH]; intros s st s' Hs Hl; simpl in Hl.
  - by injection Hl as <-.
  - apply bind_ok_inv in Hl as (s1 & H1 & H2). eapply IH; [|exact H2].
    by eapply Hbody.
Qed.

Lemma matrix_shape_zeros (m n : nat) : matrix_shape m n (np_zeros2 (F := F) m n).
Proof.
  split; [apply length_replicate|]. apply Forall_replicate, length_replicate.
Qed.

Lemma matrix_shape_set_column (m n i : nat) d (J : list (list F)) :
  matrix_shape m n J → matrix_shape m n (set_column i d J).
Proof.
  intros [Hl Hr]. unfold set_column. split; [by rewrite length_fmap|].
  apply Forall_fmap. eapply Forall_impl; [exact Hr|].
  intros row Hrow. simpl. by rewrite length_insert.
Qed.

Lemma matrix_shape_set_entry (m n k i : nat) d (J : list (list F)) :
  matrix_shape m n J → matrix_shape m n (set_entry k i d J).
Proof.
  intros [Hl Hr]. unfold set_entry. split; [by rewrite length_alter|].
  apply Forall_alter; [done|].
  intros row Hrow. by rewrite length_insert.
Qed.

Lemma matrix_shape_insert (m n k : nat) row (J : list (list F)) :
  matrix_shape m n J → length row = n → matrix_shape m n (<[k := row]> J).
Proof.
  intros [Hl Hr] Hrow. split; [by rewrite length_insert|].
  by apply Forall_insert.
Qed.

Lemma backward_m_length x (n : nat) st row :
  (backward_m x n st).1 = Ok row → length row = n.
Proof.
  unfold backward_m, backward.
  destruct (_sort_nodes (heap st) x) as [l|]; [|done].
  destruct (foldl _ _ _) as [r h'] eqn:Hf. simpl. intros Heq. injection Heq as <-.
  apply (f_equal fst) in Hf. simpl in Hf. rewrite <- Hf.
  rewrite backward_loop_length. apply length_replicate.
Qed.

Lemma forward_shape self (point : list (pyval F)) st val jac :
  (_forward self point st).1 = Ok (val, jac) →
  matrix_shape (num_outputs self) (num_inputs self) jac.
Proof.
  unfold _forward. intros Hf.
  apply (for_loop_inv
           (fun s => matrix_shape (num_outputs self) (num_inputs self) s.2)) in Hf;
    [done| |apply matrix_shape_zeros].
  intros i [v J] st0 [v' J'] HJ Hb. simpl in *.
  apply bind_ok_inv in Hb as (zs & _ & Hb).
  apply bind_ok_inv in Hb as (res & _ & Hb).
  destruct res as [[c|d|x|]|vs]; try done.
  - destruct (decide (num_outputs self = 1)); [|done].
    injection Hb as <- <-. by apply matrix_shape_set_column.
  - destruct (decide (length vs = num_outputs self)); [|done].
    apply (for_loop_inv
             (fun s => matrix_shape (num_outputs self) (num_inputs self) s.2)) in Hb;
      [done| |done].
    intros k [v1 J1] st1 [v2 J2] HJ1 Hk. simpl in *.
    apply bind_ok_inv in Hk as (d & _ & Hk). injection Hk as <- <-.
    by apply matrix_shape_set_entry.
Qed.

Lemma backward_rows_shape self (res : pyobj F) st val jac :
  (backward_rows self res st).1 = Ok (val, jac) →
  matrix_shape (num_outputs self) (num_inputs self) jac.
Proof.
  unfold backward_rows. destruct res as [[c|d|x|]|vs]; try done.
  - destruct (decide (num_outputs self = 1)); [|done]. intros Hb.
    apply bind_ok_inv in Hb as (row & Hrow & Hb).
    apply bind_ok_inv in Hb as (h & _ & Hb). injection Hb as <- <-.
    apply matrix_shape_insert; [apply matrix_shape_zeros|].
    by eapply backward_m_length.
  - destruct (decide (length vs = num_outputs self)); [|done]. intros Hb.
    apply bind_ok_inv in Hb as ([v J] & Hl & Hb). injection Hb as <- <-.
    apply (for_loop_inv
             (fun s => matrix_shape (num_outputs self) (num_inputs self) s.2)) in Hl;
      [done| |apply matrix_shape_zeros].
    intros [i node] [v1 J1] st1 [v2 J2] HJ1 Hk. simpl in *.
    destruct node as [c|d|x|]; try done.
    apply bind_ok_inv in Hk as (row & Hrow & Hk).
    apply bind_ok_inv in Hk as (h & _ & Hk). injection Hk as <- <-.
    apply matrix_shape_insert; [done|]. by eapply backward_m_length.
Qed.

(** X25.  When [jacobian] returns, in either mode, the result is a bare
    number exactly when the function is declared with one input and one
    output, and otherwise an array with [num_outputs] rows of
    [num_inputs] entries each; with [feval] the value comes along. *)
Theorem jacobian_shape self (point : py_arg F) (feval reverse : bool) st r :
  (Func_jacobian self point feval reverse st).1 = Ok r →
  let one_by_one := num_outputs self = 1 ∧ num_inputs self = 1 in
  match r with
  | JacScalar _ => feval = false ∧ one_by_one
  | ValJacScalar _ _ => feval = true ∧ one_by_one
  | JacMatrix m =>
      feval = false ∧ ¬ one_by_one
      ∧ matrix_shape (num_outputs self) (num_inputs self) m
  | ValJacMatrix _ m =>
      feval = true ∧ ¬ one_by_one
      ∧ matrix_shape (num_outputs self) (num_inputs self) m
  end.
Proof.
  unfold Func_jacobian. intros Hj.
  apply bind_ok_inv in Hj as (p & _ & Hj).
  destruct (decide (length p ≠ num_inputs self)); [done|].
  apply bind_ok_inv in Hj as ([val jac] & Hr & Hj).
  assert (matrix_shape (num_outputs self) (num_inputs self) jac) as Hshape.
  { destruct reverse; simpl in Hr.
    - unfold _reverse in Hr.
      apply bind_ok_inv in Hr as (u & _ & Hr).
      apply bind_ok_inv in Hr as (zs & _ & Hr).
      apply bind_ok_inv in Hr as (res & _ & Hr).
      by eapply backward_rows_shape.
    - apply bind_ok_inv in Hr as ([v J] & Hf & Hr). injection Hr as <- <-.
      by eapply forward_shape. }
  simpl in Hj. destruct feval; case_bool_decide as Hone; injection Hj as <-; done.
Qed.

End JacobianShape.

Lemma jacobian_shape_witness :
  ∃ m, (Func_jacobian Examples.scenario2 (ArgList [VNum 2%R; VNum 3%R]) false true
          Examples.st_init).1 = Ok (JacMatrix m)
       ∧ matrix_shape 2 2 m.
Proof.
  destruct (Func_jacobian Examples.scenario2 (ArgList [VNum 2%R; VNum 3%R]) false true
              Examples.st_init).1 as [r|e] eqn:Hr.
  - pose proof (jacobian_shape Examples.scenario2 (ArgList [VNum 2%R; VNum 3%R])
                  false true Examples.st_init r Hr) as Hs.
    destruct r as [j|m|v j|v m]; simpl in Hs.
    + destruct Hs as (_ & _ & Hn). discriminate Hn.
    + exists m. split; [done|]. apply Hs.
    + destruct Hs as (Hf & _). discriminate Hf.
    + destruct Hs as (Hf & _). discriminate Hf.
  - exfalso. vm_compute in Hr. discriminate Hr.
Defined.

(* ================================================================= *)
(** ** func.py: the loops of [_forward], [_reverse] and [trace] *)

Section LoopsByName.
Context {F : Type} `{PyNum F}.

Lemma forward_unfold self (point : list (pyval F)) :
  _forward self point
  = for_loop (forward_step self point) (seq 0 (num_inputs self))
      (np_zeros (num_outputs self), np_zeros2 (num_outputs self) (num_inputs self)).
Proof. reflexivity. Qed.

Lemma backward_rows_tuple self (vs : list (pyval F)) :
  length vs = num_outputs self →
  backward_rows self (Tuple vs)
  = (let* r := for_loop (reverse_step self) (imap pair vs)
                 (np_zeros (num_outputs self),
                  np_zeros2 (num_outputs self) (num_inputs self)) in
     ret (ValArray r.1, r.2)).
Proof. intros Hl. unfold backward_rows. rewrite decide_True by done. reflexivity. Qed.

End LoopsByName.

(* ================================================================= *)
(** ** Arrays by their entries *)

Section MatrixFacts.
Context {F : Type} `{PyNum F}.
Implicit Types (J : list (list F)).

Lemma matrix_row (m n : nat) J r :
  matrix_shape m n J → r < m → ∃ row, J !! r = Some row ∧ length row = n.
Proof.
  intros [Hl Hr] Hlt. destruct (lookup_lt_is_Some_2 J r) as [row Hrow]; [lia|].
  exists row. split; [done|]. by eapply (Forall_lookup_1 _ _ _ _ Hr).
Qed.

Lemma entry_out_of_rows (m n : nat) J r c :
  matrix_shape m n J → m ≤ r → entry_of J r c = lit 0.
Proof.
  intros [Hl _] Hr. unfold entry_of. by rewrite lookup_ge_None_2 by lia.
Qed.

Lemma entry_zeros (m n r c : nat) : entry_of (np_zeros2 (F := F) m n) r c = lit 0.
Proof.
  unfold entry_of, np_zeros2, np_zeros.
  destruct (decide (r < m)) as [Hr|Hr].
  - rewrite lookup_replicate_2 by done. simpl.
    destruct (decide (c < n)) as [Hc|Hc].
    + by rewrite lookup_replicate_2.
    + rewrite lookup_ge_None_2; [done|]. rewrite length_replicate. lia.
  - rewrite lookup_ge_None_2; [done|]. rewrite length_replicate. lia.
Qed.

Lemma entry_set_entry (m n k i : nat) d J r c :
  matrix_shape m n J → k < m → i < n →
  entry_of (set_entry k i d J) r c
  = if decide (r = k ∧ c = i) then d else entry_of J r c.
Proof.
  intros Hs Hk Hi. unfold entry_of, set_entry.
  destruct (decide (r = k)) as [->|Hne].
  - rewrite list_lookup_alter_eq.
    destruct (matrix_row m n J k Hs Hk) as (row & Hrow & Hlen). rewrite Hrow. simpl.
    destruct (decide (c = i)) as [->|Hci].
    + rewrite decide_True by done. by rewrite list_lookup_insert_eq by lia.
    + rewrite decide_False by tauto. by rewrite list_lookup_insert_ne by done.
  - rewrite list_lookup_alter_ne by done. by rewrite decide_False by tauto.
Qed.

Lemma entry_set_column (m n i : nat) d J r c :
  matrix_shape m n J → i < n →
  entry_of (set_column i d J) r c
  = if decide (c = i ∧ r < m) then d else entry_of J r c.
Proof.
  intros Hs Hi. unfold entry_of, set_column. rewrite list_lookup_fmap.
  destruct (decide (r < m)) as [Hr|Hr].
  - destruct (matrix_row m n J r Hs Hr) as (row & Hrow & Hlen). rewrite Hrow. simpl.
    destruct (decide (c = i)) as [->|Hci].
    + rewrite decide_True by done. by rewrite list_lookup_insert_eq by lia.
    + rewrite decide_False by tauto. by rewrite list_lookup_insert_ne by done.
  - rewrite decide_False by tauto. destruct Hs as [Hl _].
    by rewrite lookup_ge_None_2 by lia.
Qed.

Lemma entry_insert_row (m n k : nat) row J r c :
  matrix_shape m n J → k < m →
  entry_of (<[k := row]> J) r c
  = if decide (r = k) then default (lit 0) (row !! c) else entry_of J r c.
Proof.
  intros [Hl _] Hk. unfold entry_of.
  destruct (decide (r = k)) as [->|Hne].
  - by rewrite list_lookup_insert_eq by lia.
  - by rewrite list_lookup_insert_ne by done.
Qed.

Lemma matrix_ext (m n : nat) J J' :
  matrix_shape m n J → matrix_shape m n J' →
  (∀ r c, r < m → c < n → entry_of J r c = entry_of J' r c) → J = J'.
Proof.
  intros Hs Hs' Hent. apply list_eq. intros r.
  destruct (decide (r < m)) as [Hr|Hr].
  - destruct (matrix_row m n J r Hs Hr) as (row & Hrow & Hlen).
    destruct (matrix_row m n J' r Hs' Hr) as (row' & Hrow' & Hlen').
    rewrite Hrow, Hrow'. f_equal. apply list_eq. intros c.
    destruct (decide (c < n)) as [Hc|Hc].
    + specialize (Hent r c Hr Hc). unfold entry_of in Hent.
      rewrite Hrow, Hrow' in Hent. simpl in Hent.
      destruct (lookup_lt_is_Some_2 row c) as [x Hx]; [lia|].
      destruct (lookup_lt_is_Some_2 row' c) as [x' Hx']; [lia|].
      rewrite Hx, Hx' in *. simpl in Hent. by rewrite Hent.
    + by rewrite !lookup_ge_None_2 by lia.
  - destruct Hs as [Hl _], Hs' as [Hl' _]. by rewrite !lookup_ge_None_2 by lia.
Qed.

Lemma column_entries (m n : nat) J c :
  matrix_shape m n J → column J c = (fun r => entry_of J r c) <$> seq 0 m.
Proof.
  intros Hs. apply list_eq. intros r. unfold column.
  rewrite !list_lookup_fmap.
  destruct (decide (r < m)) as [Hr|Hr].
  - destruct (matrix_row m n J r Hs Hr) as (row & Hrow & Hlen).
    rewrite lookup_seq_lt by done. unfold entry_of. simpl. by rewrite Hrow.
  - destruct Hs as [Hl _]. rewrite !lookup_ge_None_2; [done| |lia].
    rewrite length_seq. lia.
Qed.

Lemma identity_column (n i j : nat) :
  i < n → j < n →
  column (np_identity (F := F) n) i !! j = Some (if decide (j = i) then lit 1 else lit 0).
Proof.
  intros Hi Hj. unfold column, np_identity, np_zeros.
  rewrite !list_lookup_fmap, lookup_seq_lt by done. simpl. f_equal.
  destruct (decide (j = i)) as [->|Hne].
  - by rewrite list_lookup_insert_eq by (rewrite length_replicate; lia).
  - rewrite list_lookup_insert_ne by done. by rewrite lookup_replicate_2.
Qed.

Lemma identity_column_length (n i : nat) :
  length (column (np_identity (F := F) n) i) = n.
Proof. unfold column, np_identity. by rewrite !length_fmap, length_seq. Qed.

End MatrixFacts.

(* ================================================================= *)
(** ** func.py: what the loop of [_forward] computes *)

Section ForwardLoop.
Context {F : Type} `{PyNum F}.
Variables (self : Func F) (cs : list F) (st : rstate F).
Hypothesis Hlen : length cs = num_inputs self.

Local Abbreviation n := (num_inputs self).
Local Abbreviation m := (num_outputs self).
Local Abbreviation zs i := (dual_inputs cs (column (np_identity (num_inputs self)) i)).

Lemma dual_inputs_node_free (ds : list F) : Forall node_free (dual_inputs cs ds).
Proof. unfold dual_inputs. apply Forall_fmap, Forall_true. done. Qed.

Lemma call_dual_inputs (ds : list F) r :
  (call (func self) (dual_inputs cs ds) st).1 = r →
  call (func self) (dual_inputs cs ds) st = (r, st).
Proof.
  intros <-. destruct (pure_call (func self) (dual_inputs cs ds) st) as [Hst _].
  { apply dual_inputs_node_free. }
  rewrite <- Hst at 3. apply surjective_pairing.
Qed.

Lemma forward_seed i :
  seed_duals n (VNum <$> cs) (column (np_identity n) i) st = (Ok (zs i), st).
Proof. rewrite <- Hlen. apply seed_duals_numeric. Qed.

Lemma forward_step_raise i val J e :
  (call (func self) (zs i) st).1 = Raise e →
  forward_step self (VNum <$> cs) i (val, J) st = (Raise e, st).
Proof.
  intros Hc%call_dual_inputs. unfold forward_step.
  rewrite (bind_ok _ _ _ _ _ (forward_seed i)).
  by rewrite (bind_raise _ _ _ _ _ Hc).
Qed.

Lemma read_outputs_raises vs i val J :
  length vs = m → forallb is_dualb vs = false →
  (for_loop (read_outputs vs i) (seq 0 m) (val, J) st).1 = Raise AttributeError.
Proof.
  intros Hl Hall. apply for_loop_raises.
  - intros k [v1 J1] st0 Hk%elem_of_seq. unfold read_outputs, dual_at, bind.
    destruct (lookup_lt_is_Some_2 vs k) as [v Hv]; [lia|]. rewrite Hv.
    destruct v; simpl; try (by left). right. by eexists.
  - assert (¬ Forall (fun v => is_dualb v) vs) as Hnot.
    { intros Hf%forallb_True. by rewrite Hall in Hf. }
    apply not_Forall_Exists in Hnot; [|intros v; apply _].
    apply Exists_exists in Hnot as (v & Hv & Hnv).
    apply list_elem_of_lookup in Hv as [k Hk]. exists k.
    pose proof (lookup_lt_Some _ _ _ Hk) as Hkl. split.
    + apply elem_of_seq. lia.
    + intros [v1 J1] st0. unfold read_outputs, dual_at, bind. rewrite Hk.
      destruct v; try done. exfalso. by apply Hnv.
Qed.

Lemma forward_step_error i val J res e :
  (call (func self) (zs i) st).1 = Ok res →
  result_error m is_dualb res = Some e →
  (forward_step self (VNum <$> cs) i (val, J) st).1 = Raise e.
Proof.
  intros Hc%call_dual_inputs He. unfold forward_step.
  rewrite (bind_ok _ _ _ _ _ (forward_seed i)).
  rewrite (bind_ok _ _ _ _ _ Hc).
  destruct res as [v|vs]; simpl in He.
  - destruct v as [c|d|x|]; simpl in He; try (by injection He as <-).
    destruct (decide (m = 1)); [done|]. by injection He as <-.
  - destruct (decide (length vs = m)) as [Hl|Hl]; [|by injection He as <-].
    destruct (forallb is_dualb vs) eqn:Hall; [done|]. injection He as <-.
    by apply read_outputs_raises.
Qed.

Lemma read_outputs_loop vs i :
  length vs = m → forallb is_dualb vs = true → i < n →
  ∀ ks val J,
    (∀ k, k ∈ ks → k < m) → matrix_shape m n J →
    ∃ val' J',
      for_loop (read_outputs vs i) ks (val, J) st = (Ok (val', J'), st)
      ∧ matrix_shape m n J'
      ∧ ∀ r c, entry_of J' r c
               = if decide (c = i ∧ r ∈ ks)
                 then default (lit 0) (dual_parts (Tuple vs) !! r)
                 else entry_of J r c.
Proof.
  intros Hl Hall Hi. induction ks as [|k ks IH]; intros val J Hks HJ.
  - exists val, J. split; [done|]. split; [done|]. intros r c.
    rewrite decide_False; [done|]. intros [_ Hr]. by apply elem_of_nil in Hr.
  - assert (k < m) as Hk by (apply Hks; left).
    destruct (lookup_lt_is_Some_2 vs k) as [v Hv]; [lia|].
    assert (∃ d, v = VDual d) as [d ->].
    { assert (Forall (fun v => is_dualb v) vs) as Hall'.
      { apply forallb_True. by rewrite Hall. }
      rewrite Forall_forall in Hall'.
      specialize (Hall' v (list_elem_of_lookup_2 _ _ _ Hv)).
      destruct v; try done. by eexists. }
    destruct (IH (<[k := real d]> val) (set_entry k i (dual d) J))
      as (val' & J' & Heq & HJ' & Hent).
    { intros k' Hk'. apply Hks. by right. }
    { by apply matrix_shape_set_entry. }
    exists val', J'. split; [|split; [done|]].
    + simpl. unfold bind at 1, read_outputs at 1, dual_at, bind. rewrite Hv. simpl.
      exact Heq.
    + intros r c. rewrite Hent. rewrite (entry_set_entry m n) by done.
      destruct (decide (c = i)) as [->|Hci].
      * destruct (decide (r ∈ ks)) as [Hr|Hr].
        -- rewrite !decide_True; [done| |done]. split; [done|by right].
        -- rewrite (decide_False (P := i = i ∧ r ∈ ks)) by tauto.
           destruct (decide (r = k)) as [->|Hrk].
           ++ rewrite !decide_True; [|split; [done|left]|done].
              simpl. by rewrite list_lookup_fmap, Hv.
           ++ rewrite !decide_False; [done| |tauto].
              intros [_ [->|Hin]%elem_of_cons]; done.
      * rewrite !decide_False; tauto.
Qed.

Lemma forward_step_ok i val J res :
  i < n → matrix_shape m n J →
  (call (func self) (zs i) st).1 = Ok res →
  result_error m is_dualb res = None →
  ∃ val' J',
    forward_step self (VNum <$> cs) i (val, J) st = (Ok (val', J'), st)
    ∧ matrix_shape m n J'
    ∧ ∀ r c, entry_of J' r c
             = if decide (c = i ∧ r < m)
               then default (lit 0) (dual_parts res !! r)
               else entry_of J r c.
Proof.
  intros Hi HJ Hc%call_dual_inputs He. unfold forward_step.
  rewrite (bind_ok _ _ _ _ _ (forward_seed i)).
  rewrite (bind_ok _ _ _ _ _ Hc).
  destruct res as [v|vs]; simpl in He.
  - destruct v as [c|d|x|]; simpl in He; try done.
    destruct (decide (m = 1)) as [Hm|]; [|done].
    eexists _, _. split; [done|]. split; [by apply matrix_shape_set_column|].
    intros r c. rewrite (entry_set_column m n) by done.
    destruct (decide (c = i ∧ r < m)) as [[-> Hr]|Hno]; [|done].
    assert (r = 0) as -> by lia. done.
  - destruct (decide (length vs = m)) as [Hl|Hl]; [|done].
    destruct (forallb is_dualb vs) eqn:Hall; [|done].
    destruct (read_outputs_loop vs i Hl Hall Hi (seq 0 m) val J) as (val' & J' & Heq & HJ' & Hent).
    { intros k Hk%elem_of_seq. lia. }
    { done. }
    exists val', J'. split; [done|]. split; [done|].
    intros r c. rewrite Hent.
    destruct (decide (c = i ∧ r < m)) as [[-> Hr]|Hno].
    + rewrite decide_True; [done|]. split; [done|]. apply elem_of_seq. lia.
    + rewrite decide_False; [done|]. intros [-> Hr%elem_of_seq]. apply Hno. split; [done|lia].
Qed.

(** The loop over the inputs [l]: either it returns, and then every run
    succeeded with a usable result and wrote its column, or it raises what
    one of the runs raised or what its result was answered with. *)
Lemma forward_loop l :
  (∀ i, i ∈ l → i < n) →
  ∀ val J, matrix_shape m n J →
    match for_loop (forward_step self (VNum <$> cs)) l (val, J) st with
    | (Ok (val', J'), st') =>
        st' = st ∧ matrix_shape m n J'
        ∧ (∀ i, i ∈ l → ∃ res, (call (func self) (zs i) st).1 = Ok res
                               ∧ result_error m is_dualb res = None)
        ∧ (∀ r c, r < m →
             (c ∈ l → ∀ res, (call (func self) (zs c) st).1 = Ok res →
                      entry_of J' r c = default (lit 0) (dual_parts res !! r))
             ∧ (c ∉ l → entry_of J' r c = entry_of J r c))
    | (Raise e, st') =>
        ∃ i, i ∈ l
             ∧ ((call (func self) (zs i) st).1 = Raise e
                ∨ ∃ res, (call (func self) (zs i) st).1 = Ok res
                         ∧ result_error m is_dualb res = Some e)
    end.
Proof.
  induction l as [|i l IH]; intros Hl val J HJ.
  - simpl. split; [done|]. split; [done|]. split.
    + intros i Hi. by apply elem_of_nil in Hi.
    + intros r c Hr. split; [|done]. intros Hc. by apply elem_of_nil in Hc.
  - assert (i < n) as Hi by (apply Hl; left).
    cbn [for_loop]. unfold bind at 1.
    destruct (call (func self) (zs i) st).1 as [res|e] eqn:Hc.
    + destruct (result_error m is_dualb res) as [e|] eqn:He.
      * pose proof (forward_step_error i val J res e Hc He) as Hs.
        destruct (forward_step self (VNum <$> cs) i (val, J) st) as [[s'|e'] st1];
          simpl in Hs; [done|]. injection Hs as ->.
        exists i. split; [left|]. right. by exists res.
      * destruct (forward_step_ok i val J res Hi HJ Hc He) as (val1 & J1 & Heq & HJ1 & Hent).
        rewrite Heq. specialize (IH (fun j Hj => Hl j (list_elem_of_further _ _ _ Hj)) val1 J1 HJ1).
        destruct (for_loop _ l (val1, J1) st) as [[[val' J']|e] st'].
        -- destruct IH as (-> & HJ' & Hruns & Hcols).
           split; [done|]. split; [done|]. split.
           ++ intros j [->|Hj]%elem_of_cons; [by exists res|by apply Hruns].
           ++ intros r c Hr. destruct (Hcols r c Hr) as [Hin Hout]. split.
              ** intros Hcl res' Hres'. destruct (decide (c ∈ l)) as [Hc'|Hc'].
                 --- by apply Hin.
                 --- apply elem_of_cons in Hcl as [->|Hcl]; [|done].
                     rewrite Hout by done. rewrite Hent.
                     rewrite decide_True by done. congruence.
              ** intros Hcl. rewrite Hout.
                 { rewrite Hent. rewrite decide_False; [done|].
                   intros [-> _]. apply Hcl. left. }
                 intros Hc'. apply Hcl. by right.
        -- destruct IH as (j & Hj & Hcase). exists j. split; [by right|done].
    + rewrite (forward_step_raise i val J e Hc).
      exists i. split; [left|]. by left.
Qed.

End ForwardLoop.

(* ================================================================= *)
(** ** func.py: [trace] against the columns of the Jacobian *)

Section TraceColumn.
Context {F : Type} `{PyNum F}.
Variables (self : Func F) (cs : list F) (st : rstate F).
Hypothesis Hlen : length cs = num_inputs self.

Local Abbreviation n := (num_inputs self).
Local Abbreviation m := (num_outputs self).

Lemma dual_parts_length (res : pyobj F) :
  result_error m is_dualb res = None → length (dual_parts res) = m.
Proof.
  destruct res as [v|vs]; simpl.
  - destruct v; simpl; try done. by destruct (decide (m = 1)).
  - destruct (decide (length vs = m)); [|done]. intros _. by rewrite length_fmap.
Qed.

Lemma trace_outputs_loop vs :
  forallb is_dualb vs = true →
  ∀ ks val deriv,
    (∀ k, k ∈ ks → k < length vs) →
    ∃ val' deriv',
      for_loop (trace_outputs vs) ks (val, deriv) st = (Ok (val', deriv'), st)
      ∧ length val' = length val
      ∧ length deriv' = length deriv
      ∧ (∀ r, r < length val →
           val' !! r = if decide (r ∈ ks) then real_parts (Tuple vs) !! r
                       else val !! r)
      ∧ (∀ r, r < length deriv →
           deriv' !! r = if decide (r ∈ ks) then dual_parts (Tuple vs) !! r
                         else deriv !! r).
Proof.
  intros Hall. induction ks as [|k ks IH]; intros val deriv Hks.
  - exists val, deriv. split; [done|]. split; [done|]. split; [done|].
    split; intros r Hr; (rewrite decide_False; [done|]);
      intros Hin; by apply elem_of_nil in Hin.
  - assert (k < length vs) as Hk by (apply Hks; left).
    destruct (lookup_lt_is_Some_2 vs k) as [v Hv]; [lia|].
    assert (∃ d, v = VDual d) as [d ->].
    { assert (Forall (fun v => is_dualb v) vs) as Hall'.
      { apply forallb_True. by rewrite Hall. }
      rewrite Forall_forall in Hall'.
      specialize (Hall' v (list_elem_of_lookup_2 _ _ _ Hv)).
      destruct v; try done. by eexists. }
    destruct (IH (<[k := real d]> val) (<[k := dual d]> deriv))
      as (val' & deriv' & Heq & Hlv & Hl' & Hval & Hent).
    { intros k' Hk'. apply Hks. by right. }
    exists val', deriv'. split; [|split; [|split; [|split]]].
    + simpl. unfold bind at 1, trace_outputs at 1, dual_at, bind. rewrite Hv. simpl.
      exact Heq.
    + by rewrite Hlv, length_insert.
    + by rewrite Hl', length_insert.
    + intros r Hr. rewrite Hval by (by rewrite length_insert).
      destruct (decide (r ∈ ks)) as [Hin|Hin].
      * rewrite decide_True; [done|by right].
      * destruct (decide (r = k)) as [->|Hrk].
        -- rewrite decide_True by left. rewrite list_lookup_insert_eq by done.
           simpl. by rewrite list_lookup_fmap, Hv.
        -- rewrite decide_False.
           ++ by rewrite list_lookup_insert_ne.
           ++ intros [->|Hin']%elem_of_cons; done.
    + intros r Hr. rewrite Hent by (by rewrite length_insert).
      destruct (decide (r ∈ ks)) as [Hin|Hin].
      * rewrite decide_True; [done|by right].
      * destruct (decide (r = k)) as [->|Hrk].
        -- rewrite decide_True by left. rewrite list_lookup_insert_eq by done.
           simpl. by rewrite list_lookup_fmap, Hv.
        -- rewrite decide_False.
           ++ by rewrite list_lookup_insert_ne.
           ++ intros [->|Hin']%elem_of_cons; done.
Qed.

Lemma trace_outputs_raises vs val deriv :
  length vs = m → forallb is_dualb vs = false →
  (for_loop (trace_outputs vs) (seq 0 m) (val, deriv) st).1 = Raise AttributeError.
Proof.
  intros Hl Hall. apply for_loop_raises.
  - intros k [v1 d1] st0 Hk%elem_of_seq. unfold trace_outputs, dual_at, bind.
    destruct (lookup_lt_is_Some_2 vs k) as [v Hv]; [lia|]. rewrite Hv.
    destruct v; simpl; try (by left). right. by eexists.
  - assert (¬ Forall (fun v => is_dualb v) vs) as Hnot.
    { intros Hf%forallb_True. by rewrite Hall in Hf. }
    apply not_Forall_Exists in Hnot; [|intros v; apply _].
    apply Exists_exists in Hnot as (v & Hv & Hnv).
    apply list_elem_of_lookup in Hv as [k Hk]. exists k.
    pose proof (lookup_lt_Some _ _ _ Hk) as Hkl. split.
    + apply elem_of_seq. lia.
    + intros [v1 d1] st0. unfold trace_outputs, dual_at, bind. rewrite Hk.
      destruct v; try done. exfalso. by apply Hnv.
Qed.

(** [trace] on a point of numbers and a direction of numbers up to the
    call of the function. *)
Lemma trace_call (ds : list F) :
  length ds = n →
  Func_trace self (ArgList (VNum <$> cs)) (ArgList (VNum <$> ds)) st
  = (let* res := call (func self) (dual_inputs cs ds) in
     match res with
     | Single (VDual d) =>
         if decide (m = 1)
         then ret (<[0 := real d]> (np_zeros m), <[0 := dual d]> (np_zeros m))
         else raise AssertionError
     | Single _ => raise TypeError
     | Tuple vs =>
         if decide (length vs = m)
         then for_loop (trace_outputs vs) (seq 0 m) (np_zeros m, np_zeros m)
         else raise AssertionError
     end) st.
Proof.
  intros Hds. unfold Func_trace, bind at 1, lift. simpl.
  rewrite decide_False by (rewrite length_fmap; intros Hne; by apply Hne).
  rewrite decide_False by (rewrite !length_fmap; intros Hne; apply Hne; congruence).
  pose proof (trace_duals_loop cs ds st (seq 0 n)) as Hz.
  rewrite (bind_ok _ _ _ _ _ (Hz ltac:(intros j Hj%elem_of_seq; lia) [])).
  simpl. replace (seq 0 n) with (seq 0 (length cs)) by (by rewrite Hlen).
  reflexivity.
Qed.

(** ... when the run of the function gives a usable result ... *)
Lemma trace_ok (ds : list F) res :
  length ds = n →
  (call (func self) (dual_inputs cs ds) st).1 = Ok res →
  result_error m is_dualb res = None →
  Func_trace self (ArgList (VNum <$> cs)) (ArgList (VNum <$> ds)) st
  = (Ok (real_parts res, dual_parts res), st).
Proof.
  intros Hds Hc%(call_dual_inputs self cs st) He.
  rewrite (trace_call ds Hds). rewrite (bind_ok _ _ _ _ _ Hc).
  destruct res as [v|vs]; simpl in He.
  - destruct v as [c|d|x|]; simpl in He; try done.
    destruct (decide (m = 1)) as [Hm|]; [|done].
    rewrite Hm. reflexivity.
  - destruct (decide (length vs = m)) as [Hl|Hl]; [|done].
    destruct (forallb is_dualb vs) eqn:Hall; [|done].
    destruct (trace_outputs_loop vs Hall (seq 0 m) (np_zeros m) (np_zeros m))
      as (val' & deriv' & Heq & Hlv & Hl' & Hval & Hent).
    { intros k Hk%elem_of_seq. lia. }
    rewrite Heq. f_equal. f_equal.
    unfold np_zeros in *. rewrite length_replicate in *. f_equal.
    + apply list_eq. intros r. destruct (decide (r < m)) as [Hr|Hr].
      * rewrite Hval by done. rewrite decide_True; [done|]. apply elem_of_seq. lia.
      * rewrite !lookup_ge_None_2; [done| |lia]. simpl. rewrite length_fmap. lia.
    + apply list_eq. intros r. destruct (decide (r < m)) as [Hr|Hr].
      * rewrite Hent by done. rewrite decide_True; [done|]. apply elem_of_seq. lia.
      * rewrite !lookup_ge_None_2; [done| |lia]. simpl. rewrite length_fmap. lia.
Qed.

(** ... and when it does not. *)
Lemma trace_fails (ds : list F) e :
  length ds = n →
  (call (func self) (dual_inputs cs ds) st).1 = Raise e
  ∨ (∃ res, (call (func self) (dual_inputs cs ds) st).1 = Ok res
            ∧ result_error m is_dualb res = Some e) →
  (Func_trace self (ArgList (VNum <$> cs)) (ArgList (VNum <$> ds)) st).1 = Raise e.
Proof.
  intros Hds Hcase. rewrite (trace_call ds Hds).
  destruct Hcase as [Hc|(res & Hc & He)].
  - by apply bind_raise_1.
  - apply (call_dual_inputs self cs st) in Hc. rewrite (bind_ok _ _ _ _ _ Hc).
    destruct res as [v|vs]; simpl in He.
    + destruct v as [c|d|x|]; simpl in He; try (by injection He as <-).
      destruct (decide (m = 1)); [done|]. by injection He as <-.
    + destruct (decide (length vs = m)) as [Hl|Hl]; [|by injection He as <-].
      destruct (forallb is_dualb vs) eqn:Hall; [done|]. injection He as <-.
      by apply trace_outputs_raises.
Qed.

(** X26.  When [jacobian] returns in forward mode at a point of numbers,
    [trace] at the same point in the direction of the [i]-th unit vector
    returns as derivative the [i]-th column of that Jacobian (the one
    entry when the Jacobian is a bare number), and leaves the store as
    it is. *)
Theorem trace_is_jacobian_column (i : nat) r :
  i < num_inputs self →
  (Func_jacobian self (ArgList (VNum <$> cs)) false false st).1 = Ok r →
  ∃ v,
    Func_trace self (ArgList (VNum <$> cs))
      (ArgList (VNum <$> column (np_identity (num_inputs self)) i)) st
    = (Ok (v, match r with
              | JacScalar j => [j]
              | JacMatrix J => column J i
              | _ => []
              end), st).
Proof.
  intros Hi Hj. unfold Func_jacobian in Hj.
  apply bind_ok_inv in Hj as (p & Hp & Hj). injection Hp as <-.
  rewrite decide_False in Hj by (rewrite length_fmap; intros Hne; by apply Hne).
  apply bind_ok_inv in Hj as ([val jac] & Hf & Hj). simpl in Hf.
  apply bind_ok_inv in Hf as ([val0 jac0] & Hf & Hr). injection Hr as <- <-.
  rewrite forward_unfold in Hf.
  pose proof (forward_loop self cs st Hlen (seq 0 n)
                ltac:(intros j Hj'%elem_of_seq; lia)
                (np_zeros m) (np_zeros2 m n) (matrix_shape_zeros m n)) as Hloop.
  destruct (for_loop _ _ _ st) as [[[val1 jac1]|e] st1]; simpl in Hf; [|done].
  injection Hf as -> ->. destruct Hloop as (_ & Hshape & Hruns & Hcols).
  destruct (Hruns i) as (res & Hres & Herr); [apply elem_of_seq; lia|].
  pose proof (trace_ok (column (np_identity n) i) res
                (identity_column_length n i) Hres Herr) as Htrace.
  exists (real_parts res). rewrite Htrace. f_equal. f_equal. f_equal.
  assert (dual_parts res = column jac0 i) as Hcol.
  { rewrite (column_entries m n) by done. apply list_eq. intros k.
    rewrite list_lookup_fmap. pose proof (dual_parts_length res Herr) as Hdl.
    destruct (decide (k < m)) as [Hk|Hk].
    - rewrite lookup_seq_lt by done. simpl.
      destruct (Hcols k i Hk) as [Hin _].
      rewrite (Hin ltac:(apply elem_of_seq; lia) res Hres).
      destruct (lookup_lt_is_Some_2 (dual_parts res) k) as [x Hx]; [lia|].
      by rewrite Hx.
    - rewrite !lookup_ge_None_2; [done| |lia]. rewrite length_seq. lia. }
  simpl in Hj. case_bool_decide as Hone; injection Hj as <-; [|done].
  destruct Hone as [Hm Hn]. clear Hcol.
  assert (i = 0) as -> by lia.
  pose proof (dual_parts_length res Herr) as Hdl.
  destruct (Hcols 0 0 ltac:(lia)) as [Hin _].
  specialize (Hin ltac:(apply elem_of_seq; lia) res Hres).
  unfold entry_of in Hin. rewrite Hin.
  destruct (dual_parts res) as [|x [|y l]]; simpl in *; try lia. done.
Qed.

End TraceColumn.

(* ================================================================= *)
(** ** func.py: the Jacobian of forward mode and of reverse mode *)

Section ReverseLoop.
Variables (self : Func R) (cs : list R) (base : nat) (st_out : rstate R).
Hypothesis Htr : traced base (num_inputs self) cs st_out.

Local Abbreviation n := (num_inputs self).
Local Abbreviation m := (num_outputs self).
Local Abbreviation T c x := (tangent (heap st_out) (unit_seed (F := R) base c) x).

Lemma reverse_step_node k x val J st_k :
  same_shape (heap st_out) (heap st_k) →
  (base ≤ x < length (heap st_out))%nat →
  ∃ h',
    reverse_step self (k, VNode x) (val, J) st_k
    = (Ok (<[k := val_of h' x]> val, <[k := (fun c => T c x) <$> seq 0 n]> J),
       mk_rstate h' (increment st_k))
    ∧ same_shape (heap st_out) h'.
Proof.
  intros Hs Hx.
  destruct (backward_tangent base n cs st_out (heap st_k) x Htr Hs Hx) as (h' & Hb & Hs').
  exists h'. split; [|done].
  unfold reverse_step, bind, backward_m, get_heap, ret. by rewrite Hb.
Qed.

Lemma reverse_loop vn :
  ∀ k0 val J st_k,
    (k0 + length vn ≤ m)%nat →
    (∀ j x, vn !! j = Some (VNode x) → (base ≤ x < length (heap st_out))%nat) →
    same_shape (heap st_out) (heap st_k) → matrix_shape m n J →
    match for_loop (reverse_step self) (imap (fun j => pair (k0 + j)%nat) vn) (val, J) st_k with
    | (Ok (val', J'), st') =>
        forallb is_nodeb vn = true
        ∧ matrix_shape m n J'
        ∧ ∀ r c, (c < n)%nat →
            entry_of J' r c
            = if decide (k0 ≤ r)%nat
              then match vn !! (r - k0)%nat with
                   | Some (VNode x) => T c x
                   | _ => entry_of J r c
                   end
              else entry_of J r c
    | (Raise e, st') => forallb is_nodeb vn = false ∧ e = AttributeError
    end.
Proof.
  induction vn as [|v vn IH]; intros k0 val J st_k Hk Hnodes Hs HJ.
  - simpl. split; [done|]. split; [done|]. intros r c Hc.
    by destruct (decide (k0 ≤ r)%nat).
  - rewrite imap_cons. cbn [for_loop]. unfold bind at 1.
    simpl in Hk.
    destruct v as [a|z|x|].
    1,2,4: by (unfold reverse_step at 1; simpl).
    destruct (reverse_step_node (k0 + 0) x val J st_k Hs (Hnodes 0%nat x eq_refl))
      as (h' & Heq & Hs').
    rewrite Heq.
    rewrite (imap_ext _ (fun j => pair (S k0 + j)%nat)).
    2:{ intros j y _. simpl. f_equal. lia. }
    set (row := (fun c => T c x) <$> seq 0 n).
    set (J1 := <[(k0 + 0)%nat := row]> J).
    assert (matrix_shape m n J1) as HJ1.
    { apply matrix_shape_insert; [done|]. unfold row. by rewrite length_fmap, length_seq. }
    specialize (IH (S k0) (<[(k0 + 0)%nat := val_of h' x]> val) J1
                  (mk_rstate h' (increment st_k)) ltac:(lia)
                  (fun j y Hy => Hnodes (S j) y Hy) Hs' HJ1).
    destruct (for_loop _ _ _ _) as [[[val' J']|e] st']; [|done].
    destruct IH as (Hall & HJ' & Hent). split; [done|]. split; [done|].
    intros r c Hc. rewrite (Hent r c Hc). unfold J1.
    rewrite !(entry_insert_row m n) by (done || lia).
    destruct (decide (k0 ≤ r)%nat) as [Hle|Hle].
    + destruct (decide (r = k0)) as [->|Hne].
      * rewrite decide_False by lia. rewrite decide_True by lia.
        rewrite Nat.sub_diag. simpl. unfold row.
        by rewrite list_lookup_fmap, lookup_seq_lt.
      * rewrite decide_True by lia.
        replace (r - k0)%nat with (S (r - S k0)) by lia. simpl.
        rewrite decide_False by lia. done.
    + rewrite decide_False by lia. rewrite decide_False by lia. done.
Qed.

End ReverseLoop.

Section ForwardReverse.
Variables (self : Func R) (cs : list R) (st : rstate R).
Hypothesis Hwf : wf_state st.
Hypothesis Hlen : length cs = num_inputs self.
Hypothesis Hpos : (0 < num_inputs self)%nat.
Hypothesis Hdom : in_domain self cs.

Local Abbreviation n := (num_inputs self).
Local Abbreviation m := (num_outputs self).
Local Abbreviation base := (length (heap st)).
Local Abbreviation zs i := (dual_inputs cs (column (np_identity (num_inputs self)) i)).
Local Abbreviation rel c := (corresponds base (unit_seed (F := R) base c)).
Local Abbreviation rel_obj c := (corresponds_obj base (unit_seed (F := R) base c)).

(** The dual numbers of the [i]-th forward run against the input nodes of
    the reverse run. *)
Lemma input_correspondence st_in (i : nat) :
  traced base n cs st_in → (i < n)%nat →
  Forall2 (rel i st_in) (zs i) (VNode <$> seq base n).
Proof.
  intros Htr Hi. apply Forall2_same_length_lookup_2.
  - unfold dual_inputs. rewrite !length_fmap, !length_seq. done.
  - intros j x y Hx Hy. unfold dual_inputs in Hx.
    rewrite list_lookup_fmap in Hx, Hy.
    assert (j < n)%nat as Hj.
    { destruct (seq base n !! j) eqn:Hs; [|done].
      apply lookup_lt_Some in Hs. by rewrite length_seq in Hs. }
    rewrite lookup_seq_lt in Hx by lia. rewrite lookup_seq_lt in Hy by done.
    simpl in Hx, Hy. injection Hx as <-. injection Hy as <-.
    destruct (traced_inputs _ _ _ _ Htr j Hj) as [Hno Hval].
    destruct (traced_wf _ _ _ _ Htr) as [Hwf1 Hwf2].
    pose proof (traced_len _ _ _ _ Htr) as Hl.
    simpl. split; [lia|]. split; [by rewrite Hval|].
    rewrite (tangent_unfold _ _ _ Hwf1 Hwf2), Hno.
    rewrite (identity_column n i j Hi Hj). simpl. unfold unit_seed.
    destruct (decide (j = i)) as [->|Hne].
    + by rewrite decide_True.
    + rewrite decide_False; [done|lia].
Qed.

Lemma result_error_corresponds c st' od on :
  rel_obj c st' od on →
  result_error m is_dualb od = result_error m is_nodeb on.
Proof.
  destruct od as [a|vd], on as [b|vn]; simpl; try done.
  - destruct a, b; simpl; done.
  - intros Hf. rewrite (Forall2_length _ _ _ Hf).
    destruct (decide (length vn = m)) as [Hl|]; [clear Hl|done].
    assert (forallb is_dualb vd = forallb is_nodeb vn) as ->; [|done].
    induction Hf as [|a b vd vn Hab _ IH]; [done|]. simpl. rewrite IH.
    by destruct a, b.
Qed.

Section AfterCall.
Variables (st_out : rstate R) (on : pyobj R) (od : nat → pyobj R).
Hypothesis Htr : traced base n cs st_out.
Hypothesis Hrel : ∀ c, (c < n)%nat → rel_obj c st_out (od c) on.

Lemma backward_rows_error e :
  result_error m is_nodeb on = Some e →
  (backward_rows self on st_out).1 = Raise e.
Proof.
  intros He. specialize (Hrel 0%nat Hpos).
  destruct on as [b|vn]; simpl in He.
  - destruct b as [a|z|x|]; simpl in He; try (by injection He as <-).
    unfold backward_rows. destruct (decide (m = 1)); [done|]. by injection He as <-.
  - unfold backward_rows.
    destruct (decide (length vn = m)) as [Hl|Hl]; [|by injection He as <-].
    destruct (forallb is_nodeb vn) eqn:Hall; [done|]. injection He as <-.
    apply bind_raise_1.
    destruct (od 0%nat) as [a|vd]; [done|]. simpl in Hrel.
    pose proof (reverse_loop self cs base st_out Htr vn 0 (np_zeros m) (np_zeros2 m n)
                  st_out ltac:(simpl; lia)) as Hloop.
    change (imap (fun j => pair (0 + j)%nat) vn) with (imap pair vn) in Hloop.
    change (for_loop _ (imap pair vn)) with (for_loop (reverse_step self) (imap pair vn)).
    destruct (for_loop (reverse_step self) (imap pair vn) _ st_out) as [[[v J]|e] st'].
    + destruct Hloop as (Hall' & _).
      * intros j x Hj. destruct (Forall2_lookup_r _ _ _ _ _ Hrel Hj) as (a & _ & Ha).
        destruct a; try done. apply Ha.
      * apply same_shape_refl.
      * apply matrix_shape_zeros.
      * congruence.
    + destruct Hloop as (_ & ->); [| | |done].
      * intros j x Hj. destruct (Forall2_lookup_r _ _ _ _ _ Hrel Hj) as (a & _ & Ha).
        destruct a; try done. apply Ha.
      * apply same_shape_refl.
      * apply matrix_shape_zeros.
Qed.

Lemma backward_rows_ok :
  result_error m is_nodeb on = None →
  ∃ v J st',
    backward_rows self on st_out = (Ok (v, J), st')
    ∧ matrix_shape m n J
    ∧ ∀ r c, (r < m)%nat → (c < n)%nat →
        entry_of J r c = default 0%R (dual_parts (od c) !! r).
Proof.
  intros He. pose proof (Hrel 0%nat Hpos) as Hrel0.
  destruct on as [b|vn]; simpl in He.
  - destruct b as [a|z|x|]; simpl in He; try done.
    destruct (decide (m = 1)) as [Hm|]; [|done].
    assert ((base ≤ x < length (heap st_out))%nat) as Hx.
    { destruct (od 0%nat) as [a|vd]; [|done]. destruct a; try done. apply Hrel0. }
    destruct (backward_tangent base n cs st_out (heap st_out) x Htr
                (same_shape_refl _) Hx) as (h' & Hb & Hs').
    eexists _, _, _. split; [|split].
    + unfold backward_rows. rewrite decide_True by done.
      unfold bind, backward_m, get_heap, ret. rewrite Hb. reflexivity.
    + apply matrix_shape_insert; [apply matrix_shape_zeros|].
      by rewrite length_fmap, length_seq.
    + intros r c Hr Hc. assert (r = 0)%nat as -> by lia.
      rewrite (entry_insert_row m n) by (apply matrix_shape_zeros || lia).
      rewrite decide_True by done.
      rewrite list_lookup_fmap, lookup_seq_lt by done. simpl.
      specialize (Hrel c Hc). destruct (od c) as [a|vd]; [|done].
      destruct a; try done. simpl in Hrel. simpl.
      destruct Hrel as (_ & _ & ->). done.
  - destruct (decide (length vn = m)) as [Hl|Hl]; [|done].
    destruct (forallb is_nodeb vn) eqn:Hall; [|done].
    assert (∀ j x, vn !! j = Some (VNode x) → (base ≤ x < length (heap st_out))%nat)
      as Hnodes.
    { intros j x Hj. destruct (od 0%nat) as [a|vd]; [done|]. simpl in Hrel0.
      destruct (Forall2_lookup_r _ _ _ _ _ Hrel0 Hj) as (a & _ & Ha).
      destruct a; try done. apply Ha. }
    pose proof (reverse_loop self cs base st_out Htr vn 0 (np_zeros m) (np_zeros2 m n)
                  st_out ltac:(simpl; lia) Hnodes (same_shape_refl _)
                  (matrix_shape_zeros m n)) as Hloop.
    change (imap (fun j => pair (0 + j)%nat) vn) with (imap pair vn) in Hloop.
    rewrite (backward_rows_tuple self vn Hl). unfold bind at 1.
    destruct (for_loop (reverse_step self) (imap pair vn) _ st_out) as [[[v J]|e] st'].
    + destruct Hloop as (_ & HJ & Hent).
      exists (ValArray v), J, st'. split; [done|]. split; [done|].
      intros r c Hr Hc. rewrite (Hent r c Hc).
      rewrite decide_True by lia. rewrite Nat.sub_0_r.
      destruct (lookup_lt_is_Some_2 vn r) as [b Hb]; [lia|]. rewrite Hb.
      specialize (Hrel c Hc). destruct (od c) as [a|vd]; [done|]. simpl in Hrel.
      destruct (Forall2_lookup_r _ _ _ _ _ Hrel Hb) as (a & Ha & Hab).
      simpl. rewrite list_lookup_fmap, Ha. simpl.
      destruct a, b; try done; simpl in Hab.
      * exact (entry_zeros m n r c).
      * destruct Hab as (_ & _ & Hd). by rewrite Hd.
    + destruct Hloop as (Hall' & _). congruence.
Qed.

End AfterCall.

(** The two private methods: the same exception, or the same Jacobian. *)
Lemma forward_reverse_core :
  agree (fun a b => a.2 = b.2)
        (_forward self (VNum <$> cs) st).1 (_reverse self (VNum <$> cs) st).1.
Proof.
  destruct (reverse_inputs cs st Hwf) as (st_in & Hwrap & Htr_in).
  rewrite Hlen in Hwrap, Htr_in.
  destruct (call (func self) (VNode <$> seq base n) st_in) as [rn st_out] eqn:Hcall.
  assert (∀ i, (i < n)%nat →
            traced base n cs st_out
            ∧ agree (rel_obj i st_out) (call (func self) (zs i) st).1 rn) as Hsim.
  { intros i Hi.
    pose proof (sim_call base n cs i Hi (func self) (zs i) (VNode <$> seq base n)
                  st_in st Htr_in (input_correspondence st_in i Htr_in Hi)
                  (Hdom i st Hi)) as (_ & H2 & _ & H4).
    rewrite Hcall in H2, H4. done. }
  assert (_reverse self (VNum <$> cs) st
          = match rn with
            | Ok on => backward_rows self on st_out
            | Raise e => (Raise e, st_out)
            end) as ->.
  { unfold _reverse. unfold bind at 1. simpl.
    rewrite (bind_ok _ _ _ _ _ Hwrap). unfold bind at 1. rewrite Hcall.
    by destruct rn. }
  rewrite forward_unfold.
  pose proof (forward_loop self cs st Hlen (seq 0 n)
                ltac:(intros j Hj%elem_of_seq; lia)
                (np_zeros m) (np_zeros2 m n) (matrix_shape_zeros m n)) as Hloop.
  destruct (Hsim 0%nat Hpos) as [Htr_out _].
  destruct rn as [on|e].
  - set (od := fun c => match (call (func self) (zs c) st).1 with
                        | Ok o => o
                        | Raise _ => Single VOther
                        end).
    assert (∀ c, (c < n)%nat →
              (call (func self) (zs c) st).1 = Ok (od c) ∧ rel_obj c st_out (od c) on)
      as Hod.
    { intros c Hc. destruct (Hsim c Hc) as [_ Hag]. unfold od.
      destruct (call (func self) (zs c) st).1; [done|done]. }
    assert (∀ c, (c < n)%nat → rel_obj c st_out (od c) on) as Hrel.
    { intros c Hc. by apply Hod. }
    destruct (result_error m is_nodeb on) as [e|] eqn:Herr.
    + rewrite (backward_rows_error st_out on od Htr_out Hrel e Herr).
      destruct (for_loop _ _ _ st) as [[[vf Jf]|e'] st1]; simpl.
      * destruct Hloop as (_ & _ & Hruns & _).
        destruct (Hruns 0%nat) as (res & Hres & Hnone); [apply elem_of_seq; lia|].
        destruct (Hod 0%nat Hpos) as [Hrun Hr0]. rewrite Hrun in Hres.
        injection Hres as <-.
        rewrite (result_error_corresponds _ _ _ _ Hr0) in Hnone. congruence.
      * destruct Hloop as (i & Hi%elem_of_seq & [Hr|(res & Hres & He')]).
        -- destruct (Hod i ltac:(lia)) as [Hrun _]. congruence.
        -- destruct (Hod i ltac:(lia)) as [Hrun Hri]. rewrite Hrun in Hres.
           injection Hres as <-.
           rewrite (result_error_corresponds _ _ _ _ Hri) in He'. congruence.
    + destruct (backward_rows_ok st_out on od Htr_out Hrel Herr)
        as (v & J & st' & Heq & HJ & Hent).
      rewrite Heq.
      destruct (for_loop _ _ _ st) as [[[vf Jf]|e'] st1]; simpl.
      * destruct Hloop as (_ & HJf & _ & Hcols).
        apply (matrix_ext m n); [done|done|].
        intros r c Hr Hc. destruct (Hcols r c Hr) as [Hin _].
        destruct (Hod c Hc) as [Hrun _].
        rewrite (Hin ltac:(apply elem_of_seq; lia) (od c) Hrun).
        by rewrite Hent.
      * destruct Hloop as (i & Hi%elem_of_seq & [Hr|(res & Hres & He')]).
        -- destruct (Hod i ltac:(lia)) as [Hrun _]. congruence.
        -- destruct (Hod i ltac:(lia)) as [Hrun Hri]. rewrite Hrun in Hres.
           injection Hres as <-.
           rewrite (result_error_corresponds _ _ _ _ Hri) in He'. congruence.
  - simpl. destruct (for_loop _ _ _ st) as [[[vf Jf]|e'] st1]; simpl.
    + destruct Hloop as (_ & _ & Hruns & _).
      destruct (Hruns 0%nat) as (res & Hres & _); [apply elem_of_seq; lia|].
      destruct (Hsim 0%nat Hpos) as [_ Hag]. by rewrite Hres in Hag.
    + destruct Hloop as (i & Hi%elem_of_seq & [Hr|(res & Hres & _)]).
      * destruct (Hsim i ltac:(lia)) as [_ Hag]. by rewrite Hr in Hag.
      * destruct (Hsim i ltac:(lia)) as [_ Hag]. by rewrite Hres in Hag.
Qed.


End ForwardReverse.

Lemma in_domain_scenario2 : in_domain Examples.scenario2 [2%R; 3%R].
Proof.
  intros i st Hi. simpl in Hi.
  destruct i as [|[|i]]; [| |lia];
    (unfold Examples.scenario2; cbn [func body pow_domain_body];
     apply Forall_cons; split; [|apply Forall_cons; split; [|apply Forall_nil]];
     cbn [pow_domain]; repeat split; try done; intros _; vm_compute; exact I).
Qed.


Lemma trace_is_jacobian_column_witness :
  ∃ J v,
    (Func_jacobian Examples.scenario2 (ArgList (VNum <$> [2%R; 3%R])) false false
       Examples.st_init).1 = Ok (JacMatrix J)
    ∧ Func_trace Examples.scenario2 (ArgList (VNum <$> [2%R; 3%R]))
        (ArgList (VNum <$> column (np_identity 2) 0)) Examples.st_init
      = (Ok (v, column J 0), Examples.st_init).
Proof.
  destruct (Func_jacobian Examples.scenario2 (ArgList (VNum <$> [2%R; 3%R])) false false
              Examples.st_init).1 as [r|e] eqn:Hr.
  - assert (0 < num_inputs Examples.scenario2) as Hi by (simpl; lia).
    destruct (trace_is_jacobian_column Examples.scenario2 [2%R; 3%R] Examples.st_init
                eq_refl 0 r Hi Hr) as (v & Hv).
    destruct r as [j|J|w j|w J].
    + exfalso. vm_compute in Hr. discriminate Hr.
    + exists J, v. split; [reflexivity|exact Hv].
    + exfalso. vm_compute in Hr. discriminate Hr.
    + exfalso. vm_compute in Hr. discriminate Hr.
  - exfalso. vm_compute in Hr. discriminate Hr.
Defined.

(* ================================================================= *)
(** ** func.py: the value that [trace] returns *)

Section TraceValue.
Implicit Types (st : rstate R).

Local Ltac rsimpl :=
  cbn [fadd fsub fmul fdiv fpow fneg lit np_log np_sin np_cos np_tan np_exp
       np_arcsin np_arccos np_arctan np_sinh np_cosh np_tanh np_sqrt
       RealNum.R_PyNum real dual] in *.

Lemma bind_pure_1 {A B} (m : M R A) (k : A → M R B) st (P : A → Prop) :
  pure_at m st P →
  (bind m k st).1 = match (m st).1 with
                    | Ok a => (k a st).1
                    | Raise e => Raise e
                    end.
Proof.
  intros [Hst _]. unfold bind. destruct (m st) as [[a|e] st1]; simpl in *; by subst.
Qed.

Lemma same_real_node_free (vn vd : pyval R) :
  same_real vn vd → node_free vn ∧ node_free vd.
Proof. by destruct vn, vd. Qed.

Lemma same_real_env_node_free (envn envd : list (pyval R)) :
  Forall2 same_real envn envd → Forall node_free envn ∧ Forall node_free envd.
Proof.
  induction 1 as [|a b l k Hab _ [IH1 IH2]]; [done|].
  destruct (same_real_node_free a b Hab). split; by constructor.
Qed.

Lemma same_real_apply_arith op (a b a' b' : pyval R) st :
  same_real a a' → same_real b b' →
  agree same_real (apply_arith op a b st).1 (apply_arith op a' b' st).1.
Proof.
  intros Ha Hb.
  destruct a as [x|z0|n0|], a' as [x'|z|n1|]; try done;
    destruct b as [y|w0|n2|], b' as [y'|w|n3|]; try done;
    simpl in Ha, Hb; subst; destruct op; simpl; unfold Dual_sub, Dual_rsub;
    simpl; rsimpl; try done; unfold Rdiv, Rminus; ring.
Qed.

Lemma same_real_apply_neg (a a' : pyval R) st :
  same_real a a' → agree same_real (apply_neg a st).1 (apply_neg a' st).1.
Proof.
  intros Ha. destruct a as [x|z0|n0|], a' as [x'|z|n1|]; try done;
    simpl in Ha; subst; done.
Qed.

Lemma same_real_elementary f (a a' : pyval R) st :
  same_real a a' →
  agree same_real (operators.elementary f a st).1 (operators.elementary f a' st).1.
Proof.
  intros Ha. destruct a as [x|z0|n0|], a' as [x'|z|n1|]; try done;
    simpl in Ha; subst; simpl.
  - by destruct (operators.domain_guard f x').
  - by destruct (operators.domain_guard f (real z)).
Qed.

Lemma same_real_log_base b (a a' : pyval R) st :
  same_real a a' →
  agree same_real (operators.log_base a (Some b) st).1
                  (operators.log_base a' (Some b) st).1.
Proof.
  intros Ha. destruct a as [x|z0|n0|], a' as [x'|z|n1|]; try done;
    simpl in Ha; subst; simpl; by case_bool_decide.
Qed.

Lemma same_real_eval (e : expr R) envn envd st :
  Forall2 same_real envn envd →
  agree same_real (eval e envn st).1 (eval e envd st).1.
Proof.
  intros Henv. destruct (same_real_env_node_free _ _ Henv) as [Hn Hd].
  induction e as [i|c|e IH|op e1 IH1 e2 IH2|f e IH|e IH b]; simpl.
  - destruct (envn !! i) as [v|] eqn:Hv.
    + destruct (Forall2_lookup_l _ _ _ _ _ Henv Hv) as (v' & Hv' & Hvv).
      by rewrite Hv'.
    + assert (envd !! i = None) as ->; [|done].
      apply lookup_ge_None. rewrite <- (Forall2_length _ _ _ Henv).
      by apply lookup_ge_None.
  - done.
  - rewrite (bind_pure_1 _ _ _ _ (pure_eval e envn st Hn)).
    rewrite (bind_pure_1 _ _ _ _ (pure_eval e envd st Hd)).
    destruct (eval e envn st).1, (eval e envd st).1; try done.
    by apply same_real_apply_neg.
  - rewrite (bind_pure_1 _ _ _ _ (pure_eval e1 envn st Hn)).
    rewrite (bind_pure_1 _ _ _ _ (pure_eval e1 envd st Hd)).
    destruct (eval e1 envn st).1, (eval e1 envd st).1; try done.
    rewrite (bind_pure_1 _ _ _ _ (pure_eval e2 envn st Hn)).
    rewrite (bind_pure_1 _ _ _ _ (pure_eval e2 envd st Hd)).
    destruct (eval e2 envn st).1, (eval e2 envd st).1; try done.
    by apply same_real_apply_arith.
  - rewrite (bind_pure_1 _ _ _ _ (pure_eval e envn st Hn)).
    rewrite (bind_pure_1 _ _ _ _ (pure_eval e envd st Hd)).
    destruct (eval e envn st).1, (eval e envd st).1; try done.
    by apply same_real_elementary.
  - rewrite (bind_pure_1 _ _ _ _ (pure_eval e envn st Hn)).
    rewrite (bind_pure_1 _ _ _ _ (pure_eval e envd st Hd)).
    destruct (eval e envn st).1, (eval e envd st).1; try done.
    by apply same_real_log_base.
Qed.

Lemma same_real_eval_tuple (es : list (expr R)) envn envd st :
  Forall2 same_real envn envd →
  agree (Forall2 same_real) (eval_tuple es envn st).1 (eval_tuple es envd st).1.
Proof.
  intros Henv. destruct (same_real_env_node_free _ _ Henv) as [Hn Hd].
  induction es as [|e es IH]; simpl; [by constructor|].
  rewrite (bind_pure_1 _ _ _ _ (pure_eval e envn st Hn)).
  rewrite (bind_pure_1 _ _ _ _ (pure_eval e envd st Hd)).
  pose proof (same_real_eval e envn envd st Henv) as He.
  destruct (eval e envn st).1, (eval e envd st).1; try done.
  rewrite (bind_pure_1 _ _ _ _ (pure_eval_tuple es envn st Hn)).
  rewrite (bind_pure_1 _ _ _ _ (pure_eval_tuple es envd st Hd)).
  destruct (eval_tuple es envn st).1, (eval_tuple es envd st).1; try done.
  simpl. by constructor.
Qed.

Lemma same_real_exec (s : stmt R) envn envd st :
  Forall2 same_real envn envd →
  agree same_real_obj (exec s envn st).1 (exec s envd st).1.
Proof.
  revert envn envd. induction s as [e rest IH|e|es]; intros envn envd Henv;
    destruct (same_real_env_node_free _ _ Henv) as [Hn Hd]; simpl.
  - rewrite (bind_pure_1 _ _ _ _ (pure_eval e envn st Hn)).
    rewrite (bind_pure_1 _ _ _ _ (pure_eval e envd st Hd)).
    pose proof (same_real_eval e envn envd st Henv) as He.
    destruct (eval e envn st).1, (eval e envd st).1; try done.
    apply IH. apply Forall2_app; [done|]. by constructor.
  - rewrite (bind_pure_1 _ _ _ _ (pure_eval e envn st Hn)).
    rewrite (bind_pure_1 _ _ _ _ (pure_eval e envd st Hd)).
    pose proof (same_real_eval e envn envd st Henv) as He.
    by destruct (eval e envn st).1, (eval e envd st).1.
  - rewrite (bind_pure_1 _ _ _ _ (pure_eval_tuple es envn st Hn)).
    rewrite (bind_pure_1 _ _ _ _ (pure_eval_tuple es envd st Hd)).
    pose proof (same_real_eval_tuple es envn envd st Henv) as He.
    by destruct (eval_tuple es envn st).1, (eval_tuple es envd st).1.
Qed.

Lemma same_real_call (f : pyfunc R) envn envd st :
  Forall2 same_real envn envd →
  agree same_real_obj (call f envn st).1 (call f envd st).1.
Proof.
  intros Henv. unfold call. rewrite (Forall2_length _ _ _ Henv).
  destruct (decide (length envd = nparams f)); [|done].
  by apply same_real_exec.
Qed.

Lemma same_real_inputs (cs ds : list R) :
  Forall2 same_real (VNum <$> cs) (dual_inputs cs ds).
Proof.
  apply Forall2_same_length_lookup_2.
  - unfold dual_inputs. by rewrite !length_fmap, length_seq.
  - intros j x y Hx Hy. unfold dual_inputs in Hy.
    rewrite list_lookup_fmap in Hx. rewrite list_lookup_fmap in Hy.
    destruct (cs !! j) as [c|] eqn:Hc; [|done].
    rewrite lookup_seq_lt in Hy by (by eapply lookup_lt_Some).
    simpl in Hx, Hy. injection Hx as <-. injection Hy as <-.
    simpl. by rewrite Hc.
Qed.

(** X28.  Over the real numbers, when [trace] returns at a point of
    numbers, whatever the direction, the value it returns is the value of
    the function at the point as [__call__] computes it with plain
    numbers: [__call__] returns too, and its result holds the same
    numbers. *)
Theorem trace_value_is_call (self : Func R) (cs ds : list R) st val deriv :
  length cs = num_inputs self → length ds = num_inputs self →
  (Func_trace self (ArgList (VNum <$> cs)) (ArgList (VNum <$> ds)) st).1
  = Ok (val, deriv) →
  ∃ r,
    Func_call self (ArgList (VNum <$> cs)) st = (Ok (wrap_result self r), st)
    ∧ match r with
      | Single (VNum c) => val = [c]
      | Single _ => False
      | Tuple vs => vs = VNum <$> val
      end.
Proof.
  intros Hlen Hds Htrace.
  pose proof (same_real_call (func self) (VNum <$> cs) (dual_inputs cs ds) st
                (same_real_inputs cs ds)) as Hag.
  destruct (call (func self) (dual_inputs cs ds) st).1 as [res|e] eqn:Hres.
  2:{ rewrite (trace_fails self cs st Hlen ds e Hds) in Htrace; [done|by left]. }
  destruct (result_error (num_outputs self) is_dualb res) as [e|] eqn:Herr.
  { rewrite (trace_fails self cs st Hlen ds e Hds) in Htrace; [done|].
    right. by exists res. }
  rewrite (trace_ok self cs st Hlen ds res Hds Hres Herr) in Htrace.
  injection Htrace as <- <-.
  destruct (call (func self) (VNum <$> cs) st) as [rn st1] eqn:Hcall.
  assert (st1 = st) as ->.
  { destruct (pure_call (func self) (VNum <$> cs) st) as [Hst _].
    - apply Forall_fmap, Forall_true. done.
    - by rewrite Hcall in Hst. }
  simpl in Hag. destruct rn as [r|e]; [|done].
  exists r. split.
  - unfold Func_call, bind at 1, lift. simpl.
    rewrite decide_False by (rewrite length_fmap; intros Hne; by apply Hne).
    unfold wrap_result.
    destruct (decide (num_outputs self = 1)); by rewrite (bind_ok _ _ _ _ _ Hcall).
  - destruct r as [a|vn], res as [b|vd]; simpl in Hag; try done.
    + destruct a as [c|z0|n0|], b as [c'|z|n1|]; simpl in *; try done.
      by subst.
    + simpl in Herr. destruct (decide (length vd = num_outputs self)) as [Hl|]; [|done].
      destruct (forallb is_dualb vd) eqn:Hall; [|done]. clear Herr Hl Hres Hcall.
      simpl. induction Hag as [|a b vn vd Hab _ IH]; [done|].
      simpl in Hall. apply andb_true_iff in Hall as [Hb Hall].
      simpl. rewrite (IH Hall). destruct a as [c|z0|n0|], b as [c'|z|n1|]; try done.
      simpl in Hab. by subst.
Qed.

End TraceValue.

Lemma trace_value_is_call_witness :
  ∃ val deriv r,
    (Func_trace Examples.scenario2 (ArgList (VNum <$> [2%R; 3%R]))
       (ArgList (VNum <$> [1%R; 0%R])) Examples.st_init).1 = Ok (val, deriv)
    ∧ Func_call Examples.scenario2 (ArgList (VNum <$> [2%R; 3%R])) Examples.st_init
      = (Ok (wrap_result Examples.scenario2 r), Examples.st_init)
    ∧ match r with
      | Single (VNum c) => val = [c]
      | Single _ => False
      | Tuple vs => vs = VNum <$> val
      end.
Proof.
  destruct (Func_trace Examples.scenario2 (ArgList (VNum <$> [2%R; 3%R]))
              (ArgList (VNum <$> [1%R; 0%R])) Examples.st_init).1
    as [[val deriv]|e] eqn:Ht.
  - destruct (trace_value_is_call Examples.scenario2 [2%R; 3%R] [1%R; 0%R]
                Examples.st_init val deriv eq_refl eq_refl Ht) as (r & Hc & Hr).
    by exists val, deriv, r.
  - exfalso. vm_compute in Ht. discriminate Ht.
Defined.

(* ================================================================= *)
(** ** A dual number and a node in one expression *)

Section MixedOperands.
Context {F : Type} `{PyNum F}.

(** X29.  An arithmetic operator between a dual number and a graph node
    raises [TypeError], whichever of the two stands on the left.  With
    the node on the left, or with [+], [*], [/] or [**], nothing is
    created.  For [z - x] with the dual number on the left, [__sub__]
    first multiplies the node by [-1], so two nodes have been created and
    the counter has gone up by two when the error is raised. *)
Theorem mixed_dual_node (op : arith) (z : DualNumber F) (x : nat) st :
  apply_arith op (VNode x) (VDual z) st = (Raise TypeError, st)
  ∧ (apply_arith op (VDual z) (VNode x) st).1 = Raise TypeError
  ∧ let st' := (apply_arith op (VDual z) (VNode x) st).2 in
    if decide (op = OpSub)
    then length (heap st') = S (S (length (heap st)))
         ∧ increment st' = S (S (increment st))
         ∧ take (length (heap st)) (heap st') = heap st
    else st' = st.
Proof.
  split; [by destruct op|]. split; [by destruct op|].
  destruct op; try done.
  assert (∃ nd1 nd2 r,
            rNode_mul x (NScalar (lit (-1))) st
            = (Ok r, mk_rstate (heap st ++ [nd1; nd2]) (S (S (increment st))))) as E.
  { unfold rNode_mul, coercing_binary. unfold bind at 1, new_rNode.
    cbn [rNode_init]. rewrite make_binary_state. cbn [heap increment].
    rewrite <- app_assoc. by eexists _, _, _. }
  destruct E as (nd1 & nd2 & r & E).
  change (apply_arith OpSub (VDual z) (VNode x) st)
    with (bind (rNode_mul x (NScalar (lit (-1))))
               (fun _ => raise (A := pyval F) TypeError) st).
  unfold bind. rewrite E. simpl. rewrite length_app. simpl.
  split; [lia|]. split; [done|]. by rewrite take_app_length.
Qed.

End MixedOperands.

(* ================================================================= *)
(** ** The Jacobian of a function of one variable *)

Section ForwardDerivative.
Local Open Scope R_scope.

Local Ltac rsimpl :=
  cbn [fadd fsub fmul fdiv fpow fneg lit np_log np_sin np_cos np_tan np_exp
       np_arcsin np_arccos np_arctan np_sinh np_cosh np_tanh np_sqrt
       RealNum.R_PyNum real dual] in *.

(** A function with a derivative at [x] keeps the sign it has at [x] on
    an interval around [x]. *)
Lemma positive_nearby (u : R → R) (x u' : R) :
  derivable_pt_lim u x u' → 0 < u x →
  ∃ a b, a < x < b ∧ ∀ t, a < t < b → 0 < u t.
Proof.
  intros Hu Hpos.
  assert (continuity_pt u x) as Hc.
  { apply derivable_continuous_pt. by exists u'. }
  destruct (Hc (u x / 2)) as (alp & Halp & Hclose); [lra|].
  exists (x - alp), (x + alp). split; [lra|]. intros t Ht.
  destruct (Req_dec_T t x) as [->|Hne]; [done|].
  specialize (Hclose t). simpl in Hclose. unfold Rdist, D_x, no_cond in Hclose.
  assert (Rabs (u t - u x) < u x / 2) as Hd.
  { apply Hclose. split; [split; [done|congruence]|].
    apply Rabs_def1; lra. }
  apply Rabs_def2 in Hd. lra.
Qed.

Lemma binop_chain (op : binop) (u v : R → R) (x u' v' : R) :
  derivable_pt_lim u x u' → derivable_pt_lim v x v' →
  smooth_at op (u x) (v x) →
  derivable_pt_lim (fun t => binop_val op (u t) (v t)) x
    (d_self op (u x) (v x) * u' + d_other op (u x) (v x) * v').
Proof.
  intros Hu Hv Hs. destruct op; simpl in *; rsimpl; rewrite ?Rpow_2.
  - replace (1 * u' + 1 * v') with (u' + v') by ring.
    exact (derivable_pt_lim_plus u v x u' v' Hu Hv).
  - replace (1 * u' + -1 * v') with (u' - v') by ring.
    exact (derivable_pt_lim_minus u v x u' v' Hu Hv).
  - replace (-1 * u' + 1 * v') with (v' - u') by ring.
    exact (derivable_pt_lim_minus v u x v' u' Hv Hu).
  - replace (v x * u' + u x * v') with (u' * v x + u x * v') by ring.
    exact (derivable_pt_lim_mult u v x u' v' Hu Hv).
  - destruct (positive_nearby u x u' Hu Hs) as (a & b & Hab & Hpos).
    rewrite (Rpow_pred (u x) (v x) Hs), (Rpow_pos (u x) (v x) Hs).
    apply (derivable_pt_lim_locally_ext (fun t => exp (v t * ln (u t))) _ x a b);
      [exact Hab| |].
    { intros t Ht. rewrite (Rpow_pos (u t) (v t)) by auto. done. }
    assert (derivable_pt_lim (fun t => v t * ln (u t)) x
              (v' * ln (u x) + v x * (/ u x * u'))) as Hm.
    { apply (derivable_pt_lim_mult v (fun t => ln (u t)) x); [done|].
      apply (derivable_pt_lim_comp u ln); [done|]. by apply derivable_pt_lim_ln. }
    pose proof (derivable_pt_lim_comp (fun t => v t * ln (u t)) exp x _ _ Hm
                  (derivable_pt_lim_exp _)) as Hd.
    unfold Rpower.
    replace (v x * (exp (v x * ln (u x)) * / u x) * u'
             + exp (v x * ln (u x)) * ln (u x) * v')
      with (exp (v x * ln (u x)) * (v' * ln (u x) + v x * (/ u x * u'))) by ring.
    exact Hd.
  - replace (1 / v x * u' + - u x / (v x * v x) * v')
      with ((u' * v x - v' * u x) / Rsqr (v x)) by (unfold Rsqr; by field).
    exact (derivable_pt_lim_div u v x u' v' Hu Hv Hs).
  - replace (- v x / (u x * u x) * u' + 1 / u x * v')
      with ((v' * u x - u' * v x) / Rsqr (u x)) by (unfold Rsqr; by field).
    exact (derivable_pt_lim_div v u x v' u' Hv Hu Hs).
Qed.

Lemma unop_chain (f : unop) (u : R → R) (x u' : R) :
  derivable_pt_lim u x u' → open_domain f (u x) →
  derivable_pt_lim (fun t => operators.np_value f (u t)) x (d_unary f (u x) * u').
Proof.
  intros Hu Hd.
  exact (derivable_pt_lim_comp u (fun y => operators.np_value f y) x _ _ Hu
           (np_value_derivative f (u x) Hd)).
Qed.

Lemma open_domain_guard (f : unop) (a : R) :
  open_domain f a → operators.domain_guard f a = false.
Proof.
  intros Hd. destruct f; simpl in *; rsimpl; try done.
  - apply bool_decide_eq_false_2. lra.
  - rewrite !bool_decide_eq_false_2; [done|lra|lra].
  - rewrite !bool_decide_eq_false_2; [done|lra|lra].
  - apply bool_decide_eq_false_2. lra.
Qed.

Lemma arith_num_binop_val (op : arith) (a b : R) :
  arith_num op a b = binop_val (node_op op) a b.
Proof. by destruct op. Qed.

Lemma arith_num_reflected (op : arith) (a b : R) :
  op ≠ OpPow → arith_num op a b = binop_val (node_rop op) b a.
Proof. intros Hop. destruct op; simpl; rsimpl; try done; ring. Qed.

Lemma smooth_at_reflected (op : arith) (a b : R) :
  op ≠ OpPow → smooth_at (node_op op) a b → smooth_at (node_rop op) b a.
Proof. intros Hop. by destruct op. Qed.

Lemma forward_tracks (e : expr R) (x : R) st :
  smooth e x →
  ∃ v, eval e [VDual (mkDual x 1)] st = (Ok v, st) ∧ tracks e x v.
Proof.
  induction e as [i|c|e IH|op e1 IH1 e2 IH2|f e IH|e IH b]; simpl; intros Hs.
  - subst i. eexists. split; [done|]. split; [done|]. apply derivable_pt_lim_id.
  - eexists. split; [done|]. split; [done|]. apply derivable_pt_lim_const.
  - destruct (IH Hs) as (v & Hv & Ht).
    rewrite (bind_ok _ _ _ _ _ Hv).
    destruct v as [c|z|n|]; try done; destruct Ht as [Hr Hd].
    + eexists. split; [done|]. split; [by rewrite Hr|].
      replace 0 with (- 0) by ring.
      exact (derivable_pt_lim_opp _ _ _ Hd).
    + eexists. split; [done|]. split; [simpl; rsimpl; by rewrite Hr|].
      exact (derivable_pt_lim_opp _ _ _ Hd).
  - destruct Hs as (Hs1 & Hs2 & Hat).
    destruct (IH1 Hs1) as (v1 & Hv1 & Ht1). destruct (IH2 Hs2) as (v2 & Hv2 & Ht2).
    rewrite (bind_ok _ _ _ _ _ Hv1), (bind_ok _ _ _ _ _ Hv2).
    assert (∀ d, derivable_pt_lim (fun t => binop_val (node_op op) (den e1 t) (den e2 t)) x d →
                 derivable_pt_lim (fun t => arith_num op (den e1 t) (den e2 t)) x d) as Hext.
    { intros d. apply derivable_pt_lim_ext. intros t. by rewrite arith_num_binop_val. }
    destruct v1 as [c|[a a']|n|]; try done; destruct Ht1 as [Hr1 Hd1];
      (destruct v2 as [d|[b b']|n|]; try done; destruct Ht2 as [Hr2 Hd2]);
      simpl in Hr1, Hr2; subst.
    + eexists. split; [done|]. split; [done|]. apply Hext.
      pose proof (binop_chain _ _ _ _ _ _ Hd1 Hd2 Hat) as Hc.
      by rewrite !Rmult_0_r, Rplus_0_r in Hc.
    + destruct (decide (op = OpPow)) as [->|Hop].
      * eexists. split; [unfold apply_arith, Dual_rmethod; by rewrite rpow_rule|].
        split; [done|]. apply Hext. simpl.
        pose proof (binop_chain Pow _ _ _ _ _ Hd1 Hd2 Hat) as Hc.
        simpl in Hc. rsimpl. by rewrite Rmult_0_r, Rplus_0_l in Hc.
      * eexists. split.
        { unfold apply_arith. by rewrite (binary_rule_scalar_dual op _ _ _ Hop). }
        split; [cbn [real den]; by rewrite arith_num_reflected|].
        apply (derivable_pt_lim_ext
                 (fun t => binop_val (node_rop op) (den e2 t) (den e1 t))).
        { intros t. cbn [den]. by rewrite arith_num_reflected. }
        cbn [dual]. apply (binop_chain (node_rop op) _ _ _ _ _ Hd2 Hd1).
        by apply smooth_at_reflected.
    + eexists. split; [cbv beta iota delta [apply_arith as_dual_operand]; by rewrite binary_rule_dual_scalar|].
      split; [cbn [real den]; by rewrite arith_num_binop_val|].
      apply Hext. cbn [dual]. exact (binop_chain _ _ _ _ _ _ Hd1 Hd2 Hat).
    + eexists. split.
      { cbv beta iota delta [apply_arith as_dual_operand]. rewrite binary_rule_dual_dual; [done|].
        intros ->. exact Hat. }
      split; [cbn [real den]; by rewrite arith_num_binop_val|].
      apply Hext. cbn [dual]. exact (binop_chain _ _ _ _ _ _ Hd1 Hd2 Hat).
  - destruct Hs as (Hs & Hdom). destruct (IH Hs) as (v & Hv & Ht).
    rewrite (bind_ok _ _ _ _ _ Hv).
    destruct v as [c|[a a']|n|]; try done; destruct Ht as [Hr Hd];
      simpl in Hr; subst; unfold operators.elementary; simpl;
      rewrite (open_domain_guard _ _ Hdom).
    + eexists. split; [done|]. split; [done|].
      pose proof (unop_chain f _ _ _ Hd Hdom) as Hc.
      by rewrite Rmult_0_r in Hc.
    + eexists. split; [done|]. split; [done|]. simpl. rewrite unary_rule.
      exact (unop_chain f _ _ _ Hd Hdom).
  - destruct Hs as (Hs & Hpos & Hb). destruct (IH Hs) as (v & Hv & Ht).
    rewrite (bind_ok _ _ _ _ _ Hv).
    assert (∀ u', derivable_pt_lim (den e) x u' →
                  derivable_pt_lim (fun t => ln (den e t) / ln b) x
                    (1 / (den e x * ln b) * u')) as Hlog.
    { intros u' Hu.
      replace (1 / (den e x * ln b) * u') with (/ ln b * (/ den e x * u'))
        by (by field; split; [|lra]).
      apply (derivable_pt_lim_ext (fun t => (fct_cte (/ ln b) * (fun t => ln (den e t)))%F t)).
      { intros t. unfold mult_fct, fct_cte, Rdiv. ring. }
      apply (derivable_pt_lim_scal (fun t => ln (den e t)) (/ ln b) x).
      apply (derivable_pt_lim_comp (den e) ln); [done|].
      by apply derivable_pt_lim_ln. }
    destruct v as [c|[a a']|n|]; try done; destruct Ht as [Hr Hd];
      simpl in Hr; subst; simpl; rsimpl;
      (rewrite bool_decide_eq_false_2 by lra).
    + eexists. split; [done|]. split; [done|].
      pose proof (Hlog _ Hd) as Hc. by rewrite Rmult_0_r in Hc.
    + eexists. split; [done|]. split; [done|]. simpl. rewrite log_base_rule.
      exact (Hlog _ Hd).
Qed.


Lemma forward_single (e : expr R) (x : R) st v :
  eval e [VDual (mkDual x 1)] st = (Ok v, st) →
  _forward (mk_Func (mk_pyfunc 1 (Return e)) 1 1) [VNum x] st
  = match v with
    | VDual d => (Ok ([real d], [[dual d]]), st)
    | _ => (Raise TypeError, st)
    end.
Proof.
  intros Hv. unfold _forward, seed_duals, call.
  cbn [num_inputs num_outputs func nparams body seq for_loop np_identity np_zeros np_zeros2
       replicate column fmap list_fmap lookup list_lookup insert list_insert default
       length exec].
  unfold bind, ret. cbn [app Datatypes.id length].
  rewrite decide_True by done.
  change (lit 1) with 1. rewrite Hv.
  destruct v as [c|d|n|]; try done.
Qed.

Lemma smooth_pow_domain (e : expr R) (x : R) st :
  smooth e x → pow_domain e [VDual (mkDual x 1)] st.
Proof.
  induction e as [i|c|e IH|op e1 IH1 e2 IH2|f e IH|e IH b]; simpl; try tauto.
  intros (Hs1 & Hs2 & Hat). split; [auto|]. split; [auto|]. intros ->.
  destruct (forward_tracks e1 x st Hs1) as (v1 & Hv1 & Ht1). rewrite Hv1. simpl.
  destruct v1 as [c|z|n|]; try done. destruct Ht1 as [Hr _].
  destruct (eval e2 [VDual (mkDual x 1)] st).1 as [[| | |]|]; try done.
  rewrite Hr. exact Hat.
Qed.

Lemma smooth_in_domain (e : expr R) (x : R) :
  smooth e x → in_domain (mk_Func (mk_pyfunc 1 (Return e)) 1 1) [x].
Proof.
  intros Hs i st Hi. simpl in Hi. assert (i = 0%nat) as -> by lia.
  by apply smooth_pow_domain.
Qed.


End ForwardDerivative.

